(** * white-matter-matters: the locally authored notebook code

    A shallow embedding of the functions and one-line data transformations
    that the notebooks define themselves:

    - [b_value], [ST_equation] and [viz_gradients] (the pulsed-gradient
      notebook);
    - the [white_matter] mask, the [V1_smoothed] seed region and the
      streamline length filter (the two tracking notebooks).

    Number model.  The functions on floats are read twice.  Modules
    [Signals], [Plots], [Bvecs] and [Residuals] read Python's [float] as
    a real number ([R]): the formulas in exact arithmetic, where rounding,
    overflow and NaN do not exist.  Modules [Binary64] and [Signals64]
    read it as an IEEE 754 binary64 number, with every operation rounded
    to nearest-even, [inf] and [nan], and the [OverflowError] of [**].
    Python's [int] is [Z].  An operation that can raise in Python produces
    an [outcome]. *)

From stdpp Require Import base list strings pretty.
From Stdlib Require Import ZArith Reals Lra Lia Psatz SpecFloat.

(** ** Python outcomes: a value or a raised exception *)

Module Py.

Inductive exn : Set :=
  | ZeroDivisionError
  | ValueError
  | OverflowError.

Inductive outcome (A : Type) : Type :=
  | Return (a : A)
  | Raise (e : exn).
Arguments Return {A} a.
Arguments Raise {A} e.

#[global] Instance outcome_ret : MRet outcome := @Return.
#[global] Instance outcome_bind : MBind outcome := fun A B k m =>
  match m with
  | Return a => k a
  | Raise e => Raise e
  end.

(** [x / y] on floats: raises when the divisor is zero. *)
Definition truediv (x y : R) : outcome R :=
  if Req_dec_T y 0 then Raise ZeroDivisionError else Return (x / y)%R.

(** [int(x)]: truncation towards zero. *)
Definition int (x : R) : Z :=
  if Rle_dec 0 x then Int_part x else (- Int_part (- x))%Z.

(** The order on outcomes: both sides returned, and the values compare. *)
Definition returns_lt (a b : outcome R) : Prop :=
  match a, b with
  | Return x, Return y => (x < y)%R
  | _, _ => False
  end.

Definition raises {A} (a : outcome A) : Prop :=
  match a with
  | Return _ => False
  | Raise _ => True
  end.

End Py.
Import Py.

(** ** The pulsed-gradient notebook *)

Module Signals.

Local Open Scope R_scope.

(** The default of [b_value]'s keyword argument [gamma]. *)
Definition gamma_default : R := 42.576.

Definition b_value (g delta Delta gamma : R) : outcome R :=
  let G := g * 1e-3 * 1e-6 in
  let gamma := 2 * PI * gamma * 1e6 * 1e-3 in
  q ← truediv delta 3;
  let b := gamma ^ 2 * G ^ 2 * delta ^ 2 * (Delta - q) in
  Return (1000 * b).

Definition ST_equation (b D S0 : R) : R :=
  S0 * exp (- b * D).

(** [np.arange(0, stop, step)] with [n] elements. *)
Definition arange_n (step : R) (n : nat) : list R :=
  map (fun k => INR k * step) (seq 0 n).

(** What [viz_gradients] draws in its right-hand panel: the signal curve
    over [D = np.arange(0, 4, 0.01)] and the text ['b=%s' % int(b)].  The
    left-hand panel (the gradient wave form and its arrows) does not use
    [b] and is left out. *)
Record figure : Type := Figure {
  curve : list (R * R);
  annotation : string
}.

Definition viz_gradients (g delta Delta : R) : outcome figure :=
  let S0 := 1 in
  b ← b_value g delta Delta gamma_default;
  let D := arange_n 0.01 400 in
  b_1000 ← truediv b 1000;
  Return {| curve := map (fun d => (d, ST_equation b_1000 d S0)) D;
            annotation := "b=" +:+ pretty (int b) |}.

(** The Stejskal-Tanner b-value in the words of the specification:
    [G] in T/um, [gamma_r] in rad/ms/T, result in s/mm^2. *)
Definition stejskal_tanner_b (g delta Delta gamma : R) : R :=
  let G := g * / 10 ^ 9 in
  let gamma_r := 2 * PI * gamma * 10 ^ 3 in
  1000 * (gamma_r ^ 2 * G ^ 2 * delta ^ 2 * (Delta - delta / 3)).

(** The part of [stejskal_tanner_b] that depends on [gamma] alone. *)
Definition b_scale (gamma : R) : R :=
  1000 * ((2 * PI * gamma * 10 ^ 3) ^ 2 * (/ 10 ^ 9) ^ 2).

End Signals.


(** ** The tracking notebooks *)

Module Tracking.

(** *** Volumes

    A NumPy volume: its shape and the element at every index triple.
    Elementwise operations never look at the shape, so the element
    function is total and the shape says which indices are in bounds. *)

Definition index : Type := (Z * Z * Z)%type.

Record ndarray (A : Type) : Type := Ndarray {
  shape : index;
  voxel : index -> A
}.
Arguments Ndarray {A} shape voxel.
Arguments shape {A} _.
Arguments voxel {A} _ _.

Definition in_bounds (s i : index) : Prop :=
  let '(nx, ny, nz) := s in
  let '(x, y, z) := i in
  (0 <= x < nx)%Z /\ (0 <= y < ny)%Z /\ (0 <= z < nz)%Z.

(** [np.array_equal]: same shape, same element at every index in bounds. *)
Definition array_equal {A} (a b : ndarray A) : Prop :=
  shape a = shape b /\
  forall i, in_bounds (shape a) i -> voxel a i = voxel b i.

(** How an element of each dtype compares with a Python [int] under
    [==]: a [bool] is promoted to 0 or 1 first. *)
Class Dtype (A : Type) : Type := eq_int : A -> Z -> bool.
#[global] Instance int_dtype : Dtype Z := Z.eqb.
#[global] Instance bool_dtype : Dtype bool := fun b k => Z.eqb (Z.b2z b) k.
#[global] Instance float_dtype : Dtype R := fun x k =>
  if Req_dec_T x (IZR k) then true else false.

(** [a == k] *)
Definition eq_scalar {A} `{Dtype A} (a : ndarray A) (k : Z) : ndarray bool :=
  Ndarray (shape a) (fun i => eq_int (voxel a i) k).

(** [a | b], for two masks of one shape. *)
Definition bitor (a b : ndarray bool) : ndarray bool :=
  Ndarray (shape a) (fun i => voxel a i || voxel b i).

(** [a.astype(float)] and [a.astype(bool)] *)
Definition astype_float (a : ndarray bool) : ndarray R :=
  Ndarray (shape a) (fun i => if voxel a i then 1%R else 0%R).

Definition astype_bool (a : ndarray R) : ndarray bool :=
  Ndarray (shape a) (fun i => if Req_dec_T (voxel a i) 0 then false else true).

(** [white_matter = (labels == 1) | (labels == 2)] *)
Definition white_matter {A} `{Dtype A} (labels : ndarray A) : ndarray bool :=
  bitor (eq_scalar labels 1) (eq_scalar labels 2).

(** [V1 = (LV1_data == 1)] *)
Definition V1 {A} `{Dtype A} (LV1_data : ndarray A) : ndarray bool :=
  eq_scalar LV1_data 1.

(** *** [scipy.ndimage.gaussian_filter]

    SciPy is not part of the repository.  The functions of this module
    follow SciPy's own definition of the filter, for the arguments the
    notebooks leave at their defaults: [order=0], [mode='reflect'],
    [truncate=4.0]. *)

Module ndi.

Local Open Scope R_scope.

Definition Rsum (l : list R) : R := fold_right Rplus 0 l.

(** [np.arange(lo, hi)] on integers. *)
Definition arange (lo hi : Z) : list Z := seqZ lo (hi - lo).

(** The normalised kernel on the offsets [-radius .. radius]. *)
Definition gaussian_kernel1d (sigma : R) (radius : Z) : list R :=
  let sigma2 := sigma * sigma in
  let x := arange (- radius) (radius + 1) in
  let phi_x := map (fun x => exp (-0.5 / sigma2 * IZR x ^ 2)) x in
  map (fun p => p / Rsum phi_x) phi_x.

(** Index extension of [mode='reflect']: (d c b a | a b c d | d c b a). *)
Definition reflect (len i : Z) : Z :=
  if (i <? 0)%Z then
    if (len <=? 1)%Z then 0%Z
    else
      let sz2 := (2 * len)%Z in
      let i := if (i <? - sz2)%Z then (sz2 * Z.quot (- i) sz2 + i)%Z else i in
      if (i <? - len)%Z then (i + sz2)%Z else (- i - 1)%Z
  else if (len <=? i)%Z then
    if (len <=? 1)%Z then 0%Z
    else
      let sz2 := (2 * len)%Z in
      let i := (i - sz2 * Z.quot i sz2)%Z in
      if (len <=? i)%Z then (sz2 - i - 1)%Z else i
  else i.

Definition axis_len (s : index) (axis : nat) : Z :=
  let '(nx, ny, nz) := s in
  match axis with O => nx | S O => ny | _ => nz end.

Definition axis_get (i : index) (axis : nat) : Z := axis_len i axis.

Definition axis_set (i : index) (axis : nat) (v : Z) : index :=
  let '(x, y, z) := i in
  match axis with O => (v, y, z) | S O => (x, v, z) | _ => (x, y, v) end.

(** [correlate1d(input, weights, axis, mode='reflect', origin=0)]:
    [out[i] = sum_j weights[j] * input[i + j - len(weights) // 2]] along
    the axis. *)
Definition correlate1d (input : ndarray R) (weights : list R) (axis : nat)
  : ndarray R :=
  let size1 := (Z.of_nat (length weights) / 2)%Z in
  let len := axis_len (shape input) axis in
  Ndarray (shape input) (fun i =>
    Rsum (imap (fun j w =>
            w * voxel input
                  (axis_set i axis
                     (reflect len (axis_get i axis + Z.of_nat j - size1))))
          weights)).

Definition truncate : R := 4.0.

Definition gaussian_filter1d (input : ndarray R) (sigma : R) (axis : nat)
  : ndarray R :=
  let sd := sigma in
  let lw := int (truncate * sd + 0.5) in
  let weights := reverse (gaussian_kernel1d sigma lw) in
  correlate1d input weights axis.

(** One pass per axis, each on the output of the one before; an axis
    whose sigma is not above [1e-15] is skipped. *)
Definition gaussian_filter (input : ndarray R) (sigma : R) : ndarray R :=
  fold_left (fun a axis =>
               if Rlt_dec 1e-15 sigma then gaussian_filter1d a sigma axis
               else a)
            [0%nat; 1%nat; 2%nat] input.

End ndi.

(** [V1_smoothed = ndi.gaussian_filter(V1.astype(float), sigma=0.25).astype(bool)]
    (named [V1_extended] in the deterministic notebook). *)
Definition V1_smoothed (V1 : ndarray bool) : ndarray bool :=
  astype_bool (ndi.gaussian_filter (astype_float V1) 0.25).

(** [b] keeps the shape of [a], is non-negative everywhere, and is at
    least a fixed positive multiple of [a] at every index in bounds. *)
Definition dominates (a b : ndarray R) : Prop :=
  shape b = shape a /\
  (forall p, (0 <= voxel b p)%R) /\
  exists w : R, (0 < w)%R /\
    forall i, in_bounds (shape a) i -> (w * voxel a i <= voxel b i)%R.

(** A 3 x 3 x 3 region with the centre voxel alone set. *)
Definition centre_voxel : ndarray bool :=
  Ndarray (3, 3, 3)%Z
    (fun '(x, y, z) => (x =? 1)%Z && (y =? 1)%Z && (z =? 1)%Z).

(** *** Streamlines

    A streamline is an [N x 3] array of points; [s.shape[0]] is its
    number of nodes. *)

Definition point : Type := (R * R * R)%type.
Definition streamline : Type := list point.

Definition shape0 (s : streamline) : Z := Z.of_nat (length s).

(** [[s for s in streamlines if s.shape[0] > len_th]] *)
Fixpoint length_filter (len_th : Z) (streamlines : list streamline)
  : list streamline :=
  match streamlines with
  | [] => []
  | s :: rest =>
      if (len_th <? shape0 s)%Z
      then s :: length_filter len_th rest
      else length_filter len_th rest
  end.

(** The threshold both notebooks use. *)
Definition len_th : Z := 10.

End Tracking.

(** ** IEEE 754 binary64, the [float] of Python and NumPy *)

Module Binary64.

Definition prec : Z := 53.
Definition emax : Z := 1024.

(** A float is a sign, a mantissa and an exponent, a signed zero, an
    infinity or [nan]; [S754_finite s m e] is [(-1)^s * m * 2^e]. *)
Definition float : Type := spec_float.

Definition fmul : float -> float -> float := SFmul prec emax.
Definition fadd : float -> float -> float := SFadd prec emax.
Definition fsub : float -> float -> float := SFsub prec emax.
Definition fdiv : float -> float -> float := SFdiv prec emax.
Definition fopp : float -> float := SFopp.

(** A number of the format: the mantissa has at most 53 bits and the
    exponent is the least one that fits. *)
Definition valid (x : float) : Prop := valid_binary prec emax x = true.

Definition is_nan (x : float) : bool :=
  match x with S754_nan => true | _ => false end.

Definition is_finite (x : float) : bool :=
  match x with S754_zero _ | S754_finite _ _ _ => true | _ => false end.

(** The order of Python's [<=] and [<] on floats (IEEE 754): false as
    soon as one side is [nan], the two zeros equal. *)
Definition fle (x y : float) : bool := SFleb x y.
Definition flt (x y : float) : bool := SFltb x y.

(** The real number a finite float stands for (0 for the others). *)
Definition bpow (e : Z) : R := powerRZ 2 e.

Definition F2R (x : float) : R :=
  match x with
  | S754_finite s m e => ((if s then -1 else 1) * IZR (Zpos m) * bpow e)%R
  | _ => 0%R
  end.

(** The same order, read on the values: [-inf] below and [+inf] above
    every number, nothing comparable with [nan]. *)
Definition vle (x y : float) : Prop :=
  match x, y with
  | S754_nan, _ | _, S754_nan => False
  | S754_infinity true, _ | _, S754_infinity false => True
  | S754_infinity false, _ | _, S754_infinity true => False
  | _, _ => (F2R x <= F2R y)%R
  end.

Definition nonneg (x : float) : Prop := vle (S754_zero false) x.

(** The rounding step of the format in closed form: the position of a
    remainder [rem] below [2 ^ k], rounding to nearest with ties to even,
    and the float a rounded mantissa [a] at exponent [c] is stored as. *)
Definition loc_of_rem (k rem : Z) : location :=
  if (rem =? 0)%Z then loc_Exact
  else loc_Inexact (2 * rem ?= 2 ^ k)%Z.

Definition nearest_even (m k a : Z) : Prop :=
  (2 * Z.abs (a * 2 ^ k - m) <= 2 ^ k)%Z /\
  ((2 * Z.abs (a * 2 ^ k - m) = 2 ^ k)%Z -> Z.even a = true).

Definition fin_or_inf (s : bool) (m : positive) (e : Z) : float :=
  if (e <=? 971)%Z then S754_finite s m e else S754_infinity s.

Definition encode (s : bool) (a c : Z) : float :=
  match a with
  | Z0 => S754_zero s
  | Zpos p =>
      if (a =? 2 ^ 53)%Z then fin_or_inf s (2 ^ 52)%positive (c + 1)
      else fin_or_inf s p c
  | Zneg _ => S754_nan
  end.

(** The literals of the notebooks, each the double nearest to the
    decimal (the hexadecimal form is the one Python's [float.hex] gives). *)
Definition f_1e_3 : float := S754_finite false 4611686018427388 (-62).
  (* 1e-3 = 0x1.0624dd2f1a9fcp-10 *)
Definition f_1e_6 : float := S754_finite false 4722366482869645 (-72).
  (* 1e-6 = 0x1.0c6f7a0b5ed8dp-20 *)
Definition f_1e6 : float := S754_finite false 8589934592000000 (-33).
  (* 1e6 *)
Definition f_pi : float := S754_finite false 7074237752028440 (-51).
  (* np.pi = 3.141592653589793 = 0x1.921fb54442d18p+1 *)
Definition f_2 : float := S754_finite false 4503599627370496 (-51).
Definition f_3 : float := S754_finite false 6755399441055744 (-51).
Definition f_1000 : float := S754_finite false 8796093022208000 (-43).
Definition f_42_576 : float := S754_finite false 5992039304216445 (-47).
  (* 42.576 = 0x1.549ba5e353f7dp+5 *)

(** [x ** 2] on a float: the square rounded once, as the C library's
    [pow] gives it; Python turns an infinite result of finite operands
    into an [OverflowError]. *)
Definition pow2 (x : float) : outcome float :=
  match x with
  | S754_nan => Return S754_nan
  | S754_infinity _ => Return (S754_infinity false)
  | S754_zero _ => Return (S754_zero false)
  | S754_finite _ _ _ =>
      match fmul x x with
      | S754_infinity _ => Raise OverflowError
      | r => Return r
      end
  end.

(** [x / y] on floats. *)
Definition truediv (x y : float) : outcome float :=
  match y with
  | S754_zero _ => Raise ZeroDivisionError
  | _ => Return (fdiv x y)
  end.

End Binary64.

(** ** The pulsed-gradient notebook, as it runs *)

Module Signals64.
Import Binary64.

Definition gamma_default : float := f_42_576.

Definition b_value (g delta Delta gamma : float) : outcome float :=
  let G := fmul (fmul g f_1e_3) f_1e_6 in
  let gamma := fmul (fmul (fmul (fmul f_2 f_pi) gamma) f_1e6) f_1e_3 in
  gamma2 ← pow2 gamma;
  G2 ← pow2 G;
  delta2 ← pow2 delta;
  q ← truediv delta f_3;
  let b := fmul (fmul (fmul gamma2 G2) delta2) (fsub Delta q) in
  Return (fmul f_1000 b).

(** [x ** 2] stops with an [OverflowError]: [x] is finite and its
    rounded square is not. *)
Definition pow2_overflows (x : float) : bool :=
  match x, fmul x x with
  | S754_finite _ _ _, S754_infinity _ => true
  | _, _ => false
  end.

(** The three quantities the body computes before it multiplies:
    the gradient in T/um, the gyromagnetic ratio in rad/ms/T and the
    time factor [Delta - delta / 3]. *)
Definition G_of (g : float) : float := fmul (fmul g f_1e_3) f_1e_6.
Definition gamma_of (gamma : float) : float :=
  fmul (fmul (fmul (fmul f_2 f_pi) gamma) f_1e6) f_1e_3.
Definition time_factor (delta Delta : float) : float :=
  fsub Delta (fdiv delta f_3).

(** The chain of products of the body, on the converted quantities. *)
Definition st_product (gamma_r G delta t : float) : float :=
  fmul f_1000
    (fmul (fmul (fmul (fmul gamma_r gamma_r) (fmul G G)) (fmul delta delta))
          t).

(** The Stejskal-Tanner formula with every operation rounded:
    [G = (g * 1e-3) * 1e-6], [gamma_r = (((2 * pi) * gamma) * 1e6) * 1e-3]
    and [1000 * (((gamma_r^2 * G^2) * delta^2) * (Delta - delta / 3))]. *)
Definition stejskal_tanner_64 (g delta Delta gamma : float) : float :=
  let G := fmul (fmul g f_1e_3) f_1e_6 in
  let gamma_r := fmul (fmul (fmul (fmul f_2 f_pi) gamma) f_1e6) f_1e_3 in
  fmul f_1000
    (fmul (fmul (fmul (fmul gamma_r gamma_r) (fmul G G)) (fmul delta delta))
          (fsub Delta (fdiv delta f_3))).

(** [S0 * np.exp(-b * D)].  [np.exp] is the exponential of the C
    library, which no standard fixes bit for bit: it is a parameter. *)
Definition ST_equation (exp64 : float -> float) (b D S0 : float) : float :=
  fmul S0 (exp64 (fmul (fopp b) D)).

(** A coarse monotone stand-in for the exponential (0 below zero, 1 at
    zero, [inf] above), to show that what is assumed of [np.exp] below
    can be met. *)
Definition exp_coarse (x : float) : float :=
  match x with
  | S754_nan => S754_nan
  | S754_zero _ => S754_finite false 4503599627370496 (-52)
  | S754_infinity true | S754_finite true _ _ => S754_zero false
  | S754_infinity false | S754_finite false _ _ => S754_infinity false
  end.

(** Some arguments used below, each the double nearest to its decimal. *)
Definition f_40 : float := S754_finite false 5629499534213120 (-47).
Definition f_13 : float := S754_finite false 7318349394477056 (-49).
Definition f_60 : float := S754_finite false 8444249301319680 (-47).
Definition f_1e200 : float := S754_finite false 5883593420661338 612.
  (* 1e200 = 0x1.4e718d7d7625ap+664 *)
Definition f_13_lo : float := S754_finite false 7318349394477102 (-49).
  (* 13.000000000000082 = 0x1.a00000000002ep+3 *)
Definition f_13_hi : float := S754_finite false 7318349394477103 (-49).
  (* 13.000000000000083 = 0x1.a00000000002fp+3 *)
Definition f_1 : float := S754_finite false 4503599627370496 (-52).
Definition f_10 : float := S754_finite false 5629499534213120 (-49).
Definition f_300 : float := S754_finite false 5277655813324800 (-44).
Definition f_1e_160 : float := S754_finite false 6331658277711476 (-584).
  (* 1e-160 = 0x1.67e9c127b6e74p-532 *)
Definition f_2e_160 : float := S754_finite false 6331658277711476 (-583).
  (* 2e-160, the double of 1e-160 *)

End Signals64.

(** ** The two panels of [viz_gradients] and the two sensitivity plots *)

Module Plots.
Import Signals.

Local Open Scope R_scope.

Definition Rltb (x y : R) : bool := if Rlt_dec x y then true else false.

(** The number of samples of [np.arange(0, stop, 1)]. *)
Definition ceil (x : R) : Z := (- Int_part (- x))%Z.

(** [np.arange(0, stop, 1)] *)
Definition np_arange (stop : R) : list R := map IZR (seqZ 0 (ceil stop)).

(** [np.zeros(t.shape)] *)
Definition np_zeros (n : nat) : list R := replicate n 0.

(** [np.logical_and(a, b)] *)
Definition logical_and (a b : list bool) : list bool := zip_with andb a b.

(** [np.where(mask)]: the indices at which the mask holds, in order. *)
Fixpoint where_from (i : nat) (mask : list bool) : list nat :=
  match mask with
  | [] => []
  | m :: rest =>
      if m then i :: where_from (S i) rest else where_from (S i) rest
  end.

Definition np_where (mask : list bool) : list nat := where_from 0 mask.

(** [a[idx] = v]: every listed position is overwritten. *)
Definition set_items (idx : list nat) (v : R) (a : list R) : list R :=
  fold_left (fun a i => <[i := v]> a) idx a.

(** The left-hand panel of [viz_gradients]: the time axis [t] and the
    gradient wave form [grad]. *)
Definition gradient_wave (g delta Delta : R) : list R * list R :=
  let t := np_arange (10 + delta + Delta + 10) in
  let grad := np_zeros (length t) in
  let grad :=
    set_items
      (np_where (logical_and (map (fun x => Rltb 10 x) t)
                             (map (fun x => Rltb x (10 + delta)) t)))
      g grad in
  let grad :=
    set_items
      (np_where (logical_and (map (fun x => Rltb (10 + Delta) x) t)
                             (map (fun x => Rltb x (10 + Delta + delta)) t)))
      g grad in
  (t, grad).

(** A time strictly inside one of the two pulse windows. *)
Definition in_pulse (delta Delta tau : R) : Prop :=
  10 < tau < 10 + delta \/ 10 + Delta < tau < 10 + Delta + delta.

(** The builtin [max] on a sequence. *)
Definition py_max (l : list R) : outcome R :=
  match l with
  | [] => Raise ValueError
  | x :: rest => Return (fold_left Rmax rest x)
  end.

(** Both panels of [viz_gradients], in the order the function computes
    them: [b], the wave form, the x-limits [[-10, max(t) + 10]], then the
    signal curve and the annotation. *)
Record panels : Type := Panels {
  wave : list R * list R;
  xlim : R * R;
  signal : figure
}.

Definition viz_gradients_panels (g delta Delta : R) : outcome panels :=
  let S0 := 1 in
  let '(t, grad) := gradient_wave g delta Delta in
  b ← b_value g delta Delta gamma_default;
  hi ← py_max t;
  let D := arange_n 0.01 400 in
  b_1000 ← truediv b 1000;
  Return {| wave := (t, grad);
            xlim := (-10, hi + 10);
            signal :=
              {| curve := map (fun d => (d, ST_equation b_1000 d S0)) D;
                 annotation := "b=" +:+ pretty (int b) |} |}.

(** [np.diff(a)] *)
Definition np_diff (a : list R) : list R := zip_with Rminus (tail a) a.

(** One pass of the loop [for b in [1000, 2000, 4000]] of the two last
    plots: [ST = ST_equation(b/1000., D, S0=S0)] over
    [D = np.arange(0, 4, 0.04)], and [-np.diff(ST)]. *)
Definition sensitivity_D : list R := arange_n 0.04 100.

Definition signal_curve (b : R) : outcome (list R) :=
  let S0 := 1 in
  b_1000 ← truediv b 1000;
  Return (map (fun d => ST_equation b_1000 d S0) sensitivity_D).

Definition sensitivity_curve (b : R) : outcome (list R) :=
  ST ← signal_curve b;
  Return (map Ropp (np_diff ST)).

End Plots.

(** ** The seed region, seen as a set of voxels *)

Module Seeds.
Import Tracking.

(** Two index triples at most one step apart along every axis. *)
Definition adjacent (i j : index) : Prop :=
  let '(x, y, z) := i in
  let '(x', y', z') := j in
  (Z.abs (x' - x) <= 1)%Z /\ (Z.abs (y' - y) <= 1)%Z /\
  (Z.abs (z' - z) <= 1)%Z.

End Seeds.

(** ** The signal notebook: the measurement direction shown by [plot_bvecs] *)

Module Bvecs.

Local Open Scope R_scope.

(** The gradient table [bvecs], a [3 x N] array, as its list of columns. *)
Definition vec3 : Type := (R * R * R)%type.

(** [np.dot(v, w)] on two 3-vectors. *)
Definition dot (v w : vec3) : R :=
  let '(a, b, c) := v in
  let '(x, y, z) := w in
  a * x + b * y + c * z.

(** [np.argmin]: the first position of the least element; an empty
    array is refused. *)
Fixpoint argmin_from (best_i : nat) (best : R) (i : nat) (l : list R) : nat :=
  match l with
  | [] => best_i
  | x :: rest =>
      if Rlt_dec x best then argmin_from i x (S i) rest
      else argmin_from best_i best (S i) rest
  end.

Definition argmin (l : list R) : outcome nat :=
  match l with
  | [] => Raise ValueError
  | x :: rest => Return (argmin_from 0 x 1 rest)
  end.

(** The first lines of [plot_bvecs]:
    [angles = np.arccos(np.dot(this_vec, bvecs[:, 10:]))],
    [closest = np.argmin(angles)], [n = closest + 10]. *)
Definition closest_bvec (this_vec : vec3) (bvecs : list vec3) : outcome nat :=
  let angles := map (fun w => acos (dot this_vec w)) (drop 10 bvecs) in
  closest ← argmin angles;
  Return (closest + 10)%nat.

(** An integer used as an index into an axis of length [n]: counted
    from the end when negative; [None] is NumPy's [IndexError]. *)
Definition np_index (n i : Z) : option Z :=
  if ((0 <=? i) && (i <? n))%Z then Some i
  else if ((- n <=? i) && (i <? 0))%Z then Some (i + n)%Z
  else None.

(** The three slices [plot_bvecs] shows, [data[:, :, z, n]],
    [data[:, y, :, n]] and [data[x, :, :, n]], as the planes they select
    in a volume of the given 4-D shape. *)
Definition plot_bvecs_slices (shape : Z * Z * Z * Z) (x y z n : Z)
  : option (Z * Z * Z) :=
  let '(sx, sy, sz, sn) := shape in
  n1 ← np_index sn n;
  z' ← np_index sz z;
  y' ← np_index sy y;
  x' ← np_index sx x;
  Some (x', y', z').

End Bvecs.

(** ** The sparse-fascicle notebook: the three root-mean-square errors *)

Module Residuals.

Local Open Scope R_scope.

Definition Rsum (l : list R) : R := fold_right Rplus 0 l.

(** [np.mean] *)
Definition np_mean (a : list R) : R := Rsum a / INR (length a).

(** [np.sqrt(np.mean((a - b)**2))] for two arrays of one length. *)
Definition rmse (a b : list R) : R :=
  sqrt (np_mean (map (fun d => d ^ 2) (zip_with Rminus a b))).

End Residuals.

(** ** Facts about the pulsed-gradient notebook *)

Module SignalsFacts.
Import Signals.
Local Open Scope R_scope.

Lemma truediv_nonzero (x y : R) : y <> 0 -> truediv x y = Return (x / y).
Proof.
  intros Hy. unfold truediv.
  destruct (Req_dec_T y 0) as [E | _]; [contradiction | reflexivity].
Qed.

Lemma b_value_eval (g delta Delta gamma : R) :
  b_value g delta Delta gamma = Return (stejskal_tanner_b g delta Delta gamma).
Proof.
  unfold b_value. rewrite truediv_nonzero by lra. unfold mbind, outcome_bind.
  unfold stejskal_tanner_b. f_equal. field.
Qed.


Lemma PI_enclosure : 3.1414 < PI < 3.1427.
Proof.
  destruct (PI_2_3_7_ineq 1) as [Hlo Hhi].
  cbn [Nat.mul Nat.add sum_f_R0] in Hlo, Hhi.
  unfold tg_alt, PI_2_3_7_tg, Ratan_seq in Hlo, Hhi.
  cbn [Nat.mul Nat.add pow] in Hlo, Hhi.
  rewrite ?S_INR in Hlo, Hhi. cbn [INR] in Hlo, Hhi.
  split; lra.
Qed.

Lemma PI_sqr_enclosure : 9.8683 < PI ^ 2 < 9.8767.
Proof. pose proof PI_enclosure. nra. Qed.

Lemma stejskal_tanner_b_factor (g delta Delta gamma : R) :
  stejskal_tanner_b g delta Delta gamma =
  b_scale gamma * (g ^ 2 * (delta ^ 2 * (Delta - delta / 3))).
Proof. unfold stejskal_tanner_b, b_scale. field. Qed.

(** Replace every call of [b_value] in the goal by its returned value. *)
Ltac eval_b_value :=
  rewrite !b_value_eval; cbn [returns_lt];
  rewrite ?stejskal_tanner_b_factor.

Lemma b_scale_nonneg (gamma : R) : 0 <= b_scale gamma.
Proof.
  unfold b_scale.
  apply Rmult_le_pos; [lra |].
  apply Rmult_le_pos; apply pow2_ge_0.
Qed.

Lemma b_value_example_value :
  stejskal_tanner_b 40 13 60 42.576 = 133229888922 / 1220703125 * PI ^ 2.
Proof.
  replace 42.576 with (42576 / 1000) by lra.
  unfold stejskal_tanner_b. field.
Qed.

Lemma int_between (x : R) (z : Z) : IZR z <= x < IZR z + 1 -> 0 <= IZR z -> int x = z.
Proof.
  intros [Hlo Hhi] Hz. unfold int.
  destruct (Rle_dec 0 x) as [_ | Hneg]; [| lra].
  symmetry. apply Int_part_spec. lra.
Qed.

(** C2, the example as the code has it: [b_value(40, 13, 60, 42.576)]
    returns the [b] that [viz_gradients(40, 13, 60)] computes and prints,
    truncated by [int], in its annotation ['b=%s' % int(b)]; that value
    lies strictly between 1077 and 1078 s/mm^2 and the annotation reads
    [b=1077]. *)
Theorem b_value_example_annotation :
  exists b : R,
    b_value 40 13 60 42.576 = Return b /\
    1077 < b < 1078 /\
    exists fig : figure,
      viz_gradients 40 13 60 = Return fig /\
      annotation fig = "b=" +:+ pretty (int b) /\
      annotation fig = "b=1077".
Proof.
  exists (stejskal_tanner_b 40 13 60 42.576).
  assert (Hb : 1077 < stejskal_tanner_b 40 13 60 42.576 < 1078).
  { rewrite b_value_example_value. pose proof PI_sqr_enclosure. lra. }
  split; [apply b_value_eval |]. split; [exact Hb |].
  unfold viz_gradients, gamma_default. rewrite b_value_eval.
  unfold mbind, outcome_bind. rewrite truediv_nonzero by lra.
  eexists. split; [reflexivity |]. cbn [annotation].
  split; [reflexivity |].
  rewrite (int_between _ 1077); [reflexivity | lra | lra].
Qed.

(** C2 as stated fails: the value [b_value(40, 13, 60, 42.576)] returns
    is not between 1800 and 2000. *)
Lemma b_value_example_not_1800_2000 :
  exists b : R,
    b_value 40 13 60 42.576 = Return b /\ ~ (1800 <= b <= 2000).
Proof.
  exists (stejskal_tanner_b 40 13 60 42.576).
  split; [apply b_value_eval |].
  rewrite b_value_example_value. pose proof PI_sqr_enclosure. lra.
Qed.





End SignalsFacts.

(** ** Facts about the tracking notebooks *)

Module TrackingFacts.
Import Tracking.

(** *** The white-matter mask *)

Lemma white_matter_voxel {A} `{Dtype A} (labels : ndarray A) (i : index) :
  voxel (white_matter labels) i =
  eq_int (voxel labels i) 1 || eq_int (voxel labels i) 2.
Proof. reflexivity. Qed.

Lemma eq_int_mask (b : bool) : eq_int b 1 || eq_int b 2 = b.
Proof. now destruct b. Qed.

(** C7: the mask is [True] at an index exactly when the label there is 1
    or 2, and deriving the mask again from the mask gives the same mask. *)
Theorem white_matter_membership_idempotent (labels : ndarray Z) :
  (forall i : index,
     voxel (white_matter labels) i = true <->
     voxel labels i = 1%Z \/ voxel labels i = 2%Z) /\
  shape (white_matter labels) = shape labels /\
  array_equal (white_matter (white_matter labels)) (white_matter labels).
Proof.
  split; [| split; [reflexivity | split; [reflexivity |]]].
  - intros i. rewrite white_matter_voxel. unfold eq_int, int_dtype.
    rewrite orb_true_iff, !Z.eqb_eq. reflexivity.
  - intros i _. rewrite (white_matter_voxel (white_matter labels)).
    apply eq_int_mask.
Qed.

(** The same reading of the mask for a label volume loaded as floats
    ([get_fdata] in the deterministic notebook). *)
Lemma white_matter_membership_float (labels : ndarray R) (i : index) :
  voxel (white_matter labels) i = true <->
  voxel labels i = 1%R \/ voxel labels i = 2%R.
Proof.
  rewrite white_matter_voxel. unfold eq_int, float_dtype.
  rewrite orb_true_iff.
  destruct (Req_dec_T (voxel labels i) 1), (Req_dec_T (voxel labels i) 2);
    intuition congruence.
Qed.

Example white_matter_example :
  let labels := Ndarray (4, 1, 1)%Z (fun '(x, _, _) => x) in
  map (fun x => voxel (white_matter labels) (x, 0, 0)%Z) [0; 1; 2; 3]%Z
  = [false; true; true; false].
Proof. reflexivity. Qed.

(** *** The length filter *)

Example length_filter_example :
  let p : point := (0, 0, 0)%R in
  length_filter 2 [[p; p; p]; [p]; [p; p]; [p; p; p; p]; [p; p; p]]
  = [[p; p; p]; [p; p; p; p]; [p; p; p]].
Proof. reflexivity. Qed.

Lemma length_filter_elem_of (t : Z) (l : list streamline) (s : streamline) :
  s ∈ length_filter t l <-> s ∈ l /\ (t < shape0 s)%Z.
Proof.
  induction l as [| x l IH]; cbn [length_filter].
  - rewrite elem_of_nil. tauto.
  - destruct (Z.ltb_spec t (shape0 x)) as [Hx | Hx].
    + rewrite !elem_of_cons, IH. split.
      * intros [-> | [? ?]]; auto.
      * intros [[-> | ?] ?]; auto.
    + rewrite elem_of_cons, IH. split.
      * intros [? ?]; auto.
      * intros [[-> | ?] ?]; [lia | auto].
Qed.

Lemma length_filter_sublist (t : Z) (l : list streamline) :
  sublist (length_filter t l) l.
Proof.
  induction l as [| x l IH]; cbn [length_filter]; [constructor |].
  destruct (t <? shape0 x)%Z; now constructor.
Qed.

Lemma length_filter_greatest (t : Z) (l r : list streamline) :
  sublist r l -> Forall (fun s => (t < shape0 s)%Z) r ->
  sublist r (length_filter t l).
Proof.
  intros Hsub. induction Hsub as [| x r l _ IH | x r l _ IH];
    intros Hall; cbn [length_filter].
  - constructor.
  - apply Forall_cons in Hall as [Hx Hall].
    apply Z.ltb_lt in Hx. rewrite Hx. constructor. auto.
  - destruct (t <? shape0 x)%Z; [constructor |]; auto.
Qed.

Lemma length_filter_all (t : Z) (l : list streamline) :
  Forall (fun s => (t < shape0 s)%Z) l -> length_filter t l = l.
Proof.
  induction 1 as [| x l Hx _ IH]; cbn [length_filter]; [reflexivity |].
  apply Z.ltb_lt in Hx. rewrite Hx. now f_equal.
Qed.

Lemma length_filter_Forall (t : Z) (l : list streamline) :
  Forall (fun s => (t < shape0 s)%Z) (length_filter t l).
Proof.
  apply Forall_forall. intros s Hs. now apply length_filter_elem_of in Hs.
Qed.

(** C8: the filter keeps exactly the streamlines with more than [t]
    nodes: the result is a subsequence of the input (same streamlines,
    same relative order), every kept streamline has more than [t] nodes,
    every subsequence of such streamlines is inside the result (none is
    dropped), and filtering the result again changes nothing. *)
Theorem length_filter_exact_idempotent (t : Z) (l : list streamline) :
  (forall s, s ∈ length_filter t l <-> s ∈ l /\ (t < shape0 s)%Z) /\
  sublist (length_filter t l) l /\
  (forall r, sublist r l -> Forall (fun s => (t < shape0 s)%Z) r ->
             sublist r (length_filter t l)) /\
  length_filter t (length_filter t l) = length_filter t l.
Proof.
  split; [apply length_filter_elem_of |].
  split; [apply length_filter_sublist |].
  split; [apply length_filter_greatest |].
  apply length_filter_all, length_filter_Forall.
Qed.


(** *** The smoothed seed region *)

Section Smoothing.
Import ndi.
Local Open Scope R_scope.

Lemma Rsum_nonneg (l : list R) : Forall (Rle 0) l -> 0 <= Rsum l.
Proof.
  induction 1 as [| x l Hx _ IH]; cbn [Rsum fold_right]; [lra |].
  fold (Rsum l). lra.
Qed.

Lemma Rsum_pos (l : list R) : Forall (Rlt 0) l -> l <> [] -> 0 < Rsum l.
Proof.
  intros Hall Hne. destruct Hall as [| x l Hx Hall]; [congruence |].
  cbn [Rsum fold_right]. fold (Rsum l).
  assert (0 <= Rsum l).
  { apply Rsum_nonneg. eapply Forall_impl; [exact Hall |].
    intros y Hy. cbv beta in Hy. lra. }
  lra.
Qed.

Lemma Rsum_ge_lookup (l : list R) (n : nat) (x : R) :
  Forall (Rle 0) l -> l !! n = Some x -> x <= Rsum l.
Proof.
  intros Hall. revert n. induction Hall as [| y l Hy Hall IH]; intros n Hn.
  - discriminate.
  - cbn [Rsum fold_right]. fold (Rsum l).
    pose proof (Rsum_nonneg l Hall). destruct n as [| n]; cbn in Hn.
    + injection Hn as ->. lra.
    + specialize (IH n Hn). lra.
Qed.

Lemma reflect_in_range (len x : Z) : (0 <= x < len)%Z -> reflect len x = x.
Proof.
  intros Hx. unfold reflect.
  destruct (Z.ltb_spec x 0); [lia |].
  destruct (Z.leb_spec len x); [lia | reflexivity].
Qed.

Lemma axis_set_get (i : index) (axis : nat) : axis_set i axis (axis_get i axis) = i.
Proof. destruct i as [[x y] z]. now destruct axis as [| [| axis]]. Qed.

Lemma axis_get_in_bounds (s i : index) (axis : nat) :
  in_bounds s i -> (0 <= axis_get i axis < axis_len s axis)%Z.
Proof.
  destruct s as [[nx ny] nz], i as [[x y] z]. cbn.
  intros (Hx & Hy & Hz). now destruct axis as [| [| axis]].
Qed.

(** One 1-D pass on a non-negative input with non-negative weights:
    the output is non-negative and at least each single tap. *)
Lemma correlate1d_nonneg (input : ndarray R) (weights : list R) (axis : nat) :
  (forall p, 0 <= voxel input p) -> Forall (Rle 0) weights ->
  forall i,
    Forall (Rle 0)
      (imap (fun j w =>
               w * voxel input
                     (axis_set i axis
                        (reflect (axis_len (shape input) axis)
                           (axis_get i axis + Z.of_nat j
                            - Z.of_nat (length weights) / 2))))
            weights).
Proof.
  intros Hin Hw i. apply Forall_lookup. intros j x Hj.
  apply list_lookup_imap_Some in Hj as (w & Hj & ->).
  apply Rmult_le_pos; [| apply Hin].
  exact (Forall_lookup_1 _ _ _ _ Hw Hj).
Qed.

Lemma correlate1d_tap (input : ndarray R) (weights : list R) (axis : nat)
    (i : index) (j : nat) (w : R) :
  (forall p, 0 <= voxel input p) -> Forall (Rle 0) weights ->
  weights !! j = Some w ->
  w * voxel input
        (axis_set i axis
           (reflect (axis_len (shape input) axis)
              (axis_get i axis + Z.of_nat j - Z.of_nat (length weights) / 2)))
  <= voxel (correlate1d input weights axis) i.
Proof.
  intros Hin Hw Hj. cbn [correlate1d voxel].
  apply (Rsum_ge_lookup _ j); [now apply correlate1d_nonneg |].
  now rewrite list_lookup_imap, Hj.
Qed.

Lemma Forall_lt_le (l : list R) : Forall (Rlt 0) l -> Forall (Rle 0) l.
Proof.
  intros H. eapply Forall_impl; [exact H |]. intros x Hx. now apply Rlt_le.
Qed.

(** The centre tap reads the input at the same index. *)
Lemma correlate1d_dominates (input : ndarray R) (weights : list R) (axis : nat) :
  (forall p, 0 <= voxel input p) ->
  Forall (Rlt 0) weights -> weights <> [] ->
  dominates input (correlate1d input weights axis).
Proof.
  intros Hin Hw Hne.
  set (c := Z.to_nat (Z.of_nat (length weights) / 2)).
  assert (Hlen : (0 < length weights)%nat)
    by (destruct weights; [congruence | cbn; lia]).
  assert (Hc : (c < length weights)%nat).
  { subst c. apply Nat2Z.inj_lt. rewrite Z2Nat.id by (apply Z.div_pos; lia).
    apply Z.div_lt; lia. }
  destruct (lookup_lt_is_Some_2 weights c Hc) as [w0 Hw0].
  pose proof (Forall_lt_le _ Hw) as Hw'.
  split; [reflexivity |]. split.
  - intros p. cbn [correlate1d voxel].
    now apply Rsum_nonneg, correlate1d_nonneg.
  - exists w0. split; [exact (Forall_lookup_1 _ _ _ _ Hw Hw0) |].
    intros i Hi.
    pose proof (correlate1d_tap input weights axis i c w0 Hin Hw' Hw0) as Htap.
    replace (axis_get i axis + Z.of_nat c - Z.of_nat (length weights) / 2)%Z
      with (axis_get i axis) in Htap
      by (subst c; rewrite Z2Nat.id by (apply Z.div_pos; lia); lia).
    rewrite reflect_in_range in Htap by now apply axis_get_in_bounds.
    now rewrite axis_set_get in Htap.
Qed.

Lemma dominates_refl (a : ndarray R) :
  (forall p, 0 <= voxel a p) -> dominates a a.
Proof.
  intros Ha. split; [reflexivity |]. split; [exact Ha |].
  exists 1. split; [lra |]. intros i _. lra.
Qed.

Lemma dominates_trans (a b c : ndarray R) :
  (forall p, 0 <= voxel a p) ->
  dominates a b -> dominates b c -> dominates a c.
Proof.
  intros Ha (Hs1 & Hb & w1 & Hw1 & H1) (Hs2 & Hc & w2 & Hw2 & H2).
  split; [congruence |]. split; [exact Hc |].
  exists (w2 * w1). split; [now apply Rmult_lt_0_compat |].
  intros i Hi. specialize (H1 i Hi).
  rewrite Hs1 in H2. specialize (H2 i Hi).
  apply Rle_trans with (w2 * voxel b i); [| exact H2].
  rewrite Rmult_assoc. apply Rmult_le_compat_l; lra.
Qed.

Lemma int_nonneg (x : R) : 0 <= x -> (0 <= int x)%Z.
Proof.
  intros Hx. unfold int. destruct (Rle_dec 0 x) as [_ | Hn]; [| contradiction].
  destruct (base_Int_part x) as [_ Hup].
  apply Z.lt_succ_r, lt_IZR. rewrite succ_IZR. lra.
Qed.

Lemma gaussian_kernel1d_pos (sigma : R) (radius : Z) :
  (0 <= radius)%Z ->
  Forall (Rlt 0) (gaussian_kernel1d sigma radius) /\
  gaussian_kernel1d sigma radius <> [].
Proof.
  intros Hr. unfold gaussian_kernel1d.
  set (phi_x := map _ (arange (- radius) (radius + 1))).
  assert (Hphi : Forall (Rlt 0) phi_x).
  { subst phi_x. apply List.Forall_map, Forall_forall.
    intros x _. apply exp_pos. }
  assert (Hne : phi_x <> []).
  { intros E. apply (f_equal length) in E. subst phi_x.
    rewrite length_map in E. unfold arange in E.
    rewrite length_seqZ in E. cbn in E. lia. }
  split.
  - apply List.Forall_map. eapply Forall_impl; [exact Hphi |].
    intros p Hp. cbv beta in Hp |- *.
    apply Rdiv_lt_0_compat; [exact Hp | now apply Rsum_pos].
  - intros E. apply Hne. now destruct phi_x.
Qed.

Lemma gaussian_filter1d_dominates (input : ndarray R) (sigma : R) (axis : nat) :
  (forall p, 0 <= voxel input p) -> 0 <= sigma ->
  dominates input (gaussian_filter1d input sigma axis).
Proof.
  intros Hin Hs. unfold gaussian_filter1d.
  destruct (gaussian_kernel1d_pos sigma (int (truncate * sigma + 0.5)))
    as [Hpos Hne].
  { apply int_nonneg. unfold truncate. lra. }
  apply correlate1d_dominates; [exact Hin | |].
  - now apply Forall_reverse.
  - intros E. apply Hne. apply (f_equal length) in E.
    rewrite length_reverse in E. now destruct (gaussian_kernel1d _ _).
Qed.

Lemma gaussian_filter_dominates (input : ndarray R) (sigma : R) :
  (forall p, 0 <= voxel input p) ->
  dominates input (gaussian_filter input sigma).
Proof.
  intros Hin. unfold gaussian_filter. cbn [fold_left].
  destruct (Rlt_dec 1e-15 sigma) as [Hs | _]; [| now apply dominates_refl].
  assert (Hs0 : 0 <= sigma) by lra.
  pose proof (gaussian_filter1d_dominates input sigma 0 Hin Hs0) as H0.
  pose proof (gaussian_filter1d_dominates _ sigma 1 (proj1 (proj2 H0)) Hs0) as H1.
  pose proof (gaussian_filter1d_dominates _ sigma 2 (proj1 (proj2 H1)) Hs0) as H2.
  eapply dominates_trans; [exact Hin | | exact H2].
  eapply dominates_trans; [exact Hin | exact H0 | exact H1].
Qed.

Lemma astype_float_nonneg (a : ndarray bool) (p : index) :
  0 <= voxel (astype_float a) p.
Proof. cbn. destruct (voxel a p); lra. Qed.

(** C9: the smoothed region contains the region it was made from: every
    voxel in bounds that is [True] before smoothing is [True] after it,
    and the shape is kept. *)
Theorem V1_smoothed_contains_V1 (roi : ndarray bool) (i : index) :
  in_bounds (shape roi) i ->
  voxel roi i = true ->
  voxel (V1_smoothed roi) i = true /\ shape (V1_smoothed roi) = shape roi.
Proof.
  intros Hi Hv.
  destruct (gaussian_filter_dominates (astype_float roi) 0.25
              (astype_float_nonneg roi)) as (Hshape & _ & w & Hw & Hdom).
  specialize (Hdom i Hi). split; [| exact Hshape].
  unfold V1_smoothed. cbn [astype_bool voxel].
  destruct (Req_dec_T _ 0) as [E | _]; [| reflexivity].
  rewrite E in Hdom. cbn [astype_float voxel] in Hdom.
  rewrite Hv in Hdom. lra.
Qed.

Lemma V1_smoothed_contains_V1_witness :
  voxel (V1_smoothed centre_voxel) (1, 1, 1)%Z = true /\
  shape (V1_smoothed centre_voxel) = shape centre_voxel.
Proof.
  apply (V1_smoothed_contains_V1 centre_voxel (1, 1, 1)%Z).
  - cbn. lia.
  - reflexivity.
Defined.

(** The region does grow: with [sigma = 0.25] the kernel has three taps,
    and a voxel next to the region along the first axis is switched on. *)
Lemma radius_quarter : int (truncate * 0.25 + 0.5) = 1%Z.
Proof. apply SignalsFacts.int_between; unfold truncate; lra. Qed.

Lemma kernel_quarter_length : length (gaussian_kernel1d 0.25 1) = 3%nat.
Proof. unfold gaussian_kernel1d. now rewrite !length_map. Qed.

Example V1_smoothed_grows :
  voxel centre_voxel (0, 1, 1)%Z = false /\
  voxel (V1_smoothed centre_voxel) (0, 1, 1)%Z = true.
Proof.
  split; [reflexivity |].
  set (a0 := astype_float centre_voxel).
  set (a1 := gaussian_filter1d a0 0.25 0).
  assert (H0 : forall p, 0 <= voxel a0 p) by apply astype_float_nonneg.
  assert (Hs : 0 <= 0.25) by lra.
  pose proof (gaussian_filter1d_dominates a0 0.25 0 H0 Hs) as D0.
  fold a1 in D0. destruct D0 as (S1 & H1 & _).
  pose proof (gaussian_filter1d_dominates a1 0.25 1 H1 Hs) as D1.
  pose proof (gaussian_filter1d_dominates _ 0.25 2 (proj1 (proj2 D1)) Hs) as D2.
  destruct (dominates_trans _ _ _ H1 D1 D2) as (_ & _ & w & Hw & Hdom).
  specialize (Hdom (0, 1, 1)%Z).
  rewrite S1 in Hdom. specialize (Hdom ltac:(cbn; lia)).
  assert (Ha1 : 0 < voxel a1 (0, 1, 1)%Z).
  { destruct (gaussian_kernel1d_pos 0.25 1 ltac:(lia)) as [Hpos _].
    apply Forall_reverse in Hpos.
    destruct (lookup_lt_is_Some_2 (reverse (gaussian_kernel1d 0.25 1)) 2)
      as [w2 Hw2].
    { rewrite length_reverse, kernel_quarter_length. lia. }
    pose proof (Forall_lookup_1 _ _ _ _ Hpos Hw2) as Hw2pos.
    pose proof (correlate1d_tap a0 _ 0 (0, 1, 1)%Z 2 w2 H0
                  (Forall_lt_le _ Hpos) Hw2) as Htap.
    set (out := voxel (correlate1d a0 _ 0) _) in Htap.
    rewrite length_reverse, kernel_quarter_length in Htap.
    change (w2 * 1 <= out) in Htap. subst out a1.
    unfold gaussian_filter1d. rewrite radius_quarter. lra. }
  unfold V1_smoothed, gaussian_filter. cbn [fold_left].
  destruct (Rlt_dec 1e-15 0.25) as [_ | Hn]; [| lra].
  fold a0. fold a1. cbn [astype_bool voxel].
  destruct (Req_dec_T _ 0) as [E | _]; [| reflexivity].
  rewrite E in Hdom. nra.
Qed.

End Smoothing.

End TrackingFacts.

(** ** More about the tracking notebooks *)

Module TrackingMore.
Import Tracking Seeds TrackingFacts.

(** *** The length filter *)

(** Filtering twice, with two thresholds, is filtering once with the
    larger one. *)
Theorem length_filter_compose (t1 t2 : Z) (l : list streamline) :
  length_filter t1 (length_filter t2 l) = length_filter (Z.max t1 t2) l.
Proof.
  induction l as [| s l IH]; cbn [length_filter]; [reflexivity |].
  destruct (Z.ltb_spec t2 (shape0 s)) as [H2 | H2]; cbn [length_filter].
  - destruct (Z.ltb_spec t1 (shape0 s)) as [H1 | H1];
      destruct (Z.ltb_spec (Z.max t1 t2) (shape0 s)) as [Hm | Hm];
      try lia; now rewrite IH.
  - destruct (Z.ltb_spec (Z.max t1 t2) (shape0 s)) as [Hm | Hm];
      [lia | exact IH].
Qed.

(** The filter works streamline by streamline: on two batches one after
    the other it gives the two filtered batches one after the other. *)
Theorem length_filter_app (t : Z) (l1 l2 : list streamline) :
  length_filter t (l1 ++ l2) = length_filter t l1 ++ length_filter t l2.
Proof.
  induction l1 as [| s l1 IH]; cbn [length_filter app]; [reflexivity |].
  destruct (t <? shape0 s)%Z; cbn [app]; now rewrite IH.
Qed.

(** *** The white-matter mask of a volume read as floats *)

(** In the deterministic notebook the labels come from [get_fdata], as
    floats.  The mask is then still [True] exactly where the label is
    1.0 or 2.0, and deriving it again from the mask changes nothing. *)
Theorem white_matter_float_labels (labels : ndarray R) :
  (forall i : index,
     voxel (white_matter labels) i = true <->
     voxel labels i = 1%R \/ voxel labels i = 2%R) /\
  shape (white_matter labels) = shape labels /\
  array_equal (white_matter (white_matter labels)) (white_matter labels).
Proof.
  split; [intros i; apply white_matter_membership_float |].
  split; [reflexivity |]. split; [reflexivity |].
  intros i _. rewrite (white_matter_voxel (white_matter labels)).
  apply eq_int_mask.
Qed.

(** *** The seed region is the region grown by one voxel *)

Section Dilation.
Import ndi.
Local Open Scope R_scope.

Lemma Rsum_pos_iff (l : list R) :
  Forall (Rle 0) l ->
  0 < Rsum l <-> exists n x, l !! n = Some x /\ 0 < x.
Proof.
  intros Hall. split.
  - induction Hall as [| y l Hy Hall IH]; cbn [Rsum fold_right].
    + lra.
    + fold (Rsum l). intros Hsum.
      destruct (Rlt_dec 0 y) as [Hpos | Hnpos].
      * exists 0%nat, y. now split.
      * destruct IH as (n & x & Hn & Hx); [lra |].
        exists (S n), x. now split.
  - intros (n & x & Hn & Hx).
    pose proof (Rsum_ge_lookup l n x Hall Hn). lra.
Qed.

Lemma correlate1d_pos_iff (input : ndarray R) (weights : list R) (axis : nat)
    (i : index) :
  (forall p, 0 <= voxel input p) -> Forall (Rlt 0) weights ->
  0 < voxel (correlate1d input weights axis) i <->
  exists j : nat,
    (j < length weights)%nat /\
    0 < voxel input
          (axis_set i axis
             (reflect (axis_len (shape input) axis)
                (axis_get i axis + Z.of_nat j
                 - Z.of_nat (length weights) / 2))).
Proof.
  intros Hin Hw. cbn [correlate1d voxel].
  rewrite Rsum_pos_iff
    by (apply correlate1d_nonneg; [exact Hin | now apply Forall_lt_le]).
  split.
  - intros (j & x & Hj & Hx).
    apply list_lookup_imap_Some in Hj as (w & Hj & ->).
    exists j. split; [now apply lookup_lt_Some in Hj |].
    pose proof (Forall_lookup_1 _ _ _ _ Hw Hj) as Hwpos.
    specialize (Hin (axis_set i axis
      (reflect (axis_len (shape input) axis)
         (axis_get i axis + Z.of_nat j - Z.of_nat (length weights) / 2)))).
    destruct Hin as [Hlt | Heq]; [exact Hlt |].
    rewrite <- Heq, Rmult_0_r in Hx. lra.
  - intros (j & Hj & Hpos).
    destruct (lookup_lt_is_Some_2 weights j Hj) as [w Hwj].
    eexists j, _. split.
    + rewrite list_lookup_imap, Hwj. reflexivity.
    + apply Rmult_lt_0_compat; [| exact Hpos].
      exact (Forall_lookup_1 _ _ _ _ Hw Hwj).
Qed.

(** With [sigma = 0.25] one pass looks one voxel back and one forth. *)
Lemma gaussian_filter1d_quarter_pos_iff (input : ndarray R) (axis : nat)
    (i : index) :
  (forall p, 0 <= voxel input p) ->
  0 < voxel (gaussian_filter1d input 0.25 axis) i <->
  exists o : Z,
    (-1 <= o <= 1)%Z /\
    0 < voxel input
          (axis_set i axis
             (reflect (axis_len (shape input) axis) (axis_get i axis + o))).
Proof.
  intros Hin. unfold gaussian_filter1d. rewrite radius_quarter.
  destruct (gaussian_kernel1d_pos 0.25 1 ltac:(lia)) as [Hpos _].
  apply Forall_reverse in Hpos.
  rewrite correlate1d_pos_iff by assumption.
  rewrite length_reverse, kernel_quarter_length.
  change (Z.of_nat 3 / 2)%Z with 1%Z.
  split.
  - intros (j & Hj & Hv). exists (Z.of_nat j - 1)%Z. split; [lia |].
    now replace (axis_get i axis + (Z.of_nat j - 1))%Z
      with (axis_get i axis + Z.of_nat j - 1)%Z by lia.
  - intros (o & Ho & Hv). exists (Z.to_nat (o + 1)). split; [lia |].
    now replace (axis_get i axis + Z.of_nat (Z.to_nat (o + 1)) - 1)%Z
      with (axis_get i axis + o)%Z by lia.
Qed.

Lemma gaussian_filter1d_shape (input : ndarray R) (sigma : R) (axis : nat) :
  shape (gaussian_filter1d input sigma axis) = shape input.
Proof. reflexivity. Qed.

Lemma gaussian_filter1d_nonneg (input : ndarray R) (axis : nat) :
  (forall p, 0 <= voxel input p) ->
  forall p, 0 <= voxel (gaussian_filter1d input 0.25 axis) p.
Proof.
  intros Hin.
  apply (gaussian_filter1d_dominates input 0.25 axis Hin). lra.
Qed.

(** At the border the reflected neighbour is the voxel itself. *)
Lemma reflect_step (n x o : Z) :
  (0 <= x < n)%Z -> (-1 <= o <= 1)%Z ->
  (0 <= reflect n (x + o) < n)%Z /\ (Z.abs (reflect n (x + o) - x) <= 1)%Z.
Proof.
  intros Hx Ho. unfold reflect.
  destruct (Z.ltb_spec (x + o) 0) as [Hneg | Hnneg].
  - destruct (Z.leb_spec n 1); [lia |].
    destruct (Z.ltb_spec (x + o) (- (2 * n))); [lia |].
    destruct (Z.ltb_spec (x + o) (- n)); lia.
  - destruct (Z.leb_spec n (x + o)) as [Hhi | Hin]; [| lia].
    destruct (Z.leb_spec n 1); [lia |].
    assert (E : (x + o = n)%Z) by lia. rewrite E.
    rewrite (Z.quot_small n (2 * n)) by lia.
    destruct (Z.leb_spec n (n - 2 * n * 0)); lia.
Qed.

Lemma astype_float_pos (a : ndarray bool) (p : index) :
  0 < voxel (astype_float a) p <-> voxel a p = true.
Proof.
  cbn [astype_float voxel]. destruct (voxel a p); split; intros H;
    try reflexivity; try lra; discriminate.
Qed.

Lemma V1_smoothed_pos (roi : ndarray bool) (i : index) :
  voxel (V1_smoothed roi) i = true <->
  0 < voxel
        (gaussian_filter1d
           (gaussian_filter1d (gaussian_filter1d (astype_float roi) 0.25 0)
              0.25 1) 0.25 2) i.
Proof.
  unfold V1_smoothed, gaussian_filter. cbn [fold_left].
  destruct (Rlt_dec 1e-15 0.25) as [_ | Hn]; [| lra].
  cbn [astype_bool voxel].
  set (v := voxel _ i).
  assert (Hv : 0 <= v).
  { subst v. repeat apply gaussian_filter1d_nonneg.
    apply astype_float_nonneg. }
  destruct (Req_dec_T v 0) as [E | NE]; split; intros H;
    try reflexivity; try discriminate; lra.
Qed.

(** The three passes together: a voxel is [True] after smoothing exactly
    when one of the 27 voxels the three kernels reach from it, with the
    index reflected at the border, was [True] before. *)
Lemma V1_smoothed_taps_iff (roi : ndarray bool) (x y z : Z) :
  voxel (V1_smoothed roi) (x, y, z) = true <->
  exists ox oy oz : Z,
    (-1 <= ox <= 1)%Z /\ (-1 <= oy <= 1)%Z /\ (-1 <= oz <= 1)%Z /\
    voxel roi (reflect (axis_len (shape roi) 0) (x + ox),
               reflect (axis_len (shape roi) 1) (y + oy),
               reflect (axis_len (shape roi) 2) (z + oz)) = true.
Proof.
  rewrite V1_smoothed_pos.
  set (a0 := astype_float roi).
  set (a1 := gaussian_filter1d a0 0.25 0).
  set (a2 := gaussian_filter1d a1 0.25 1).
  assert (H0 : forall p, 0 <= voxel a0 p) by apply astype_float_nonneg.
  assert (H1 : forall p, 0 <= voxel a1 p)
    by now apply gaussian_filter1d_nonneg.
  assert (H2 : forall p, 0 <= voxel a2 p)
    by now apply gaussian_filter1d_nonneg.
  change (shape roi) with (shape a2) at 3.
  change (shape roi) with (shape a1) at 2.
  change (shape roi) with (shape a0) at 1.
  rewrite (gaussian_filter1d_quarter_pos_iff a2 2 _ H2).
  cbn [axis_set axis_get axis_len].
  split.
  - intros (oz & Hoz & Hv).
    apply (gaussian_filter1d_quarter_pos_iff a1 1 _ H1) in Hv
      as (oy & Hoy & Hv).
    cbn [axis_set axis_get axis_len] in Hv.
    apply (gaussian_filter1d_quarter_pos_iff a0 0 _ H0) in Hv
      as (ox & Hox & Hv).
    cbn [axis_set axis_get axis_len] in Hv.
    apply astype_float_pos in Hv.
    exists ox, oy, oz. auto.
  - intros (ox & oy & oz & Hox & Hoy & Hoz & Hv).
    exists oz. split; [exact Hoz |].
    apply (gaussian_filter1d_quarter_pos_iff a1 1 _ H1).
    cbn [axis_set axis_get axis_len].
    exists oy. split; [exact Hoy |].
    apply (gaussian_filter1d_quarter_pos_iff a0 0 _ H0).
    cbn [axis_set axis_get axis_len].
    exists ox. split; [exact Hox |].
    now apply astype_float_pos.
Qed.

(** The seed region is the region grown by one voxel in every direction:
    a voxel in bounds is [True] after smoothing exactly when it or one of
    its (up to 26) neighbours in bounds was [True] before. *)
Theorem V1_smoothed_is_dilation (roi : ndarray bool) (i : index) :
  in_bounds (shape roi) i ->
  voxel (V1_smoothed roi) i = true <->
  exists j : index,
    in_bounds (shape roi) j /\ adjacent i j /\ voxel roi j = true.
Proof.
  intros Hi. destruct i as [[x y] z]. rewrite V1_smoothed_taps_iff.
  destruct (shape roi) as [[nx ny] nz].
  destruct Hi as (Hx & Hy & Hz). cbn [axis_len].
  split.
  - intros (ox & oy & oz & Hox & Hoy & Hoz & Hv).
    destruct (reflect_step nx x ox Hx Hox) as [? ?].
    destruct (reflect_step ny y oy Hy Hoy) as [? ?].
    destruct (reflect_step nz z oz Hz Hoz) as [? ?].
    eexists (_, _, _). split; [| split; [| exact Hv]]; cbn; auto.
  - intros ([[x' y'] z'] & (Hx' & Hy' & Hz') & (Ax & Ay & Az) & Hv).
    exists (x' - x)%Z, (y' - y)%Z, (z' - z)%Z.
    repeat (split; [lia |]).
    replace (x + (x' - x))%Z with x' by lia.
    replace (y + (y' - y))%Z with y' by lia.
    replace (z + (z' - z))%Z with z' by lia.
    now rewrite !reflect_in_range by lia.
Qed.

Lemma V1_smoothed_is_dilation_witness :
  voxel (V1_smoothed centre_voxel) (0, 2, 1)%Z = true <->
  exists j : index,
    in_bounds (shape centre_voxel) j /\ adjacent (0, 2, 1)%Z j /\
    voxel centre_voxel j = true.
Proof.
  apply (V1_smoothed_is_dilation centre_voxel (0, 2, 1)%Z). cbn. lia.
Defined.

(** A region with no voxel set gives no seed voxel. *)
Theorem V1_smoothed_empty (roi : ndarray bool) (i : index) :
  (forall j, in_bounds (shape roi) j -> voxel roi j = false) ->
  in_bounds (shape roi) i ->
  voxel (V1_smoothed roi) i = false.
Proof.
  intros Hempty Hi. destruct i as [[x y] z].
  destruct (voxel (V1_smoothed roi) (x, y, z)) eqn:E; [| reflexivity].
  apply V1_smoothed_taps_iff in E
    as (ox & oy & oz & Hox & Hoy & Hoz & Hv).
  rewrite Hempty in Hv; [discriminate |].
  destruct (shape roi) as [[nx ny] nz]. destruct Hi as (Hx & Hy & Hz).
  cbn [axis_len in_bounds].
  destruct (reflect_step nx x ox Hx Hox) as [? _].
  destruct (reflect_step ny y oy Hy Hoy) as [? _].
  destruct (reflect_step nz z oz Hz Hoz) as [? _]. auto.
Qed.

Lemma V1_smoothed_empty_witness :
  voxel (V1_smoothed (Ndarray (3, 3, 3)%Z (fun _ => false))) (1, 1, 1)%Z
  = false.
Proof.
  apply (V1_smoothed_empty (Ndarray (3, 3, 3)%Z (fun _ => false))
           (1, 1, 1)%Z).
  - intros j _. reflexivity.
  - cbn. lia.
Defined.

(** A larger region gives a larger seed region. *)
Theorem V1_smoothed_monotone (roi roi' : ndarray bool) (i : index) :
  shape roi' = shape roi ->
  (forall j, in_bounds (shape roi) j ->
             voxel roi j = true -> voxel roi' j = true) ->
  in_bounds (shape roi) i ->
  voxel (V1_smoothed roi) i = true ->
  voxel (V1_smoothed roi') i = true.
Proof.
  intros Hs Hsub Hi Hv. destruct i as [[x y] z].
  apply V1_smoothed_taps_iff in Hv
    as (ox & oy & oz & Hox & Hoy & Hoz & Hv).
  apply V1_smoothed_taps_iff. rewrite Hs.
  exists ox, oy, oz. repeat (split; [assumption |]).
  apply Hsub; [| exact Hv].
  destruct (shape roi) as [[nx ny] nz]. destruct Hi as (Hx & Hy & Hz).
  cbn [axis_len in_bounds].
  destruct (reflect_step nx x ox Hx Hox) as [? _].
  destruct (reflect_step ny y oy Hy Hoy) as [? _].
  destruct (reflect_step nz z oz Hz Hoz) as [? _]. auto.
Qed.

Lemma V1_smoothed_monotone_witness :
  voxel (V1_smoothed (Ndarray (3, 3, 3)%Z (fun _ => true))) (0, 1, 1)%Z
  = true.
Proof.
  apply (V1_smoothed_monotone centre_voxel
           (Ndarray (3, 3, 3)%Z (fun _ => true)) (0, 1, 1)%Z).
  - reflexivity.
  - intros j _ _. reflexivity.
  - cbn. lia.
  - apply V1_smoothed_taps_iff. exists 1%Z, 0%Z, 0%Z.
    repeat (split; [lia |]). reflexivity.
Defined.

End Dilation.

End TrackingMore.

(** ** The plots of the pulsed-gradient notebook *)

Module PlotsFacts.
Import Signals Plots SignalsFacts.
Local Open Scope R_scope.

(** *** The gradient wave form *)

Lemma map_fmap {A B} (f : A -> B) (l : list A) : map f l = f <$> l.
Proof. reflexivity. Qed.

Lemma ceil_spec (x : R) : IZR (ceil x) - 1 < x <= IZR (ceil x).
Proof.
  unfold ceil. rewrite opp_IZR.
  destruct (base_Int_part (- x)) as [Hle Hgt]. lra.
Qed.

Lemma Rltb_true (x y : R) : Rltb x y = true <-> x < y.
Proof.
  unfold Rltb. destruct (Rlt_dec x y); split; intros H;
    try reflexivity; try assumption; try discriminate; contradiction.
Qed.

Lemma np_arange_length (stop : R) :
  length (np_arange stop) = Z.to_nat (ceil stop).
Proof. unfold np_arange. now rewrite length_map, length_seqZ. Qed.

Lemma np_arange_lookup (stop : R) (k : nat) :
  (k < length (np_arange stop))%nat -> np_arange stop !! k = Some (INR k).
Proof.
  rewrite np_arange_length. intros Hk. unfold np_arange.
  rewrite map_fmap, list_lookup_fmap, lookup_seqZ_lt by lia.
  cbn. now rewrite INR_IZR_INZ.
Qed.

Lemma where_from_elem (i k : nat) (mask : list bool) :
  k ∈ where_from i mask <->
  exists j : nat, k = (i + j)%nat /\ mask !! j = Some true.
Proof.
  revert i. induction mask as [| m mask IH]; intros i; cbn [where_from].
  - rewrite elem_of_nil. split; [tauto | intros (j & _ & Hj); discriminate].
  - assert (Hrest : k ∈ where_from (S i) mask <->
              exists j, k = (i + S j)%nat /\ mask !! j = Some true).
    { rewrite IH. split; intros (j & -> & Hj); exists j; split; auto; lia. }
    destruct m.
    + rewrite elem_of_cons, Hrest. split.
      * intros [-> | (j & -> & Hj)]; [exists 0%nat | exists (S j)];
          split; auto; lia.
      * intros ([| j] & -> & Hj); [left; lia | right; eauto].
    + rewrite Hrest. split.
      * intros (j & -> & Hj). exists (S j). auto.
      * intros ([| j] & -> & Hj); [discriminate | eauto].
Qed.

Lemma np_where_elem (k : nat) (mask : list bool) :
  k ∈ np_where mask <-> mask !! k = Some true.
Proof.
  unfold np_where. rewrite where_from_elem. split.
  - now intros (j & -> & Hj).
  - intros Hk. now exists k.
Qed.

Lemma set_items_length (idx : list nat) (v : R) (a : list R) :
  length (set_items idx v a) = length a.
Proof.
  unfold set_items. revert a.
  induction idx as [| i idx IH]; intros a; cbn [fold_left]; [reflexivity |].
  now rewrite IH, length_insert.
Qed.

Lemma set_items_lookup_notin (idx : list nat) (v : R) (a : list R) (k : nat) :
  k ∉ idx -> set_items idx v a !! k = a !! k.
Proof.
  unfold set_items. revert a.
  induction idx as [| i idx IH]; intros a Hk; cbn [fold_left]; [reflexivity |].
  apply not_elem_of_cons in Hk as [Hne Hk].
  rewrite IH by exact Hk. apply list_lookup_insert_ne. congruence.
Qed.

Lemma set_items_lookup_in (idx : list nat) (v : R) (a : list R) (k : nat) :
  k ∈ idx -> (k < length a)%nat -> set_items idx v a !! k = Some v.
Proof.
  revert a. induction idx as [| i idx IH]; intros a Hk Hlen.
  - now apply elem_of_nil in Hk.
  - destruct (decide (k ∈ idx)) as [Hin | Hnotin].
    + change (set_items (i :: idx) v a) with (set_items idx v (<[i := v]> a)).
      apply IH; [exact Hin | now rewrite length_insert].
    + apply elem_of_cons in Hk as [-> | Hk]; [| contradiction].
      change (set_items (i :: idx) v a) with (set_items idx v (<[i := v]> a)).
      rewrite set_items_lookup_notin by exact Hnotin.
      now apply list_lookup_insert_eq.
Qed.

(** The mask of one pulse window holds at sample [k] exactly when the
    time [k] is strictly inside the window. *)
Lemma window_mask_lookup (lo hi stop : R) (k : nat) :
  (k < length (np_arange stop))%nat ->
  logical_and (map (fun x => Rltb lo x) (np_arange stop))
              (map (fun x => Rltb x hi) (np_arange stop)) !! k = Some true
  <-> lo < INR k < hi.
Proof.
  intros Hk. unfold logical_and.
  rewrite lookup_zip_with, !map_fmap, !list_lookup_fmap.
  rewrite np_arange_lookup by exact Hk. cbn.
  split.
  - intros [= H]. apply andb_true_iff in H as [H1 H2].
    now rewrite !Rltb_true in *.
  - intros [H1 H2]. f_equal. apply andb_true_iff.
    now rewrite !Rltb_true.
Qed.

Lemma gradient_wave_length (g delta Delta : R) :
  length (gradient_wave g delta Delta).1
  = Z.to_nat (ceil (10 + delta + Delta + 10)) /\
  length (gradient_wave g delta Delta).2
  = length (gradient_wave g delta Delta).1.
Proof.
  unfold gradient_wave, np_zeros. cbn [fst snd].
  split; [apply np_arange_length |].
  now rewrite !set_items_length, length_replicate.
Qed.

Lemma ceil_unique (x : R) (z : Z) : IZR z - 1 < x <= IZR z -> ceil x = z.
Proof.
  intros Hx. unfold ceil.
  rewrite <- (Int_part_spec (- x) (- z)); [lia |].
  rewrite opp_IZR. lra.
Qed.

(** In exact arithmetic, for any durations: sample [k] is at time [k],
    and the wave form is [g] strictly inside a pulse window, 0 elsewhere. *)
Lemma gradient_wave_samples_real (g delta Delta : R) (k : nat) :
  (k < length (gradient_wave g delta Delta).1)%nat ->
  (gradient_wave g delta Delta).1 !! k = Some (INR k) /\
  (in_pulse delta Delta (INR k) ->
   (gradient_wave g delta Delta).2 !! k = Some g) /\
  (~ in_pulse delta Delta (INR k) ->
   (gradient_wave g delta Delta).2 !! k = Some 0).
Proof.
  unfold gradient_wave, np_zeros. cbn [fst snd].
  set (t := np_arange (10 + delta + Delta + 10)).
  set (m1 := logical_and (map (fun x => Rltb 10 x) t) _).
  set (m2 := logical_and (map (fun x => Rltb (10 + Delta) x) t) _).
  intros Hk. split; [now apply np_arange_lookup |].
  pose proof (window_mask_lookup 10 (10 + delta) _ k Hk) as W1.
  pose proof (window_mask_lookup (10 + Delta) (10 + Delta + delta) _ k Hk)
    as W2.
  fold t in W1, W2. fold m1 in W1. fold m2 in W2.
  assert (Hz : replicate (length t) 0 !! k = Some 0)
    by now apply lookup_replicate_2.
  assert (Hl1 : (k < length (set_items (np_where m1) g
                                (replicate (length t) 0%R)))%nat)
    by now rewrite set_items_length, length_replicate.
  split.
  - intros [H1 | H2].
    + destruct (decide (k ∈ np_where m2)) as [Hin | Hnotin].
      * now apply set_items_lookup_in.
      * rewrite set_items_lookup_notin by exact Hnotin.
        apply set_items_lookup_in; [| now rewrite length_replicate].
        now apply np_where_elem, W1.
    + apply set_items_lookup_in; [| exact Hl1].
      now apply np_where_elem, W2.
  - intros Hout.
    rewrite !set_items_lookup_notin; [exact Hz | |].
    + rewrite np_where_elem, W1. intros H. apply Hout. now left.
    + rewrite np_where_elem, W2. intros H. apply Hout. now right.
Qed.

Lemma ceil_IZR (z : Z) : ceil (IZR z) = z.
Proof. apply ceil_unique. lra. Qed.

Lemma time_axis_stop (d D : Z) :
  10 + IZR d + IZR D + 10 = IZR (20 + d + D).
Proof. rewrite !plus_IZR. lra. Qed.

(** The samples of the left-hand panel, for durations that are whole
    numbers of milliseconds, as the sliders give them (there every sum
    and comparison of the body is exact): the time axis has one sample
    per millisecond, [20 + delta + Delta] of them from 0 on; the wave
    form is [g] at the samples strictly inside one of the two pulse
    windows (10, 10 + delta) and (10 + Delta, 10 + Delta + delta), and 0
    at every other sample, the ends of the windows included. *)
Theorem gradient_wave_samples (g : R) (d D : Z) (k : nat) :
  -1000000 <= g <= 1000000 ->
  (-1000 <= d <= 1000)%Z -> (-1000 <= D <= 1000)%Z ->
  (Z.of_nat k < 20 + d + D)%Z ->
  length (gradient_wave g (IZR d) (IZR D)).1 = Z.to_nat (20 + d + D) /\
  (gradient_wave g (IZR d) (IZR D)).1 !! k = Some (INR k) /\
  (in_pulse (IZR d) (IZR D) (INR k) ->
   (gradient_wave g (IZR d) (IZR D)).2 !! k = Some g) /\
  (~ in_pulse (IZR d) (IZR D) (INR k) ->
   (gradient_wave g (IZR d) (IZR D)).2 !! k = Some 0).
Proof.
  intros _ _ _ Hk.
  assert (Hlen : length (gradient_wave g (IZR d) (IZR D)).1
                 = Z.to_nat (20 + d + D)).
  { rewrite (proj1 (gradient_wave_length _ _ _)).
    now rewrite time_axis_stop, ceil_IZR. }
  split; [exact Hlen |].
  apply gradient_wave_samples_real. rewrite Hlen. lia.
Qed.

Lemma gradient_wave_samples_witness :
  length (gradient_wave 40 (IZR 13) (IZR 60)).1 = Z.to_nat (20 + 13 + 60) /\
  (gradient_wave 40 (IZR 13) (IZR 60)).1 !! 11%nat = Some (INR 11) /\
  (in_pulse (IZR 13) (IZR 60) (INR 11) ->
   (gradient_wave 40 (IZR 13) (IZR 60)).2 !! 11%nat = Some 40) /\
  (~ in_pulse (IZR 13) (IZR 60) (INR 11) ->
   (gradient_wave 40 (IZR 13) (IZR 60)).2 !! 11%nat = Some 0).
Proof.
  apply (gradient_wave_samples 40 13 60 11); (lra || lia).
Defined.

(** *** The x-limits and the empty time axis *)

Lemma fold_left_Rmax_seqZ (a : Z) (m : nat) :
  fold_left Rmax (map IZR (seqZ (a + 1) (Z.of_nat m))) (IZR a)
  = IZR (a + Z.of_nat m).
Proof.
  revert a. induction m as [| m IH]; intros a.
  - rewrite seqZ_nil by lia. cbn [map fold_left Z.of_nat].
    now rewrite Z.add_0_r.
  - rewrite seqZ_cons by lia. cbn [map fold_left].
    rewrite Rmax_right by (apply IZR_le; lia).
    replace (Z.pred (Z.of_nat (S m))) with (Z.of_nat m) by lia.
    replace (Z.succ (a + 1)) with (a + 1 + 1)%Z by lia.
    rewrite IH. f_equal. lia.
Qed.

Lemma py_max_np_arange (stop : R) :
  0 < stop -> py_max (np_arange stop) = Return (IZR (ceil stop) - 1).
Proof.
  intros Hstop. pose proof (ceil_spec stop) as [_ Hc].
  assert (Hpos : (0 < ceil stop)%Z) by (apply lt_IZR; lra).
  unfold np_arange. rewrite seqZ_cons by exact Hpos.
  cbn [map py_max]. f_equal.
  replace (Z.succ 0) with (0 + 1)%Z by lia.
  replace (Z.pred (ceil stop)) with (Z.of_nat (Z.to_nat (ceil stop - 1)))
    by lia.
  rewrite fold_left_Rmax_seqZ, Z2Nat.id by lia.
  rewrite <- minus_IZR. f_equal.
Qed.

Lemma np_arange_empty (stop : R) : stop <= 0 -> np_arange stop = [].
Proof.
  intros Hstop. pose proof (ceil_spec stop) as [Hc _].
  assert (Hneg : (ceil stop <= 0)%Z).
  { apply Z.lt_succ_r, lt_IZR. rewrite succ_IZR. lra. }
  unfold np_arange. now rewrite seqZ_nil.
Qed.

Lemma viz_gradients_empty_axis_real (g delta Delta : R) :
  10 + delta + Delta + 10 <= 0 ->
  viz_gradients_panels g delta Delta = Raise ValueError.
Proof.
  intros Hstop. unfold viz_gradients_panels, gradient_wave.
  rewrite (np_arange_empty _ Hstop). cbn [length map].
  rewrite b_value_eval. reflexivity.
Qed.

(** With whole-millisecond durations so negative that the time axis is
    empty ([20 + delta + Delta <= 0]) and a gradient of ordinary size
    (so that [b_value] returns), [viz_gradients] stops with a
    [ValueError] at [max(t)]. *)
Theorem viz_gradients_empty_axis (g : R) (d D : Z) :
  -1000000 <= g <= 1000000 ->
  (-1000 <= d <= 1000)%Z -> (-1000 <= D <= 1000)%Z ->
  (20 + d + D <= 0)%Z ->
  gradient_wave g (IZR d) (IZR D) = ([], []) /\
  viz_gradients_panels g (IZR d) (IZR D) = Raise ValueError.
Proof.
  intros _ _ _ H.
  assert (Hstop : 10 + IZR d + IZR D + 10 <= 0).
  { rewrite time_axis_stop. now apply IZR_le. }
  split; [| now apply viz_gradients_empty_axis_real].
  unfold gradient_wave. now rewrite (np_arange_empty _ Hstop).
Qed.

Lemma viz_gradients_empty_axis_witness :
  gradient_wave 40 (IZR (-30)) (IZR 10) = ([], []) /\
  viz_gradients_panels 40 (IZR (-30)) (IZR 10) = Raise ValueError.
Proof. apply (viz_gradients_empty_axis 40 (-30) 10); (lra || lia). Defined.

Lemma viz_gradients_both_panels_real (g delta Delta : R) :
  0 < 10 + delta + Delta + 10 ->
  exists fig : figure,
    viz_gradients g delta Delta = Return fig /\
    viz_gradients_panels g delta Delta =
    Return {| wave := gradient_wave g delta Delta;
              xlim := (-10, IZR (ceil (10 + delta + Delta + 10)) - 1 + 10);
              signal := fig |}.
Proof.
  intros Hstop. unfold viz_gradients, viz_gradients_panels.
  destruct (gradient_wave g delta Delta) as [t grad] eqn:Hw.
  assert (Ht : t = np_arange (10 + delta + Delta + 10)).
  { unfold gradient_wave in Hw. now injection Hw as <- _. }
  rewrite b_value_eval. unfold mbind, outcome_bind.
  rewrite Ht, (py_max_np_arange _ Hstop), <- Ht.
  rewrite truediv_nonzero by lra.
  eexists. split; reflexivity.
Qed.

(** With whole-millisecond durations that leave a time axis
    ([0 < 20 + delta + Delta]) and a gradient of ordinary size,
    [viz_gradients] draws both panels: the right-hand one is the figure
    of [viz_gradients], and the x-axis of the left-hand one runs from
    -10 to 10 ms after the last sample, [19 + delta + Delta + 10]. *)
Theorem viz_gradients_both_panels (g : R) (d D : Z) :
  -1000000 <= g <= 1000000 ->
  (-1000 <= d <= 1000)%Z -> (-1000 <= D <= 1000)%Z ->
  (0 < 20 + d + D)%Z ->
  exists fig : figure,
    viz_gradients g (IZR d) (IZR D) = Return fig /\
    viz_gradients_panels g (IZR d) (IZR D) =
    Return {| wave := gradient_wave g (IZR d) (IZR D);
              xlim := (-10, IZR (19 + d + D) + 10);
              signal := fig |}.
Proof.
  intros _ _ _ H.
  assert (Hstop : 0 < 10 + IZR d + IZR D + 10).
  { rewrite time_axis_stop. now apply IZR_lt. }
  destruct (viz_gradients_both_panels_real g (IZR d) (IZR D) Hstop)
    as (fig & Hfig & Hp).
  exists fig. split; [exact Hfig |].
  rewrite Hp, time_axis_stop, ceil_IZR.
  replace (IZR (20 + d + D) - 1) with (IZR (19 + d + D))
    by (rewrite !plus_IZR; lra).
  reflexivity.
Qed.

Lemma viz_gradients_both_panels_witness :
  exists fig : figure,
    viz_gradients 40 (IZR 13) (IZR 60) = Return fig /\
    viz_gradients_panels 40 (IZR 13) (IZR 60) =
    Return {| wave := gradient_wave 40 (IZR 13) (IZR 60);
              xlim := (-10, IZR (19 + 13 + 60) + 10);
              signal := fig |}.
Proof. apply (viz_gradients_both_panels 40 13 60); (lra || lia). Defined.

(** *** The signal curve and the annotation *)

Lemma arange_n_length (step : R) (n : nat) : length (arange_n step n) = n.
Proof. unfold arange_n. now rewrite length_map, length_seq. Qed.

Lemma arange_n_lookup (step : R) (n k : nat) :
  (k < n)%nat -> arange_n step n !! k = Some (INR k * step).
Proof.
  intros Hk. unfold arange_n.
  now rewrite map_fmap, list_lookup_fmap, lookup_seq_lt.
Qed.

Lemma arange_n_lookup_Some (step : R) (n k : nat) (d : R) :
  arange_n step n !! k = Some d -> (k < n)%nat /\ d = INR k * step.
Proof.
  intros Hd. assert (Hk : (k < n)%nat).
  { apply lookup_lt_Some in Hd. now rewrite arange_n_length in Hd. }
  split; [exact Hk |]. rewrite arange_n_lookup in Hd by exact Hk.
  congruence.
Qed.

Lemma curve_lookup_Some (c : R) (n k : nat) (D S : R) :
  map (fun d => (d, ST_equation c d 1)) (arange_n 0.01 n) !! k = Some (D, S) ->
  (k < n)%nat /\ D = INR k * 0.01 /\ S = exp (- c * D).
Proof.
  rewrite map_fmap, list_lookup_fmap. intros H.
  destruct (arange_n 0.01 n !! k) as [d |] eqn:Hd; [| discriminate].
  apply arange_n_lookup_Some in Hd as [Hk ->].
  cbn in H. injection H as <- <-.
  split; [exact Hk |]. split; [reflexivity |].
  unfold ST_equation. ring.
Qed.

Lemma viz_gradients_eval (g delta Delta : R) :
  viz_gradients g delta Delta =
  Return {| curve :=
              map (fun d =>
                     (d, ST_equation
                           (stejskal_tanner_b g delta Delta gamma_default
                            / 1000) d 1))
                  (arange_n 0.01 400);
            annotation :=
              "b=" +:+
              pretty (int (stejskal_tanner_b g delta Delta gamma_default)) |}.
Proof.
  unfold viz_gradients. rewrite b_value_eval. unfold mbind, outcome_bind.
  now rewrite truediv_nonzero by lra.
Qed.

Lemma viz_gradients_curve_decays_real (g delta Delta : R) :
  0 < stejskal_tanner_b g delta Delta gamma_default ->
  exists fig : figure,
    viz_gradients g delta Delta = Return fig /\
    length (curve fig) = 400%nat /\
    curve fig !! 0%nat = Some (0, 1) /\
    forall (k k' : nat) (D S D' S' : R),
      (k < k')%nat ->
      curve fig !! k = Some (D, S) -> curve fig !! k' = Some (D', S') ->
      D < D' /\ 0 < S' < S.
Proof.
  intros Hb.
  eexists. split; [apply viz_gradients_eval |]. cbn [curve].
  split; [now rewrite length_map, arange_n_length |].
  split.
  { rewrite map_fmap, list_lookup_fmap, arange_n_lookup by lia. cbn.
    unfold ST_equation. rewrite !Rmult_0_l, Rmult_0_r, exp_0.
    do 2 f_equal. ring. }
  intros k k' D S D' S' Hkk H1 H2.
  apply curve_lookup_Some in H1 as (_ & -> & ->).
  apply curve_lookup_Some in H2 as (_ & -> & ->).
  assert (Hlt : INR k < INR k') by now apply lt_INR.
  split; [lra |]. split; [apply exp_pos |].
  apply exp_increasing. nra.
Qed.

Lemma panels_of_figure (g : R) (d D : Z) (fig : figure) :
  (0 <= d)%Z -> (0 <= D)%Z ->
  viz_gradients g (IZR d) (IZR D) = Return fig ->
  exists p : panels,
    viz_gradients_panels g (IZR d) (IZR D) = Return p /\ signal p = fig.
Proof.
  intros Hd HD Hfig.
  assert (Hstop : 0 < 10 + IZR d + IZR D + 10).
  { rewrite time_axis_stop. apply IZR_lt. lia. }
  destruct (viz_gradients_both_panels_real g (IZR d) (IZR D) Hstop)
    as (fig' & Hfig' & Hp).
  rewrite Hfig in Hfig'. injection Hfig' as <-.
  eexists. split; [exact Hp | reflexivity].
Qed.

Lemma time_factor_sign (g delta Delta : R) :
  (0 < stejskal_tanner_b g delta Delta gamma_default -> delta / 3 < Delta) /\
  (stejskal_tanner_b g delta Delta gamma_default < 0 -> Delta < delta / 3).
Proof.
  rewrite stejskal_tanner_b_factor.
  pose proof (b_scale_nonneg gamma_default) as Hk.
  pose proof (pow2_ge_0 g) as Hg. pose proof (pow2_ge_0 delta) as Hd.
  assert (H0 : 0 <= b_scale gamma_default * (g ^ 2 * delta ^ 2))
    by (apply Rmult_le_pos; [exact Hk | now apply Rmult_le_pos]).
  replace (b_scale gamma_default * (g ^ 2 * (delta ^ 2 * (Delta - delta / 3))))
    with (b_scale gamma_default * (g ^ 2 * delta ^ 2) * (Delta - delta / 3))
    by ring.
  split; intros H; nra.
Qed.

(** Take whole-millisecond durations from 0 to 1000 and a b-value
    between 1 and 100000 s/mm^2 (no exponential of the curve comes
    near underflow there).  Then [Delta > delta/3], [viz_gradients]
    draws its panels, the plotted signal has 400 points and starts at 1
    for D = 0, and along the curve D grows while the signal falls
    strictly and stays positive. *)
Theorem viz_gradients_curve_decays (g : R) (d D : Z) :
  (0 <= d <= 1000)%Z -> (0 <= D <= 1000)%Z ->
  1 <= stejskal_tanner_b g (IZR d) (IZR D) gamma_default <= 100000 ->
  IZR d / 3 < IZR D /\
  exists p : panels,
    viz_gradients_panels g (IZR d) (IZR D) = Return p /\
    length (curve (signal p)) = 400%nat /\
    curve (signal p) !! 0%nat = Some (0, 1) /\
    forall (k k' : nat) (D0 S D0' S' : R),
      (k < k')%nat ->
      curve (signal p) !! k = Some (D0, S) ->
      curve (signal p) !! k' = Some (D0', S') ->
      D0 < D0' /\ 0 < S' < S.
Proof.
  intros Hd HD Hb.
  split; [apply (time_factor_sign g); lra |].
  destruct (viz_gradients_curve_decays_real g (IZR d) (IZR D))
    as (fig & Hfig & H); [lra |].
  destruct (panels_of_figure g d D fig) as (p & Hp & <-);
    [lia | lia | exact Hfig |].
  exists p. split; [exact Hp | exact H].
Qed.

Lemma stejskal_tanner_b_example :
  1077 < stejskal_tanner_b 40 13 60 gamma_default < 1078.
Proof.
  unfold gamma_default. rewrite b_value_example_value.
  pose proof PI_sqr_enclosure. lra.
Qed.

Lemma viz_gradients_curve_decays_witness :
  IZR 13 / 3 < IZR 60 /\
  exists p : panels,
    viz_gradients_panels 40 (IZR 13) (IZR 60) = Return p /\
    length (curve (signal p)) = 400%nat /\
    curve (signal p) !! 0%nat = Some (0, 1) /\
    forall (k k' : nat) (D0 S D0' S' : R),
      (k < k')%nat ->
      curve (signal p) !! k = Some (D0, S) ->
      curve (signal p) !! k' = Some (D0', S') ->
      D0 < D0' /\ 0 < S' < S.
Proof.
  apply (viz_gradients_curve_decays 40 13 60); try lia.
  pose proof stejskal_tanner_b_example. lra.
Defined.

Lemma viz_gradients_negative_b_real (g delta Delta : R) :
  stejskal_tanner_b g delta Delta gamma_default < 0 ->
  exists (b : R) (fig : figure),
    b_value g delta Delta gamma_default = Return b /\ b < 0 /\
    viz_gradients g delta Delta = Return fig /\
    forall (k k' : nat) (D S D' S' : R),
      (k < k')%nat ->
      curve fig !! k = Some (D, S) -> curve fig !! k' = Some (D', S') ->
      1 <= S < S'.
Proof.
  intros Hb.
  eexists _, _. split; [apply b_value_eval |]. split; [exact Hb |].
  split; [apply viz_gradients_eval |]. cbn [curve].
  intros k k' D S D' S' Hkk H1 H2.
  apply curve_lookup_Some in H1 as (_ & -> & ->).
  apply curve_lookup_Some in H2 as (_ & -> & ->).
  assert (Hlt : INR k < INR k') by now apply lt_INR.
  pose proof (pos_INR k) as Hk0.
  split.
  - rewrite <- exp_0. destruct Hk0 as [Hk0 | <-].
    + left. apply exp_increasing. nra.
    + right. f_equal. ring.
  - apply exp_increasing. nra.
Qed.

(** The sliders allow [Delta < delta/3] (for instance delta = 40,
    Delta = 10).  For whole-millisecond durations from 0 to 1000 and a
    b-value between -100000 and -1, [Delta < delta/3], [b_value]
    returns the negative number, the panels are drawn and the plotted
    signal grows with D: every point lies at or above 1 and below the
    next one. *)
Theorem viz_gradients_negative_b (g : R) (d D : Z) :
  (0 <= d <= 1000)%Z -> (0 <= D <= 1000)%Z ->
  -100000 <= stejskal_tanner_b g (IZR d) (IZR D) gamma_default <= -1 ->
  IZR D < IZR d / 3 /\
  exists (b : R) (p : panels),
    b_value g (IZR d) (IZR D) gamma_default = Return b /\ b < 0 /\
    viz_gradients_panels g (IZR d) (IZR D) = Return p /\
    forall (k k' : nat) (D0 S D0' S' : R),
      (k < k')%nat ->
      curve (signal p) !! k = Some (D0, S) ->
      curve (signal p) !! k' = Some (D0', S') ->
      1 <= S < S'.
Proof.
  intros Hd HD Hb.
  split; [apply (time_factor_sign g); lra |].
  destruct (viz_gradients_negative_b_real g (IZR d) (IZR D))
    as (b & fig & Hret & Hneg & Hfig & H); [lra |].
  destruct (panels_of_figure g d D fig) as (p & Hp & <-);
    [lia | lia | exact Hfig |].
  exists b, p. auto.
Qed.

Lemma stejskal_tanner_b_example_negative :
  -612 < stejskal_tanner_b 40 40 10 gamma_default < -610.
Proof.
  unfold gamma_default.
  replace (stejskal_tanner_b 40 40 10 42.576)
    with (- (618740318208 / 10000000000 * PI ^ 2)).
  - pose proof PI_sqr_enclosure. lra.
  - replace 42.576 with (42576 / 1000) by lra.
    unfold stejskal_tanner_b. field.
Qed.

Lemma viz_gradients_negative_b_witness :
  IZR 10 < IZR 40 / 3 /\
  exists (b : R) (p : panels),
    b_value 40 (IZR 40) (IZR 10) gamma_default = Return b /\ b < 0 /\
    viz_gradients_panels 40 (IZR 40) (IZR 10) = Return p /\
    forall (k k' : nat) (D0 S D0' S' : R),
      (k < k')%nat ->
      curve (signal p) !! k = Some (D0, S) ->
      curve (signal p) !! k' = Some (D0', S') ->
      1 <= S < S'.
Proof.
  apply (viz_gradients_negative_b 40 40 10); try lia.
  pose proof stejskal_tanner_b_example_negative. lra.
Defined.

Lemma int_truncates (x : R) :
  (0 <= x -> IZR (int x) <= x < IZR (int x) + 1) /\
  (x <= 0 -> IZR (int x) - 1 < x <= IZR (int x)).
Proof.
  unfold int. destruct (Rle_dec 0 x) as [Hpos | Hneg].
  - destruct (base_Int_part x) as [Hle Hgt]. split; intros H.
    + lra.
    + assert (x = 0) by lra. subst x.
      rewrite <- (Int_part_spec 0 0) by lra. lra.
  - destruct (base_Int_part (- x)) as [Hle Hgt]. rewrite opp_IZR.
    split; intros H; lra.
Qed.

Lemma viz_gradients_annotation_truncates_real (g delta Delta : R) :
  exists (b : R) (fig : figure) (n : Z),
    b_value g delta Delta gamma_default = Return b /\
    viz_gradients g delta Delta = Return fig /\
    annotation fig = "b=" +:+ pretty n /\
    (0 <= b -> IZR n <= b < IZR n + 1) /\
    (b <= 0 -> IZR n - 1 < b <= IZR n).
Proof.
  eexists _, _, _. split; [apply b_value_eval |].
  split; [apply viz_gradients_eval |]. cbn [annotation].
  split; [reflexivity | apply int_truncates].
Qed.

(** For whole-millisecond durations from 0 to 1000 and a gradient of
    ordinary size (the b-value is a finite number there and the time
    axis is not empty), the panels are drawn and the annotation shows
    the b-value cut towards zero: the integer [n] printed after [b=] is
    the whole part of [b], below [b] when [b] is positive and above it
    when [b] is negative. *)
Theorem viz_gradients_annotation_truncates (g : R) (d D : Z) :
  -1000000 <= g <= 1000000 ->
  (0 <= d <= 1000)%Z -> (0 <= D <= 1000)%Z ->
  exists (b : R) (p : panels) (n : Z),
    b_value g (IZR d) (IZR D) gamma_default = Return b /\
    viz_gradients_panels g (IZR d) (IZR D) = Return p /\
    annotation (signal p) = "b=" +:+ pretty n /\
    (0 <= b -> IZR n <= b < IZR n + 1) /\
    (b <= 0 -> IZR n - 1 < b <= IZR n).
Proof.
  intros _ Hd HD.
  destruct (viz_gradients_annotation_truncates_real g (IZR d) (IZR D))
    as (b & fig & n & Hb & Hfig & Ha & Hpos & Hneg).
  destruct (panels_of_figure g d D fig) as (p & Hp & <-);
    [lia | lia | exact Hfig |].
  exists b, p, n. auto.
Qed.

Lemma viz_gradients_annotation_truncates_witness :
  exists (b : R) (p : panels) (n : Z),
    b_value 40 (IZR 13) (IZR 60) gamma_default = Return b /\
    viz_gradients_panels 40 (IZR 13) (IZR 60) = Return p /\
    annotation (signal p) = "b=" +:+ pretty n /\
    (0 <= b -> IZR n <= b < IZR n + 1) /\
    (b <= 0 -> IZR n - 1 < b <= IZR n).
Proof.
  apply (viz_gradients_annotation_truncates 40 13 60); (lra || lia).
Defined.

(** *** The two sensitivity plots *)

Lemma signal_curve_eval (b : R) :
  signal_curve b =
  Return (map (fun d => ST_equation (b / 1000) d 1) sensitivity_D).
Proof. unfold signal_curve. now rewrite truediv_nonzero by lra. Qed.

Lemma sensitivity_curve_eval (b : R) :
  sensitivity_curve b =
  Return (map Ropp
            (np_diff (map (fun d => ST_equation (b / 1000) d 1)
                          sensitivity_D))).
Proof. unfold sensitivity_curve. now rewrite signal_curve_eval. Qed.

Lemma length_tail {A} (l : list A) : length (tail l) = pred (length l).
Proof. now destruct l. Qed.

Lemma signal_lookup (c : R) (k : nat) :
  (k < 100)%nat ->
  map (fun d => ST_equation c d 1) sensitivity_D !! k
  = Some (exp (- c * (INR k * 0.04))).
Proof.
  intros Hk. unfold sensitivity_D.
  rewrite map_fmap, list_lookup_fmap, arange_n_lookup by exact Hk. cbn.
  unfold ST_equation. f_equal. ring.
Qed.

Lemma sensitivity_lookup (c : R) (k : nat) (x : R) :
  map Ropp (np_diff (map (fun d => ST_equation c d 1) sensitivity_D)) !! k
  = Some x ->
  (k < 99)%nat /\
  x = exp (- c * (INR k * 0.04)) * (1 - exp (- c * 0.04)).
Proof.
  intros H.
  assert (Hk : (k < 99)%nat).
  { apply lookup_lt_Some in H.
    rewrite length_map in H. unfold np_diff in H.
    rewrite length_zip_with, length_tail, length_map in H.
    unfold sensitivity_D in H. rewrite arange_n_length in H. lia. }
  split; [exact Hk |].
  rewrite map_fmap, list_lookup_fmap in H. unfold np_diff in H.
  rewrite lookup_zip_with, lookup_tail in H.
  rewrite !signal_lookup in H by lia.
  cbn [fmap option_fmap option_map mbind option_bind] in H.
  rewrite S_INR in H. injection H as <-.
  replace (- c * ((INR k + 1) * 0.04))
    with (- c * (INR k * 0.04) + - c * 0.04) by ring.
  rewrite exp_plus. ring.
Qed.

Lemma sensitivity_curve_positive_decreasing_real (b : R) :
  0 < b ->
  exists dS : list R,
    sensitivity_curve b = Return dS /\
    length dS = 99%nat /\
    (forall (k : nat) (x : R),
       dS !! k = Some x ->
       x = exp (- (b / 1000) * (INR k * 0.04))
           * (1 - exp (- (b / 1000) * 0.04)) /\
       0 < x) /\
    (forall (k k' : nat) (x x' : R),
       (k < k')%nat -> dS !! k = Some x -> dS !! k' = Some x' -> x' < x).
Proof.
  intros Hb. eexists. split; [apply sensitivity_curve_eval |].
  assert (Hstep : 0 < 1 - exp (- (b / 1000) * 0.04)).
  { assert (exp (- (b / 1000) * 0.04) < exp 0)
      by (apply exp_increasing; lra).
    rewrite exp_0 in *. lra. }
  split.
  { rewrite length_map. unfold np_diff.
    rewrite length_zip_with, length_tail, length_map.
    unfold sensitivity_D. now rewrite arange_n_length. }
  split.
  - intros k x Hx. apply sensitivity_lookup in Hx as [_ ->].
    split; [reflexivity |].
    apply Rmult_lt_0_compat; [apply exp_pos | exact Hstep].
  - intros k k' x x' Hkk Hx Hx'.
    apply sensitivity_lookup in Hx as [_ ->].
    apply sensitivity_lookup in Hx' as [_ ->].
    apply Rmult_lt_compat_r; [exact Hstep |].
    apply exp_increasing.
    assert (INR k < INR k') by now apply lt_INR. nra.
Qed.

Lemma exp_upper_step : 1 - exp (- 0.16) < 0.15.
Proof.
  pose proof (exp_ineq1_le (- 0.02)) as H.
  assert (E : exp (- 0.16) = exp (- 0.02) ^ 8).
  { replace (- 0.16) with (- 0.02 + (- 0.02 + (- 0.02 + (- 0.02 +
      (- 0.02 + (- 0.02 + (- 0.02 + - 0.02))))))) by lra.
    rewrite !exp_plus. ring. }
  assert (H8 : 0.98 ^ 8 <= exp (- 0.02) ^ 8) by (apply pow_incr; lra).
  rewrite E. lra.
Qed.

(** The last plot, for the three values of the loop
    [for b in [1000, 2000, 4000]]: the 99 plotted values of
    [-np.diff(ST)] are positive, fall strictly along D, and stay below
    0.15, the upper end of the y-axis the cell sets. *)
Theorem sensitivity_curve_positive_decreasing (b : R) :
  b = 1000 \/ b = 2000 \/ b = 4000 ->
  exists dS : list R,
    sensitivity_curve b = Return dS /\
    length dS = 99%nat /\
    (forall (k : nat) (x : R), dS !! k = Some x -> 0 < x < 0.15) /\
    (forall (k k' : nat) (x x' : R),
       (k < k')%nat -> dS !! k = Some x -> dS !! k' = Some x' -> x' < x).
Proof.
  intros Hb.
  assert (Hpos : 0 < b <= 4000) by (destruct Hb as [-> | [-> | ->]]; lra).
  destruct (sensitivity_curve_positive_decreasing_real b)
    as (dS & HdS & Hlen & Hval & Hdec); [lra |].
  exists dS. split; [exact HdS |]. split; [exact Hlen |].
  split; [| exact Hdec].
  intros k x Hx. destruct (Hval k x Hx) as [-> Hx0]. split; [exact Hx0 |].
  (* every value is at most the step of the steepest curve at D = 0 *)
  pose proof exp_upper_step as Hup.
  assert (H1 : exp (- (b / 1000) * (INR k * 0.04)) <= 1).
  { rewrite <- exp_0. pose proof (pos_INR k).
    destruct (Req_dec (- (b / 1000) * (INR k * 0.04)) 0) as [-> | Hne];
      [lra |].
    left. apply exp_increasing. nra. }
  assert (H2 : exp (- 0.16) <= exp (- (b / 1000) * 0.04)).
  { destruct (Req_dec (- (b / 1000) * 0.04) (- 0.16)) as [-> | Hne]; [lra |].
    left. apply exp_increasing. lra. }
  pose proof (exp_pos (- (b / 1000) * (INR k * 0.04))).
  pose proof (exp_pos (- (b / 1000) * 0.04)).
  nra.
Qed.

Lemma sensitivity_curve_positive_decreasing_witness :
  exists dS : list R,
    sensitivity_curve 1000 = Return dS /\
    length dS = 99%nat /\
    (forall (k : nat) (x : R), dS !! k = Some x -> 0 < x < 0.15) /\
    (forall (k k' : nat) (x x' : R),
       (k < k')%nat -> dS !! k = Some x -> dS !! k' = Some x' -> x' < x).
Proof. apply (sensitivity_curve_positive_decreasing 1000). now left. Defined.

End PlotsFacts.

(** ** The measurement direction and the slices of [plot_bvecs] *)

Module BvecsFacts.
Import Bvecs.
Local Open Scope R_scope.

(** The scan of [np.argmin]: [best] is the least element seen so far
    and [best_i] its first position. *)
Lemma argmin_from_spec (l pre : list R) (best_i : nat) (best : R) :
  pre !! best_i = Some best ->
  (forall k x, pre !! k = Some x -> best <= x) ->
  (forall k x, (k < best_i)%nat -> pre !! k = Some x -> best < x) ->
  exists m : R,
    (pre ++ l) !! argmin_from best_i best (length pre) l = Some m /\
    (forall k x, (pre ++ l) !! k = Some x -> m <= x) /\
    (forall k x,
       (k < argmin_from best_i best (length pre) l)%nat ->
       (pre ++ l) !! k = Some x -> m < x).
Proof.
  revert pre best_i best.
  induction l as [| y l IH]; intros pre best_i best Hbest Hmin Hfirst.
  - cbn [argmin_from]. rewrite app_nil_r. eauto.
  - cbn [argmin_from].
    assert (Hlen : (best_i < length pre)%nat)
      by now apply lookup_lt_Some in Hbest.
    replace (pre ++ y :: l) with ((pre ++ [y]) ++ l)
      by now rewrite <- app_assoc.
    replace (S (length pre)) with (length (pre ++ [y]))
      by (rewrite length_app; cbn; lia).
    destruct (Rlt_dec y best) as [Hlt | Hge]; apply IH.
    + rewrite lookup_app_r, Nat.sub_diag by lia. reflexivity.
    + intros k x Hk. apply lookup_app_Some in Hk as [Hk | [_ Hk]].
      * specialize (Hmin k x Hk). lra.
      * apply list_lookup_singleton_Some in Hk as [_ <-]. lra.
    + intros k x Hk Hx. rewrite lookup_app_l in Hx by exact Hk.
      specialize (Hmin k x Hx). lra.
    + now rewrite lookup_app_l.
    + intros k x Hk. apply lookup_app_Some in Hk as [Hk | [_ Hk]].
      * exact (Hmin k x Hk).
      * apply list_lookup_singleton_Some in Hk as [_ <-]. lra.
    + intros k x Hk Hx. rewrite lookup_app_l in Hx by lia.
      exact (Hfirst k x Hk Hx).
Qed.

Lemma argmin_spec (l : list R) :
  l <> [] ->
  exists (n : nat) (m : R),
    argmin l = Return n /\ l !! n = Some m /\
    (forall k x, l !! k = Some x -> m <= x) /\
    (forall k x, (k < n)%nat -> l !! k = Some x -> m < x).
Proof.
  destruct l as [| x l]; [congruence | intros _].
  destruct (argmin_from_spec l [x] 0 x) as (m & Hm & Hmin & Hfirst).
  - reflexivity.
  - intros k y Hk. apply list_lookup_singleton_Some in Hk as [_ <-]. lra.
  - intros k y Hk. lia.
  - exists (argmin_from 0 x 1 l), m. cbn [argmin]. auto.
Qed.

(** With more than 10 columns the selection returns, and the volume it
    names is one of the diffusion-weighted ones: [n] is at least 10 (the
    first ten columns are never chosen) and below the number of columns. *)
Theorem closest_bvec_in_range (this_vec : vec3) (bvecs : list vec3) :
  (10 < length bvecs)%nat ->
  exists n : nat,
    closest_bvec this_vec bvecs = Return n /\
    (10 <= n < length bvecs)%nat.
Proof.
  intros Hlen. unfold closest_bvec.
  set (angles := map (fun w => acos (dot this_vec w)) (drop 10 bvecs)).
  assert (Hl : length angles = (length bvecs - 10)%nat).
  { subst angles. now rewrite length_map, length_drop. }
  assert (Hne : angles <> []).
  { intros E. rewrite E in Hl. cbn in Hl. lia. }
  destruct (argmin_spec angles Hne) as (c & m & -> & Hc & _).
  apply lookup_lt_Some in Hc. rewrite Hl in Hc.
  exists (c + 10)%nat. split; [reflexivity | lia].
Qed.

Lemma closest_bvec_in_range_witness :
  exists n : nat,
    closest_bvec (1, 0, 0)
      (replicate 10 (0, 0, 0) ++ [(0, 1, 0); (1, 0, 0); (0, 0, 1)])%R
    = Return n /\
    (10 <= n
     < length (replicate 10 ((0, 0, 0)%R : vec3)
               ++ [(0, 1, 0); (1, 0, 0); (0, 0, 1)])%R)%nat.
Proof.
  apply (closest_bvec_in_range (1, 0, 0)). cbn. lia.
Defined.

(** With at most 10 columns there is no diffusion-weighted direction
    to choose from, and the selection stops with a [ValueError]. *)
Theorem closest_bvec_too_few (this_vec : vec3) (bvecs : list vec3) :
  (length bvecs <= 10)%nat ->
  closest_bvec this_vec bvecs = Raise ValueError.
Proof.
  intros Hlen. unfold closest_bvec.
  rewrite drop_ge by exact Hlen. reflexivity.
Qed.

Lemma closest_bvec_too_few_witness :
  closest_bvec (1, 0, 0) (replicate 10 (0, 0, 0)) = Raise ValueError.
Proof.
  apply (closest_bvec_too_few (1, 0, 0) (replicate 10 (0, 0, 0))).
  cbn. lia.
Defined.

Lemma np_index_in_range (n i : Z) :
  (0 <= i < n)%Z -> np_index n i = Some i.
Proof.
  intros Hi. unfold np_index.
  destruct (Z.leb_spec 0 i), (Z.ltb_spec i n); try lia. reflexivity.
Qed.

Lemma np_index_at_length (n : Z) : (0 < n)%Z -> np_index n n = None.
Proof.
  intros Hn. unfold np_index.
  destruct (Z.leb_spec 0 n), (Z.ltb_spec n n), (Z.leb_spec (- n) n),
    (Z.ltb_spec n 0); try lia; reflexivity.
Qed.

(** The sliders of [plot_bvecs] run from 1 to the length of the axis.
    With every slider inside that range, indexing fails with an
    [IndexError] exactly when one of them is at its top, and otherwise
    shows the planes [x], [y] and [z]; plane 0 is out of reach. *)
Theorem plot_bvecs_slider_top (sx sy sz sn x y z n : Z) :
  (0 <= n < sn)%Z ->
  (1 <= x <= sx)%Z -> (1 <= y <= sy)%Z -> (1 <= z <= sz)%Z ->
  (plot_bvecs_slices (sx, sy, sz, sn) x y z n = None <->
   x = sx \/ y = sy \/ z = sz) /\
  ((x < sx)%Z -> (y < sy)%Z -> (z < sz)%Z ->
   plot_bvecs_slices (sx, sy, sz, sn) x y z n = Some (x, y, z)).
Proof.
  intros Hn Hx Hy Hz. unfold plot_bvecs_slices.
  rewrite (np_index_in_range sn n Hn). cbn [mbind option_bind].
  destruct (Z.eq_dec z sz) as [-> | Hz'].
  { rewrite np_index_at_length by lia. cbn [mbind option_bind].
    split; [split; auto | lia]. }
  rewrite (np_index_in_range sz z) by lia. cbn [mbind option_bind].
  destruct (Z.eq_dec y sy) as [-> | Hy'].
  { rewrite np_index_at_length by lia. cbn [mbind option_bind].
    split; [split; auto | lia]. }
  rewrite (np_index_in_range sy y) by lia. cbn [mbind option_bind].
  destruct (Z.eq_dec x sx) as [-> | Hx'].
  { rewrite np_index_at_length by lia. cbn [mbind option_bind].
    split; [split; auto | lia]. }
  rewrite (np_index_in_range sx x) by lia. cbn [mbind option_bind].
  split; [| reflexivity]. split; [discriminate | lia].
Qed.

Lemma plot_bvecs_slider_top_witness :
  (plot_bvecs_slices (81, 106, 76, 160)%Z 81 53 38 10 = None <->
   81%Z = 81%Z \/ 53%Z = 106%Z \/ 38%Z = 76%Z) /\
  ((81 < 81)%Z -> (53 < 106)%Z -> (38 < 76)%Z ->
   plot_bvecs_slices (81, 106, 76, 160)%Z 81 53 38 10 = Some (81, 53, 38)%Z).
Proof.
  apply (plot_bvecs_slider_top 81 106 76 160 81 53 38 10); lia.
Defined.

End BvecsFacts.

(** ** The root-mean-square errors of the sparse-fascicle notebook *)

Module ResidualsFacts.
Import Residuals.
Local Open Scope R_scope.

Lemma squares_sym (a b : list R) :
  map (fun d => d ^ 2) (zip_with Rminus a b)
  = map (fun d => d ^ 2) (zip_with Rminus b a).
Proof.
  revert b. induction a as [| x a IH]; intros [| y b]; cbn; try reflexivity.
  rewrite IH. f_equal. ring.
Qed.

(** The error does not depend on which of the two arrays is called the
    prediction. *)
Theorem rmse_sym (a b : list R) :
  length a = length b -> rmse a b = rmse b a.
Proof.
  intros _. unfold rmse, np_mean.
  now rewrite squares_sym, !length_map, !length_zip_with, Nat.min_comm.
Qed.

Lemma rmse_sym_witness : rmse [1; 2] [3; 5] = rmse [3; 5] [1; 2].
Proof. apply (rmse_sym [1; 2] [3; 5]). reflexivity. Defined.



End ResidualsFacts.

(** ** Facts about binary64 rounding *)

Module Binary64Facts.
Import Binary64.
Local Open Scope Z_scope.

Abbreviation fexp := (SpecFloat.fexp prec emax).

Lemma fexp_eq e : fexp e = Z.max (e - 53) (-1074).
Proof. reflexivity. Qed.

Lemma pow2_step d : 0 < d -> 2 ^ d = 2 * 2 ^ (d - 1).
Proof.
  intros Hd. replace d with (Z.succ (d - 1)) at 1 by lia.
  apply Z.pow_succ_r. lia.
Qed.

Lemma digits2_pos_bounds m :
  2 ^ (Zpos (digits2_pos m) - 1) <= Zpos m < 2 ^ Zpos (digits2_pos m).
Proof.
  induction m as [m IH | m IH |]; cbn [digits2_pos].
  - rewrite Pos2Z.inj_succ. change (Z.pos m~1) with (2 * Z.pos m + 1).
    pose proof (Pos2Z.is_pos (digits2_pos m)) as Hd.
    revert IH Hd; generalize (Z.pos (digits2_pos m)); intros d IH Hd.
    rewrite (pow2_step (Z.succ d)) by lia.
    replace (Z.succ d - 1) with d by lia.
    rewrite (pow2_step d) in * by lia. lia.
  - rewrite Pos2Z.inj_succ. change (Z.pos m~0) with (2 * Z.pos m).
    pose proof (Pos2Z.is_pos (digits2_pos m)) as Hd.
    revert IH Hd; generalize (Z.pos (digits2_pos m)); intros d IH Hd.
    rewrite (pow2_step (Z.succ d)) by lia.
    replace (Z.succ d - 1) with d by lia.
    rewrite (pow2_step d) in * by lia. lia.
  - cbn. lia.
Qed.

Lemma Zdigits2_bounds m :
  0 < m -> 2 ^ (Zdigits2 m - 1) <= m < 2 ^ Zdigits2 m.
Proof. destruct m as [| p | p]; try lia. intros _. apply digits2_pos_bounds. Qed.

Lemma Zdigits2_pos m : 0 < m -> 0 < Zdigits2 m.
Proof. destruct m; cbn; lia. Qed.

Lemma Zdigits2_unique m d :
  2 ^ (d - 1) <= m < 2 ^ d -> 0 < m -> Zdigits2 m = d.
Proof.
  intros [H1 H2] Hm.
  destruct (Zdigits2_bounds m Hm) as [H3 H4].
  pose proof (Zdigits2_pos m Hm) as Hd.
  assert (0 < d).
  { destruct (Z.lt_ge_cases 0 d) as [| Hle]; [assumption | exfalso].
    assert (2 ^ d <= 1); [| lia].
    destruct (Z.eq_dec d 0) as [-> | Hne]; [cbn; lia |].
    rewrite Z.pow_neg_r; lia. }
  assert (d - 1 < Zdigits2 m).
  { apply (Z.pow_lt_mono_r_iff 2); lia. }
  assert (Zdigits2 m - 1 < d).
  { apply (Z.pow_lt_mono_r_iff 2); lia. }
  lia.
Qed.

(** ** Right shifts *)

Lemma iter_pos_nat {A} (f : A -> A) p x :
  iter_pos f p x = Nat.iter (Pos.to_nat p) f x.
Proof.
  revert x. induction p as [p IH | p IH |]; intros x; cbn [iter_pos].
  - rewrite !IH, Pos2Nat.inj_xI.
    replace (S (2 * Pos.to_nat p))%nat
      with (Pos.to_nat p + (Pos.to_nat p + 1))%nat by lia.
    rewrite !Nat.iter_add. reflexivity.
  - rewrite !IH, Pos2Nat.inj_xO.
    replace (2 * Pos.to_nat p)%nat
      with (Pos.to_nat p + Pos.to_nat p)%nat by lia.
    rewrite Nat.iter_add. reflexivity.
  - reflexivity.
Qed.

Lemma shr_1_m mrs :
  0 <= shr_m mrs -> shr_m (shr_1 mrs) = shr_m mrs / 2.
Proof.
  destruct mrs as [m r s]. cbn [shr_m]. intros Hm.
  rewrite <- Z.div2_div.
  destruct m as [| [p | p |] | p]; try reflexivity; lia.
Qed.

Lemma shr_1_r mrs :
  0 <= shr_m mrs -> shr_r (shr_1 mrs) = Z.odd (shr_m mrs).
Proof.
  destruct mrs as [m r s]. cbn [shr_m]. intros Hm.
  destruct m as [| [p | p |] | p]; try reflexivity; lia.
Qed.

Lemma shr_1_s mrs : shr_s (shr_1 mrs) = shr_r mrs || shr_s mrs.
Proof. destruct mrs as [[| [p | p |] | [p | p |]] r s]; reflexivity. Qed.

Lemma shr_m_iter k mrs :
  0 <= shr_m mrs ->
  shr_m (Nat.iter k shr_1 mrs) = shr_m mrs / 2 ^ Z.of_nat k.
Proof.
  intros Hm. induction k as [| k IH].
  - cbn. now rewrite Z.div_1_r.
  - assert (Hk : 0 <= shr_m (Nat.iter k shr_1 mrs)).
    { rewrite IH. apply Z.div_pos; lia. }
    rewrite Nat.iter_succ, shr_1_m by exact Hk. rewrite IH.
    rewrite Nat2Z.inj_succ, Z.pow_succ_r by lia.
    rewrite Z.div_div by lia. f_equal. lia.
Qed.

Lemma shr_1_loc k m rem mrs :
  0 <= k -> 0 <= shr_m mrs ->
  m = shr_m mrs * 2 ^ k + rem -> 0 <= rem < 2 ^ k ->
  loc_of_shr_record mrs = loc_of_rem k rem ->
  exists rem',
    m = shr_m (shr_1 mrs) * 2 ^ (k + 1) + rem' /\
    0 <= rem' < 2 ^ (k + 1) /\
    loc_of_shr_record (shr_1 mrs) = loc_of_rem (k + 1) rem'.
Proof.
  intros Hk Hq Hm Hrem Hloc.
  pose proof (shr_1_m mrs Hq) as Em.
  pose proof (shr_1_r mrs Hq) as Er.
  pose proof (shr_1_s mrs) as Es.
  assert (Hrs : shr_r mrs || shr_s mrs = negb (rem =? 0)).
  { revert Hloc. unfold loc_of_rem.
    destruct mrs as [q [] []]; cbn; destruct (rem =? 0); cbn; congruence. }
  rewrite Hrs in Es. clear Hloc Hrs.
  destruct (shr_1 mrs) as [q' r' s']. cbn [shr_m shr_r shr_s] in *.
  subst q' r' s'. set (q := shr_m mrs) in *. clearbody q.
  assert (E2 : 2 ^ (k + 1) = 2 * 2 ^ k) by (rewrite Z.pow_add_r; lia).
  assert (HP : 0 < 2 ^ k) by (apply Z.pow_pos_nonneg; lia).
  revert E2 HP Hrem Hm. generalize (2 ^ k). intros P E2 HP Hrem Hm.
  pose proof (Zdiv2_odd_eqn q) as Hq2. rewrite Z.div2_div in Hq2.
  exists (rem + (if Z.odd q then P else 0)).
  unfold loc_of_rem. rewrite E2.
  destruct (Z.odd q); cbn [loc_of_shr_record].
  - split; [nia |]. split; [lia |].
    destruct (Z.eqb_spec rem 0) as [-> | Hne]; cbn [negb].
    + replace (0 + P =? 0) with false by (symmetry; apply Z.eqb_neq; lia).
      replace (2 * (0 + P) ?= 2 * P) with Eq; [reflexivity |].
      symmetry. apply Z.compare_eq_iff. lia.
    + replace (rem + P =? 0) with false by (symmetry; apply Z.eqb_neq; lia).
      replace (2 * (rem + P) ?= 2 * P) with Gt; [reflexivity |].
      symmetry. apply Z.compare_gt_iff. lia.
  - split; [nia |]. split; [lia |]. rewrite Z.add_0_r.
    destruct (Z.eqb_spec rem 0) as [-> | Hne]; cbn [negb]; [reflexivity |].
    replace (2 * rem ?= 2 * P) with Lt; [reflexivity |].
    symmetry. apply Z.compare_lt_iff. lia.
Qed.

Lemma shr_iter_exact (k : nat) (m : Z) :
  0 <= m ->
  let mrs := Nat.iter k shr_1 (Build_shr_record m false false) in
  exists rem,
    m = shr_m mrs * 2 ^ Z.of_nat k + rem /\
    0 <= rem < 2 ^ Z.of_nat k /\
    loc_of_shr_record mrs = loc_of_rem (Z.of_nat k) rem.
Proof.
  intros Hm. induction k as [| k IH]; cbn zeta.
  - exists 0. change (Z.of_nat 0) with 0. rewrite Z.pow_0_r.
    cbn [Nat.iter nat_rect shr_m loc_of_shr_record].
    split; [lia |]. split; [lia | reflexivity].
  - destruct IH as (rem & E & Hrem & Hloc).
    rewrite Nat.iter_succ, Nat2Z.inj_succ. unfold Z.succ.
    apply (shr_1_loc _ m rem); try assumption; [lia |].
    rewrite shr_m_iter by exact Hm. apply Z.div_pos; cbn [shr_m]; lia.
Qed.

Lemma round_nearest_even_spec m k q rem :
  0 <= k -> m = q * 2 ^ k + rem -> 0 <= rem < 2 ^ k ->
  let a := round_nearest_even q (loc_of_rem k rem) in
  q <= a <= q + 1 /\ nearest_even m k a.
Proof.
  intros Hk Hm Hrem. unfold nearest_even, loc_of_rem.
  assert (HP : 0 < 2 ^ k) by (apply Z.pow_pos_nonneg; lia).
  revert HP Hrem Hm. generalize (2 ^ k). intros P HP Hrem Hm.
  destruct (Z.eqb_spec rem 0) as [-> | Hne]; cbn [round_nearest_even].
  - cbn zeta. split; [lia |]. split; [lia |]. lia.
  - destruct (Z.compare_spec (2 * rem) P) as [E | E | E];
      cbn [round_nearest_even]; cbn zeta.
    + destruct (Z.even q) eqn:Ev.
      * split; [lia |]. split; [lia | now intros _].
      * split; [lia |]. split; [nia |]. intros _.
        rewrite Z.even_add, Ev. reflexivity.
    + split; [lia |]. split; lia.
    + split; [lia |]. split; nia.
Qed.

(** ** The rounding step in closed form *)

Lemma shr_nat mrs e n :
  0 <= n -> shr mrs e n = (Nat.iter (Z.to_nat n) shr_1 mrs, e + n).
Proof.
  intros Hn. destruct n as [| p | p]; [| | lia].
  - cbn. now rewrite Z.add_0_r.
  - cbn [shr Z.to_nat]. now rewrite iter_pos_nat.
Qed.

Lemma shr_id mrs e n : n <= 0 -> shr mrs e n = (mrs, e).
Proof. destruct n; [reflexivity | lia | reflexivity]. Qed.

Lemma pow2_le_inv a b : 0 <= b -> 2 ^ a <= 2 ^ b -> a <= b.
Proof.
  intros Hb H. destruct (Z.le_gt_cases a b) as [| Hlt]; [assumption |].
  assert (2 ^ b < 2 ^ a) by (apply Z.pow_lt_mono_r; lia). lia.
Qed.

Lemma Zdigits2_nonneg m : 0 <= Zdigits2 m.
Proof. destruct m; cbn; lia. Qed.

Lemma Zdigits2_lt m : 0 <= m -> m < 2 ^ Zdigits2 m.
Proof.
  intros Hm. destruct (Z.eq_dec m 0) as [-> | Hne]; [cbn; lia |].
  apply Zdigits2_bounds. lia.
Qed.

Lemma Zdigits2_shift m k :
  0 < m -> 0 <= k < Zdigits2 m -> Zdigits2 (m / 2 ^ k) = Zdigits2 m - k.
Proof.
  intros Hm Hk. destruct (Zdigits2_bounds m Hm) as [Hlo Hhi].
  assert (HP : 0 < 2 ^ k) by (apply Z.pow_pos_nonneg; lia).
  assert (E1 : 2 ^ (Zdigits2 m - 1) = 2 ^ k * 2 ^ (Zdigits2 m - k - 1)).
  { rewrite <- Z.pow_add_r by lia. f_equal. lia. }
  assert (E2 : 2 ^ Zdigits2 m = 2 ^ k * 2 ^ (Zdigits2 m - k)).
  { rewrite <- Z.pow_add_r by lia. f_equal. lia. }
  assert (Hq1 : 2 ^ (Zdigits2 m - k - 1) <= m / 2 ^ k).
  { apply Z.div_le_lower_bound; lia. }
  assert (Hq2 : m / 2 ^ k < 2 ^ (Zdigits2 m - k)).
  { apply Z.div_lt_upper_bound; lia. }
  apply Zdigits2_unique; [split; assumption |].
  assert (0 < 2 ^ (Zdigits2 m - k - 1)) by (apply Z.pow_pos_nonneg; lia).
  lia.
Qed.

Lemma Zdigits2_shift_zero m k :
  0 <= m -> Zdigits2 m <= k -> m / 2 ^ k = 0.
Proof.
  intros Hm Hk. apply Z.div_small. split; [assumption |].
  pose proof (Zdigits2_lt m Hm). pose proof (Zdigits2_nonneg m).
  assert (2 ^ Zdigits2 m <= 2 ^ k) by (apply Z.pow_le_mono_r; lia). lia.
Qed.

(** After the first shift the mantissa sits on its own exponent. *)
Lemma fexp_shifted m e :
  0 <= m ->
  let c := fexp (Zdigits2 m + e) in
  e <= c -> fexp (Zdigits2 (m / 2 ^ (c - e)) + c) = c.
Proof.
  intros Hm c Hc. pose proof (Zdigits2_nonneg m) as Hd.
  destruct (Z.lt_ge_cases (c - e) (Zdigits2 m)) as [Hlt | Hge].
  - rewrite Zdigits2_shift.
    + replace (Zdigits2 m - (c - e) + c) with (Zdigits2 m + e) by lia.
      reflexivity.
    + destruct (Z.eq_dec m 0) as [-> | Hne]; [cbn in Hlt; lia | lia].
    + lia.
  - rewrite Zdigits2_shift_zero by (assumption || lia).
    change (Zdigits2 0) with 0. subst c. rewrite !fexp_eq in *. lia.
Qed.

Lemma round_nearest_even_range q l :
  q <= round_nearest_even q l <= q + 1.
Proof.
  destruct l as [| []]; cbn [round_nearest_even]; try lia.
  destruct (Z.even q); lia.
Qed.

Lemma Zdigits2_round q a :
  0 <= q -> q <= a <= q + 1 -> Zdigits2 q <= 53 ->
  Zdigits2 a <= 53 /\ a < 2 ^ 53 \/ Zdigits2 a = 54 /\ a = 2 ^ 53 /\ Zdigits2 q = 53.
Proof.
  intros Hq Ha Hdq.
  destruct (Z.eq_dec a 0) as [-> | Hne]; [left; cbn; lia |].
  assert (Hapos : 0 < a) by lia.
  destruct (Zdigits2_bounds a Hapos) as [Hlo Hhi].
  pose proof (Zdigits2_lt q Hq) as Hqhi.
  pose proof (Zdigits2_nonneg q) as Hdq0.
  assert (Hda : Zdigits2 a - 1 <= Zdigits2 q).
  { apply pow2_le_inv; lia. }
  assert (Hmono : 2 ^ Zdigits2 q <= 2 ^ 53) by (apply Z.pow_le_mono_r; lia).
  destruct (Z.le_gt_cases (Zdigits2 a) 53) as [Hle | Hgt].
  - left. split; [assumption |].
    assert (2 ^ Zdigits2 a <= 2 ^ 53) by (apply Z.pow_le_mono_r; lia). lia.
  - right. assert (Ea : Zdigits2 a = 54) by lia.
    assert (Eq : Zdigits2 q = 53) by lia.
    rewrite Ea in Hlo. rewrite Eq in Hqhi. change (54 - 1) with 53 in Hlo.
    lia.
Qed.

Lemma second_shift s q a E :
  0 <= q -> q <= a <= q + 1 -> fexp (Zdigits2 q + E) = E ->
  (let '(mrs, e) := shr_fexp prec emax a E loc_Exact in
   match shr_m mrs with
   | Z0 => S754_zero s
   | Zpos m => if e <=? emax - prec then S754_finite s m e else S754_infinity s
   | Zneg _ => S754_nan
   end) = encode s a E.
Proof.
  intros Hq Ha HE. rewrite fexp_eq in HE.
  pose proof (Zdigits2_nonneg q) as Hdq0.
  assert (Hdq : Zdigits2 q <= 53) by lia.
  unfold shr_fexp. cbn [shr_record_of_loc]. rewrite fexp_eq.
  destruct (Zdigits2_round q a Hq Ha Hdq) as [[Hda Hlt] | (Hda & -> & Edq)].
  - rewrite shr_id by lia. cbn [shr_m]. unfold encode.
    destruct a as [| p | p]; [reflexivity | | lia].
    replace (Z.pos p =? 2 ^ 53) with false by (symmetry; apply Z.eqb_neq; lia).
    reflexivity.
  - rewrite Hda. replace (Z.max (54 + E - 53) (-1074) - E) with 1 by lia.
    reflexivity.
Qed.

(** [binary_round_aux] on an exact non-negative mantissa that needs no
    left shift: shift right to the exponent of the format, round to
    nearest even, renormalise. *)
Lemma binary_round_aux_exact s m e :
  0 <= m ->
  let c := fexp (Zdigits2 m + e) in
  e <= c ->
  exists a,
    m / 2 ^ (c - e) <= a <= m / 2 ^ (c - e) + 1 /\
    nearest_even m (c - e) a /\
    binary_round_aux prec emax s m e loc_Exact = encode s a c.
Proof.
  intros Hm c Hc. unfold binary_round_aux.
  unfold shr_fexp at 1. fold c. cbn [shr_record_of_loc].
  rewrite shr_nat by lia. replace (e + (c - e)) with c by lia.
  destruct (shr_iter_exact (Z.to_nat (c - e)) m Hm) as (rem & Em & Hrem & Hloc).
  rewrite Z2Nat.id in Em, Hrem, Hloc by lia.
  set (mrs := Nat.iter (Z.to_nat (c - e)) shr_1 (Build_shr_record m false false)) in *.
  assert (Eq : shr_m mrs = m / 2 ^ (c - e)).
  { unfold mrs. rewrite shr_m_iter by exact Hm. cbn [shr_m].
    rewrite Z2Nat.id by lia. reflexivity. }
  rewrite Hloc.
  destruct (round_nearest_even_spec m (c - e) (shr_m mrs) rem) as [Hrange Hne];
    [lia | exact Em | exact Hrem |].
  exists (round_nearest_even (shr_m mrs) (loc_of_rem (c - e) rem)).
  rewrite <- Eq. split; [exact Hrange |]. split; [exact Hne |].
  apply second_shift with (q := shr_m mrs).
  - rewrite Eq. apply Z.div_pos; [lia | apply Z.pow_pos_nonneg; lia].
  - exact Hrange.
  - rewrite Eq. apply fexp_shifted; assumption.
Qed.

(** ** Values *)

Lemma bpow_add a b : bpow (a + b) = (bpow a * bpow b)%R.
Proof. unfold bpow. apply powerRZ_add. lra. Qed.

Lemma bpow_pos e : (0 < bpow e)%R.
Proof. apply powerRZ_lt. lra. Qed.

Lemma IZR_pow2 k : 0 <= k -> IZR (2 ^ k) = bpow k.
Proof.
  intros Hk. destruct k as [| p | p]; [reflexivity | | lia].
  unfold bpow. change (2 ^ Z.pos p) with (Z.pow_pos 2 p).
  apply Zpower_pos_powerRZ.
Qed.

Lemma bpow_lt a b : a < b -> (bpow a < bpow b)%R.
Proof.
  intros H. replace b with (a + (b - a)) by lia. rewrite bpow_add.
  rewrite <- (Rmult_1_r (bpow a)) at 1.
  apply Rmult_lt_compat_l; [apply bpow_pos |].
  rewrite <- IZR_pow2 by lia. apply IZR_lt.
  assert (2 ^ 1 <= 2 ^ (b - a)) by (apply Z.pow_le_mono_r; lia). lia.
Qed.

Lemma bpow_le a b : a <= b -> (bpow a <= bpow b)%R.
Proof.
  intros H. destruct (Z.eq_dec a b) as [-> | Hne]; [lra |].
  left. apply bpow_lt. lia.
Qed.

Lemma bpow_lt_inv a b : (bpow a < bpow b)%R -> a < b.
Proof.
  intros H. destruct (Z.lt_ge_cases a b) as [| Hge]; [assumption |].
  pose proof (bpow_le b a Hge). lra.
Qed.

Lemma bpow_le_inv a b : (bpow a <= bpow b)%R -> a <= b.
Proof.
  intros H. destruct (Z.le_gt_cases a b) as [| Hgt]; [assumption |].
  pose proof (bpow_lt b a Hgt). lra.
Qed.

(** The value m * 2^e lies between 2^(d-1+e) and 2^(d+e). *)
Lemma value_bounds m e :
  0 < m ->
  (bpow (Zdigits2 m - 1 + e) <= IZR m * bpow e < bpow (Zdigits2 m + e))%R.
Proof.
  intros Hm. destruct (Zdigits2_bounds m Hm) as [Hlo Hhi].
  pose proof (Zdigits2_pos m Hm) as Hd. pose proof (bpow_pos e) as He.
  rewrite !bpow_add, <- (IZR_pow2 (Zdigits2 m - 1)), <- (IZR_pow2 (Zdigits2 m))
    by lia. split.
  - apply Rmult_le_compat_r; [lra | now apply IZR_le].
  - apply Rmult_lt_compat_r; [lra | now apply IZR_lt].
Qed.

Lemma mag_le m1 e1 m2 e2 :
  0 < m1 -> 0 < m2 ->
  (IZR m1 * bpow e1 <= IZR m2 * bpow e2)%R ->
  Zdigits2 m1 + e1 <= Zdigits2 m2 + e2.
Proof.
  intros H1 H2 Hle.
  destruct (value_bounds m1 e1 H1) as [Hlo _].
  destruct (value_bounds m2 e2 H2) as [_ Hhi].
  assert (Zdigits2 m1 - 1 + e1 < Zdigits2 m2 + e2); [| lia].
  apply bpow_lt_inv. lra.
Qed.

(** Nearest-even rounding at one exponent is monotone. *)
Lemma nearest_even_mono m1 e1 a1 m2 e2 a2 c :
  e1 <= c -> e2 <= c ->
  nearest_even m1 (c - e1) a1 -> nearest_even m2 (c - e2) a2 ->
  (IZR m1 * bpow e1 <= IZR m2 * bpow e2)%R ->
  a1 <= a2.
Proof.
  intros Hc1 Hc2 [Hn1 Ht1] [Hn2 Ht2] Hle.
  destruct (Z.le_gt_cases a1 a2) as [| Hgt]; [assumption | exfalso].
  pose proof (bpow_pos e1) as He1. pose proof (bpow_pos e2) as He2.
  pose proof (bpow_pos c) as HB.
  assert (E1 : (IZR (2 ^ (c - e1)) * bpow e1 = bpow c)%R).
  { rewrite IZR_pow2, <- bpow_add by lia. f_equal. lia. }
  assert (E2 : (IZR (2 ^ (c - e2)) * bpow e2 = bpow c)%R).
  { rewrite IZR_pow2, <- bpow_add by lia. f_equal. lia. }
  (* bounds on both sides, in units of the common ulp *)
  assert (L1 : (2 * (IZR a1 * bpow c - IZR m1 * bpow e1) <= bpow c)%R).
  { rewrite <- E1.
    replace (2 * (IZR a1 * (IZR (2 ^ (c - e1)) * bpow e1) - IZR m1 * bpow e1))%R
      with (IZR (2 * (a1 * 2 ^ (c - e1) - m1)) * bpow e1)%R
      by (rewrite mult_IZR, minus_IZR, mult_IZR; ring).
    apply Rmult_le_compat_r; [lra | apply IZR_le; lia]. }
  assert (L2 : (- bpow c <= 2 * (IZR a2 * bpow c - IZR m2 * bpow e2))%R).
  { rewrite <- E2.
    replace (2 * (IZR a2 * (IZR (2 ^ (c - e2)) * bpow e2) - IZR m2 * bpow e2))%R
      with (IZR (2 * (a2 * 2 ^ (c - e2) - m2)) * bpow e2)%R
      by (rewrite mult_IZR, minus_IZR, mult_IZR; ring).
    replace (- (IZR (2 ^ (c - e2)) * bpow e2))%R
      with (IZR (- 2 ^ (c - e2)) * bpow e2)%R by (rewrite opp_IZR; ring).
    apply Rmult_le_compat_r; [lra | apply IZR_le; lia]. }
  assert (Ha : (IZR a2 + 1 <= IZR a1)%R).
  { rewrite <- plus_IZR. apply IZR_le. lia. }
  assert (Ha' : (IZR a2 * bpow c + bpow c <= IZR a1 * bpow c)%R) by nra.
  (* hence everything is tight *)
  assert (T1 : (2 * (IZR a1 * bpow c - IZR m1 * bpow e1) = bpow c)%R) by lra.
  assert (T2 : (2 * (IZR a2 * bpow c - IZR m2 * bpow e2) = - bpow c)%R) by lra.
  assert (Ta : (IZR a1 * bpow c = IZR a2 * bpow c + bpow c)%R) by lra.
  assert (Ea : a1 = a2 + 1).
  { apply eq_IZR. rewrite plus_IZR. nra. }
  assert (Ev1 : Z.even a1 = true).
  { apply Ht1. rewrite <- E1 in T1.
    assert (T : (IZR (2 * (a1 * 2 ^ (c - e1) - m1)) = IZR (2 ^ (c - e1)))%R).
    { apply (Rmult_eq_reg_r (bpow e1)); [| lra].
      rewrite mult_IZR, minus_IZR, mult_IZR. lra. }
    apply eq_IZR in T. lia. }
  assert (Ev2 : Z.even a2 = true).
  { apply Ht2. rewrite <- E2 in T2.
    assert (T : (IZR (2 * (a2 * 2 ^ (c - e2) - m2)) = IZR (- 2 ^ (c - e2)))%R).
    { apply (Rmult_eq_reg_r (bpow e2)); [| lra].
      rewrite mult_IZR, minus_IZR, mult_IZR, opp_IZR. lra. }
    apply eq_IZR in T. lia. }
  rewrite Ea, Z.even_add, Ev2 in Ev1. discriminate.
Qed.

Lemma fexp_mono x y : x <= y -> fexp x <= fexp y.
Proof. rewrite !fexp_eq. lia. Qed.

Lemma rounded_value_mono m1 e1 a1 m2 e2 a2 :
  0 < m1 -> 0 < m2 ->
  let c1 := fexp (Zdigits2 m1 + e1) in
  let c2 := fexp (Zdigits2 m2 + e2) in
  e1 <= c1 -> e2 <= c2 ->
  m1 / 2 ^ (c1 - e1) <= a1 <= m1 / 2 ^ (c1 - e1) + 1 ->
  m2 / 2 ^ (c2 - e2) <= a2 <= m2 / 2 ^ (c2 - e2) + 1 ->
  nearest_even m1 (c1 - e1) a1 -> nearest_even m2 (c2 - e2) a2 ->
  (IZR m1 * bpow e1 <= IZR m2 * bpow e2)%R ->
  (IZR a1 * bpow c1 <= IZR a2 * bpow c2)%R.
Proof.
  intros Hm1 Hm2 c1 c2 Hc1 Hc2 Ha1 Ha2 Hn1 Hn2 Hle.
  pose proof (mag_le m1 e1 m2 e2 Hm1 Hm2 Hle) as Hmag.
  pose proof (fexp_mono _ _ Hmag) as Hc. fold c1 c2 in Hc.
  destruct (Z.eq_dec c1 c2) as [E | Hne].
  - rewrite <- E in *.
    pose proof (nearest_even_mono m1 e1 a1 m2 e2 a2 c1 Hc1 Hc2 Hn1 Hn2 Hle).
    apply Rmult_le_compat_r; [left; apply bpow_pos | now apply IZR_le].
  - assert (Hlt : c1 < c2) by lia. clear Hne Hc.
    pose proof (Zdigits2_pos m1 Hm1) as Hd1.
    pose proof (Zdigits2_pos m2 Hm2) as Hd2.
    destruct (Zdigits2_bounds m1 Hm1) as [_ Hhi1].
    destruct (Zdigits2_bounds m2 Hm2) as [Hlo2 _].
    assert (Ec2 : c2 = Zdigits2 m2 + e2 - 53).
    { subst c1 c2. rewrite !fexp_eq in *. lia. }
    assert (Hmag' : Zdigits2 m1 + e1 <= c2 + 52).
    { subst c1 c2. rewrite !fexp_eq in *. lia. }
    apply Rle_trans with (bpow (c2 + 52)).
    + (* the smaller value rounds to at most 2^(c2+52) *)
      destruct (Z.le_gt_cases (c1 - e1) (Zdigits2 m1)) as [Hk | Hk].
      * assert (Hq : m1 / 2 ^ (c1 - e1) < 2 ^ (Zdigits2 m1 - (c1 - e1))).
        { apply Z.div_lt_upper_bound; [apply Z.pow_pos_nonneg; lia |].
          rewrite <- Z.pow_add_r by lia.
          replace (c1 - e1 + (Zdigits2 m1 - (c1 - e1))) with (Zdigits2 m1)
            by lia.
          exact Hhi1. }
        apply Rle_trans with (bpow (Zdigits2 m1 - (c1 - e1)) * bpow c1)%R.
        -- apply Rmult_le_compat_r; [left; apply bpow_pos |].
           rewrite <- IZR_pow2 by lia. apply IZR_le. lia.
        -- rewrite <- bpow_add. apply bpow_le. lia.
      * rewrite Zdigits2_shift_zero in Ha1 by lia.
        apply Rle_trans with (1 * bpow c1)%R.
        -- apply Rmult_le_compat_r; [left; apply bpow_pos |].
           apply IZR_le. lia.
        -- rewrite Rmult_1_l. apply bpow_le. lia.
    + (* the larger value rounds to at least 2^(c2+52) *)
      assert (Hq : 2 ^ 52 <= m2 / 2 ^ (c2 - e2)).
      { apply Z.div_le_lower_bound; [apply Z.pow_pos_nonneg; lia |].
        rewrite <- Z.pow_add_r by lia.
        replace (c2 - e2 + 52) with (Zdigits2 m2 - 1) by lia.
        exact Hlo2. }
      rewrite (Z.add_comm c2 52), bpow_add.
      apply Rmult_le_compat_r; [left; apply bpow_pos |].
      rewrite <- IZR_pow2 by lia. apply IZR_le. lia.
Qed.

Lemma Zdigits2_mono q a : 0 <= q <= a -> Zdigits2 q <= Zdigits2 a.
Proof.
  intros [Hq Ha]. destruct (Z.eq_dec q 0) as [-> | Hne].
  - apply Zdigits2_nonneg.
  - destruct (Zdigits2_bounds q) as [Hlo _]; [lia |].
    pose proof (Zdigits2_lt a ltac:(lia)) as Hhi.
    pose proof (Zdigits2_nonneg a).
    assert (Zdigits2 q - 1 < Zdigits2 a); [| lia].
    apply (Z.pow_lt_mono_r_iff 2); lia.
Qed.

(** What [encode] returns, and what it is worth. *)
Lemma encode_class s a c q :
  0 <= q -> q <= a <= q + 1 -> fexp (Zdigits2 q + c) = c ->
  a = 0 /\ encode s a c = S754_zero s
  \/ (exists m e,
        encode s a c = S754_finite s m e /\
        valid_binary prec emax (S754_finite s m e) = true /\
        (IZR (Zpos m) * bpow e = IZR a * bpow c)%R /\
        (IZR a * bpow c < bpow 1024)%R)
  \/ encode s a c = S754_infinity s /\ (bpow 1024 <= IZR a * bpow c)%R.
Proof.
  intros Hq Ha HE.
  pose proof (Zdigits2_nonneg q) as Hdq0.
  assert (Hdq : Zdigits2 q <= 53) by (rewrite fexp_eq in HE; lia).
  assert (Hc : -1074 <= c) by (rewrite fexp_eq in HE; lia).
  destruct (Z.eq_dec a 0) as [-> | Hne]; [left; split; reflexivity |].
  right. assert (Hapos : 0 < a) by lia.
  pose proof (bpow_pos c) as HBc.
  destruct (Zdigits2_round q a Hq Ha Hdq) as [[Hda Hlt] | (Hda & -> & Edq)].
  - (* the rounded mantissa still has at most 53 bits *)
    assert (Hcan : fexp (Zdigits2 a + c) = c).
    { pose proof (Zdigits2_mono q a ltac:(lia)) as Hmono.
      assert (Hda' : Zdigits2 a <= Zdigits2 q + 1).
      { destruct (Zdigits2_bounds a Hapos) as [Hlo _].
        pose proof (Zdigits2_lt q Hq) as Hqhi.
        assert (Zdigits2 a - 1 <= Zdigits2 q); [| lia].
        apply pow2_le_inv; lia. }
      rewrite fexp_eq in *. lia. }
    unfold encode. destruct a as [| p | p]; try lia.
    replace (Z.pos p =? 2 ^ 53) with false by (symmetry; apply Z.eqb_neq; lia).
    unfold fin_or_inf. destruct (Z.leb_spec c 971) as [Hle | Hgt].
    + left. exists p, c. split; [reflexivity |].
      split; [| split; [reflexivity |]].
      * cbn [valid_binary]. unfold bounded, canonical_mantissa.
        change (Z.pos (digits2_pos p)) with (Zdigits2 (Z.pos p)).
        rewrite Hcan, Z.eqb_refl. cbn [andb]. apply Z.leb_le.
        unfold emax, prec. lia.
      * apply Rlt_le_trans with (bpow 53 * bpow c)%R.
        -- apply Rmult_lt_compat_r; [assumption |].
           rewrite <- IZR_pow2 by lia. now apply IZR_lt.
        -- rewrite <- bpow_add. apply bpow_le. lia.
    + right. split; [reflexivity |].
      assert (Edq : Zdigits2 q = 53) by (rewrite fexp_eq in HE; lia).
      assert (Hq52 : 2 ^ 52 <= q).
      { destruct (Zdigits2_bounds q) as [Hlo _].
        - destruct (Z.eq_dec q 0) as [-> | ]; [discriminate Edq | lia].
        - rewrite Edq in Hlo. exact Hlo. }
      apply Rle_trans with (bpow 52 * bpow c)%R.
      * rewrite <- bpow_add. apply bpow_le. lia.
      * apply Rmult_le_compat_r; [lra |].
        rewrite <- IZR_pow2 by lia. apply IZR_le. lia.
  - (* the mantissa rounded up to 2^53 *)
    unfold encode. change (2 ^ 53) with (Z.pos (2 ^ 53)) at 1.
    cbn iota. rewrite Z.eqb_refl. unfold fin_or_inf.
    assert (EV : (IZR (2 ^ 53) * bpow c = bpow (c + 54 - 1))%R).
    { rewrite IZR_pow2 by lia. rewrite <- bpow_add. f_equal. lia. }
    destruct (Z.leb_spec (c + 1) 971) as [Hle | Hgt].
    + left. exists (2 ^ 52)%positive, (c + 1). split; [reflexivity |].
      split; [| split].
      * cbn [valid_binary]. unfold bounded, canonical_mantissa.
        change (Z.pos (digits2_pos (2 ^ 52))) with 53.
        replace (fexp (53 + (c + 1)) =? c + 1) with true
          by (symmetry; apply Z.eqb_eq; rewrite fexp_eq; lia).
        cbn [andb]. apply Z.leb_le. unfold emax, prec. lia.
      * rewrite EV. change (Z.pos (2 ^ 52)) with (2 ^ 52).
        rewrite IZR_pow2 by lia. rewrite <- bpow_add. f_equal. lia.
      * rewrite EV. apply bpow_lt. lia.
    + right. split; [reflexivity |]. rewrite EV. apply bpow_le. lia.
Qed.

(** ** Floats as values *)

Lemma F2R_pos m e : F2R (S754_finite false m e) = (IZR (Zpos m) * bpow e)%R.
Proof. unfold F2R, bpow. ring. Qed.

Lemma F2R_neg m e : F2R (S754_finite true m e) = (- (IZR (Zpos m) * bpow e))%R.
Proof. unfold F2R, bpow. ring. Qed.

Lemma value_pos m e : (0 < IZR (Zpos m) * bpow e)%R.
Proof.
  apply Rmult_lt_0_compat; [apply IZR_lt; lia | apply bpow_pos].
Qed.

Lemma nonneg_inv x :
  nonneg x ->
  (exists s, x = S754_zero s) \/ (exists m e, x = S754_finite false m e)
  \/ x = S754_infinity false.
Proof.
  unfold nonneg, vle. destruct x as [s | [] | | [] m e]; try tauto; eauto.
  rewrite F2R_neg. cbn [F2R]. pose proof (value_pos m e). lra.
Qed.

Lemma valid_finite_inv s m e :
  valid (S754_finite s m e) ->
  fexp (Zdigits2 (Zpos m) + e) = e /\ e <= 971.
Proof.
  unfold valid. cbn [valid_binary]. unfold bounded, canonical_mantissa.
  intros H. apply andb_true_iff in H as [H1 H2].
  apply Z.eqb_eq in H1. apply Z.leb_le in H2. split; [exact H1 |].
  unfold emax, prec in H2. lia.
Qed.

(** The exact product of two numbers of the format never needs a left
    shift before it is rounded. *)
Lemma product_exponent mx ex my ey :
  fexp (Zdigits2 (Zpos mx) + ex) = ex ->
  fexp (Zdigits2 (Zpos my) + ey) = ey ->
  ex + ey <= fexp (Zdigits2 (Zpos (mx * my)) + (ex + ey)).
Proof.
  intros Hx Hy.
  destruct (Zdigits2_bounds (Zpos mx)) as [Hx1 _]; [lia |].
  destruct (Zdigits2_bounds (Zpos my)) as [Hy1 _]; [lia |].
  pose proof (Zdigits2_pos (Zpos mx) ltac:(lia)) as Hdx.
  pose proof (Zdigits2_pos (Zpos my) ltac:(lia)) as Hdy.
  pose proof (Zdigits2_lt (Zpos (mx * my)) ltac:(lia)) as Hhi.
  pose proof (Zdigits2_nonneg (Zpos (mx * my))) as Hd.
  assert (Hd' : Zdigits2 (Zpos mx) + Zdigits2 (Zpos my) - 2
                < Zdigits2 (Zpos (mx * my))).
  { apply (Z.pow_lt_mono_r_iff 2); [lia | lia |].
    replace (Zdigits2 (Zpos mx) + Zdigits2 (Zpos my) - 2)
      with ((Zdigits2 (Zpos mx) - 1) + (Zdigits2 (Zpos my) - 1)) by lia.
    rewrite Z.pow_add_r by lia.
    apply Z.le_lt_trans with (Z.pos (mx * my)); [| exact Hhi].
    rewrite Pos2Z.inj_mul. apply Z.mul_le_mono_nonneg; try assumption;
      apply Z.pow_nonneg; lia. }
  rewrite fexp_eq in *. lia.
Qed.

(** [binary_round_aux] on an exact mantissa, with the facts the
    monotonicity argument needs. *)
Lemma round_spec s m e :
  0 <= m ->
  let c := fexp (Zdigits2 m + e) in
  let q := m / 2 ^ (c - e) in
  e <= c ->
  exists a,
    0 <= q /\ q <= a <= q + 1 /\ fexp (Zdigits2 q + c) = c /\
    nearest_even m (c - e) a /\
    binary_round_aux prec emax s m e loc_Exact = encode s a c.
Proof.
  intros Hm c q Hc.
  destruct (binary_round_aux_exact s m e Hm Hc) as (a & Ha & Hn & E).
  exists a. split; [| split; [exact Ha | split; [| split; assumption]]].
  - apply Z.div_pos; [lia | apply Z.pow_pos_nonneg; lia].
  - apply fexp_shifted; assumption.
Qed.

Lemma round_class s m e :
  0 <= m -> e <= fexp (Zdigits2 m + e) ->
  let r := binary_round_aux prec emax s m e loc_Exact in
  r = S754_zero s
  \/ (exists m' e', r = S754_finite s m' e' /\ valid r)
  \/ r = S754_infinity s.
Proof.
  intros Hm Hc r.
  destruct (round_spec s m e Hm Hc) as (a & Hq & Ha & HE & _ & E).
  fold r in E.
  destruct (encode_class s a _ _ Hq Ha HE)
    as [[_ E'] | [(m' & e' & E' & V & _) | [E' _]]]; rewrite E' in E.
  - now left.
  - right; left. exists m', e'. split; [exact E |]. rewrite E. exact V.
  - now right; right.
Qed.

Lemma encode_vle a1 c1 q1 a2 c2 q2 :
  0 <= q1 -> q1 <= a1 <= q1 + 1 -> fexp (Zdigits2 q1 + c1) = c1 ->
  0 <= q2 -> q2 <= a2 <= q2 + 1 -> fexp (Zdigits2 q2 + c2) = c2 ->
  (IZR a1 * bpow c1 <= IZR a2 * bpow c2)%R ->
  vle (encode false a1 c1) (encode false a2 c2).
Proof.
  intros Hq1 Ha1 HE1 Hq2 Ha2 HE2 Hle.
  destruct (encode_class false a1 c1 q1 Hq1 Ha1 HE1)
    as [[-> ->] | [(m1 & e1 & -> & _ & EV1 & Hlt1) | [-> Hge1]]];
  destruct (encode_class false a2 c2 q2 Hq2 Ha2 HE2)
    as [[-> ->] | [(m2 & e2 & -> & _ & EV2 & Hlt2) | [-> Hge2]]];
  cbn [vle]; try exact I; rewrite ?F2R_pos; cbn [F2R].
  - lra.
  - pose proof (value_pos m2 e2). lra.
  - pose proof (value_pos m1 e1). lra.
  - lra.
  - pose proof (bpow_pos 1024). lra.
  - lra.
Qed.

(** Rounding is monotone: the larger exact value gives the larger
    float. *)
Lemma round_mono m1 e1 m2 e2 :
  0 < m1 -> 0 < m2 ->
  e1 <= fexp (Zdigits2 m1 + e1) -> e2 <= fexp (Zdigits2 m2 + e2) ->
  (IZR m1 * bpow e1 <= IZR m2 * bpow e2)%R ->
  vle (binary_round_aux prec emax false m1 e1 loc_Exact)
      (binary_round_aux prec emax false m2 e2 loc_Exact).
Proof.
  intros Hm1 Hm2 Hc1 Hc2 Hle.
  destruct (round_spec false m1 e1 ltac:(lia) Hc1)
    as (a1 & Hq1 & Ha1 & HE1 & Hn1 & ->).
  destruct (round_spec false m2 e2 ltac:(lia) Hc2)
    as (a2 & Hq2 & Ha2 & HE2 & Hn2 & ->).
  apply (encode_vle a1 _ _ a2 _ _ Hq1 Ha1 HE1 Hq2 Ha2 HE2).
  apply rounded_value_mono; assumption.
Qed.

(** A rounded value overflows only if the exact one reaches 2^1023. *)
Lemma round_overflow s m e :
  0 < m -> e <= fexp (Zdigits2 m + e) ->
  binary_round_aux prec emax s m e loc_Exact = S754_infinity s ->
  (bpow 1023 <= IZR m * bpow e)%R.
Proof.
  intros Hm Hc Hinf.
  destruct (round_spec s m e ltac:(lia) Hc) as (a & Hq & Ha & HE & _ & E).
  rewrite Hinf in E.
  destruct (encode_class s a _ _ Hq Ha HE)
    as [[_ E'] | [(m' & e' & E' & _) | [_ Hge]]];
    [rewrite E' in E; discriminate E | rewrite E' in E; discriminate E |].
  destruct (value_bounds m e Hm) as [Hlo Hhi].
  set (c := fexp (Zdigits2 m + e)) in *.
  apply Rle_trans with (bpow (Zdigits2 m - 1 + e)); [| exact Hlo].
  apply bpow_le.
  (* a <= q + 1 <= 2^(d - k), so a * 2^c <= 2^(d + e) *)
  pose proof (Zdigits2_pos m Hm) as Hd.
  destruct (Zdigits2_bounds m Hm) as [_ Hmhi].
  destruct (Z.le_gt_cases (c - e) (Zdigits2 m)) as [Hk | Hk].
  - assert (Hq' : m / 2 ^ (c - e) < 2 ^ (Zdigits2 m - (c - e))).
    { apply Z.div_lt_upper_bound; [apply Z.pow_pos_nonneg; lia |].
      rewrite <- Z.pow_add_r by lia.
      replace (c - e + (Zdigits2 m - (c - e))) with (Zdigits2 m) by lia.
      exact Hmhi. }
    assert (HV : (IZR a * bpow c <= bpow (Zdigits2 m + e))%R).
    { apply Rle_trans with (bpow (Zdigits2 m - (c - e)) * bpow c)%R.
      - apply Rmult_le_compat_r; [left; apply bpow_pos |].
        rewrite <- IZR_pow2 by lia. apply IZR_le. lia.
      - rewrite <- bpow_add. apply bpow_le. lia. }
    assert (1024 <= Zdigits2 m + e); [apply bpow_le_inv; lra | lia].
  - rewrite Zdigits2_shift_zero in Ha by lia.
    assert (HV : (IZR a * bpow c <= bpow c)%R).
    { rewrite <- (Rmult_1_l (bpow c)) at 2.
      apply Rmult_le_compat_r; [left; apply bpow_pos | apply IZR_le; lia]. }
    assert (1024 <= c) by (apply bpow_le_inv; lra).
    subst c. rewrite fexp_eq in *. lia.
Qed.

(** *** Multiplication *)

Lemma fmul_valid x y : valid x -> valid y -> valid (fmul x y).
Proof.
  intros Vx Vy.
  destruct x as [sx | sx | | sx mx ex], y as [sy | sy | | sy my ey];
    try reflexivity.
  apply valid_finite_inv in Vx as [Hx _]. apply valid_finite_inv in Vy as [Hy _].
  pose proof (product_exponent mx ex my ey Hx Hy) as Hc.
  unfold fmul. cbn [SFmul].
  destruct (round_class (xorb sx sy) (Zpos (mx * my)) (ex + ey)
              (Pos2Z.is_nonneg _) Hc)
    as [-> | [(m & e & E & V) | ->]]; [reflexivity | exact V | reflexivity].
Qed.

Lemma fmul_pos_exponent mx ex my ey :
  valid (S754_finite false mx ex) -> valid (S754_finite false my ey) ->
  ex + ey <= fexp (Zdigits2 (Zpos (mx * my)) + (ex + ey)).
Proof.
  intros Vx Vy.
  apply valid_finite_inv in Vx as [Hx _]. apply valid_finite_inv in Vy as [Hy _].
  now apply product_exponent.
Qed.

Lemma fmul_pos_class mx ex my ey :
  valid (S754_finite false mx ex) -> valid (S754_finite false my ey) ->
  let r := binary_round_aux prec emax false (Zpos (mx * my)) (ex + ey)
             loc_Exact in
  r = S754_zero false
  \/ (exists m e, r = S754_finite false m e /\ valid r)
  \/ r = S754_infinity false.
Proof.
  intros Vx Vy. apply round_class; [apply Pos2Z.is_nonneg |].
  now apply fmul_pos_exponent.
Qed.

Lemma fmul_pos_mono mx1 ex1 my1 ey1 mx2 ex2 my2 ey2 :
  valid (S754_finite false mx1 ex1) -> valid (S754_finite false my1 ey1) ->
  valid (S754_finite false mx2 ex2) -> valid (S754_finite false my2 ey2) ->
  (IZR (Zpos (mx1 * my1)) * bpow (ex1 + ey1)
   <= IZR (Zpos (mx2 * my2)) * bpow (ex2 + ey2))%R ->
  vle (fmul (S754_finite false mx1 ex1) (S754_finite false my1 ey1))
      (fmul (S754_finite false mx2 ex2) (S754_finite false my2 ey2)).
Proof.
  intros Vx1 Vy1 Vx2 Vy2 Hle. unfold fmul. cbn [SFmul xorb].
  apply round_mono; try lia; try (now apply fmul_pos_exponent). exact Hle.
Qed.

Lemma nonneg_vle x y : nonneg x -> vle x y -> nonneg y.
Proof.
  intros Hx Hxy. destruct (nonneg_inv x Hx) as [[s ->] | [(m & e & ->) | ->]];
    destruct y as [sy | [] | | [] my ey]; cbn [vle nonneg] in *;
    try tauto; rewrite ?F2R_pos, ?F2R_neg in *; cbn [F2R] in *;
    try lra.
Qed.

Ltac fmul_class :=
  repeat match goal with
    | V1 : valid (S754_finite false ?mx ?ex),
      V2 : valid (S754_finite false ?my ?ey) |- context
        [binary_round_aux prec emax false (Z.pos (?mx * ?my)) (?ex + ?ey)
           loc_Exact] =>
        let E := fresh "E" in
        destruct (fmul_pos_class mx ex my ey V1 V2)
          as [E | [(? & ? & E & _) | E]];
        rewrite E in *
    end.

(** Multiplication is monotone on the non-negative floats, wherever it
    does not produce [nan] (that is, [inf * 0]). *)
Lemma fmul_mono x1 y1 x2 y2 :
  valid x1 -> valid y1 -> valid x2 -> valid y2 ->
  nonneg x1 -> nonneg y1 -> vle x1 x2 -> vle y1 y2 ->
  is_nan (fmul x1 y1) = false -> is_nan (fmul x2 y2) = false ->
  vle (fmul x1 y1) (fmul x2 y2).
Proof.
  intros Vx1 Vy1 Vx2 Vy2 Nx1 Ny1 Hx Hy.
  pose proof (nonneg_vle _ _ Nx1 Hx) as Nx2.
  pose proof (nonneg_vle _ _ Ny1 Hy) as Ny2.
  destruct (nonneg_inv _ Nx1) as [[sx1 ->] | [(mx1 & ex1 & ->) | ->]];
  destruct (nonneg_inv _ Ny1) as [[sy1 ->] | [(my1 & ey1 & ->) | ->]];
  destruct (nonneg_inv _ Nx2) as [[sx2 ->] | [(mx2 & ex2 & ->) | ->]];
  destruct (nonneg_inv _ Ny2) as [[sy2 ->] | [(my2 & ey2 & ->) | ->]];
  clear Nx1 Ny1 Nx2 Ny2;
  unfold fmul; cbn [SFmul xorb]; cbn [vle] in Hx, Hy; intros N1 N2;
  try discriminate N1; try discriminate N2; try contradiction;
  rewrite ?F2R_pos in Hx, Hy; cbn [F2R] in Hx, Hy;
  try (match goal with
       | H : (IZR (Z.pos ?m) * bpow ?e <= 0)%R |- _ =>
           pose proof (value_pos m e); exfalso; lra
       end);
  try (apply fmul_pos_mono; try assumption;
       rewrite !Pos2Z.inj_mul, !mult_IZR, !bpow_add;
       pose proof (value_pos mx1 ex1); pose proof (value_pos my1 ey1);
       nra);
  fmul_class; cbn [vle]; try exact I; try discriminate;
  rewrite ?F2R_pos; cbn [F2R]; try lra;
  try (match goal with
       | |- (0 <= IZR (Z.pos ?m) * bpow ?e)%R =>
           pose proof (value_pos m e); lra
       end).
Qed.

Lemma fmul_nonneg x y :
  valid x -> valid y -> nonneg x -> nonneg y ->
  is_nan (fmul x y) = false -> nonneg (fmul x y).
Proof.
  intros Vx Vy Nx Ny.
  destruct (nonneg_inv _ Nx) as [[sx ->] | [(mx & ex & ->) | ->]];
  destruct (nonneg_inv _ Ny) as [[sy ->] | [(my & ey & ->) | ->]];
  unfold fmul, nonneg; cbn [SFmul xorb]; intros N;
  try discriminate N; fmul_class; cbn [vle]; try exact I;
  rewrite ?F2R_pos; cbn [F2R]; try lra.
  match goal with
  | |- (0 <= IZR (Z.pos ?m) * bpow ?e)%R => pose proof (value_pos m e); lra
  end.
Qed.

Lemma fmul_nan_inv x y :
  is_nan (fmul x y) = false -> is_nan x = false /\ is_nan y = false.
Proof. destruct x, y; cbn; intros; split; congruence. Qed.

Lemma fmul_finite_class x y :
  valid x -> valid y -> is_finite x = true -> is_finite y = true ->
  is_nan (fmul x y) = false.
Proof.
  intros Vx Vy Fx Fy.
  destruct x as [sx | sx | | sx mx ex], y as [sy | sy | | sy my ey];
    try discriminate; try reflexivity.
  apply valid_finite_inv in Vx as [Hx _]. apply valid_finite_inv in Vy as [Hy _].
  pose proof (product_exponent mx ex my ey Hx Hy) as Hc.
  unfold fmul. cbn [SFmul].
  destruct (round_class (xorb sx sy) (Zpos (mx * my)) (ex + ey)
              (Pos2Z.is_nonneg _) Hc)
    as [-> | [(m & e & -> & _) | ->]]; reflexivity.
Qed.

(** A number of the format is below 2^(53 + e), so below 2^1024. *)
Lemma valid_value_lt s m e :
  valid (S754_finite s m e) -> (IZR (Zpos m) * bpow e < bpow (53 + e))%R.
Proof.
  intros V. apply valid_finite_inv in V as [Hcan _].
  destruct (value_bounds (Zpos m) e ltac:(lia)) as [_ Hhi].
  eapply Rlt_le_trans; [exact Hhi |]. apply bpow_le.
  rewrite fexp_eq in Hcan. lia.
Qed.

(** Multiplying by a factor below 2^-1 never overflows. *)
Lemma fmul_small_finite x y :
  valid x -> valid y -> is_finite x = true ->
  match y with S754_finite _ _ e => e <= -54 | _ => False end ->
  is_finite (fmul x y) = true.
Proof.
  intros Vx Vy Fx Hy.
  destruct y as [sy | sy | | sy my ey]; try contradiction.
  destruct x as [sx | sx | | sx mx ex]; try discriminate; [reflexivity |].
  pose proof (valid_value_lt _ _ _ Vx) as Hvx.
  pose proof (valid_value_lt _ _ _ Vy) as Hvy.
  pose proof Vx as Vx'. pose proof Vy as Vy'.
  apply valid_finite_inv in Vx' as [Hx Hex].
  apply valid_finite_inv in Vy' as [Hy' _].
  pose proof (product_exponent mx ex my ey Hx Hy') as Hc.
  unfold fmul. cbn [SFmul].
  destruct (round_class (xorb sx sy) (Zpos (mx * my)) (ex + ey)
              (Pos2Z.is_nonneg _) Hc)
    as [-> | [(m & e & -> & _) | E]]; try reflexivity.
  exfalso. apply round_overflow in E; [| lia | exact Hc].
  rewrite Pos2Z.inj_mul, mult_IZR, bpow_add in E.
  pose proof (value_pos mx ex) as Px. pose proof (value_pos my ey) as Py.
  assert (H1 : (bpow (53 + ex) <= bpow 1024)%R) by (apply bpow_le; lia).
  assert (H2 : (bpow (53 + ey) <= bpow (-1))%R) by (apply bpow_le; lia).
  assert (H3 : (bpow 1024 * bpow (-1) = bpow 1023)%R).
  { rewrite <- bpow_add. reflexivity. }
  assert (H4 : (IZR (Z.pos mx) * bpow ex * (IZR (Z.pos my) * bpow ey)
                < bpow 1024 * bpow (-1))%R).
  { apply Rmult_le_0_lt_compat; lra. }
  lra.
Qed.

(** *** The order of the floats and the order of their values *)

Lemma vle_refl x : is_nan x = false -> vle x x.
Proof. destruct x as [s | [] | | s m e]; cbn; intros; try lra; congruence. Qed.

Lemma vle_inf x : nonneg x -> vle x (S754_infinity false).
Proof. unfold nonneg. destruct x as [s | [] | | s m e]; cbn; tauto. Qed.

Lemma canonical_lt m1 e1 m2 e2 :
  fexp (Zdigits2 (Zpos m1) + e1) = e1 ->
  fexp (Zdigits2 (Zpos m2) + e2) = e2 ->
  e1 < e2 ->
  (IZR (Zpos m1) * bpow e1 < IZR (Zpos m2) * bpow e2)%R.
Proof.
  intros H1 H2 Hlt. rewrite fexp_eq in H1, H2.
  destruct (value_bounds (Zpos m1) e1 ltac:(lia)) as [_ Hhi].
  destruct (value_bounds (Zpos m2) e2 ltac:(lia)) as [Hlo _].
  eapply Rlt_le_trans; [exact Hhi |].
  eapply Rle_trans; [| exact Hlo]. apply bpow_le. lia.
Qed.

Lemma same_exponent_le m1 m2 e :
  (IZR (Zpos m1) * bpow e <= IZR (Zpos m2) * bpow e)%R <-> (m1 <= m2)%positive.
Proof.
  pose proof (bpow_pos e) as He. split.
  - intros H. apply Rmult_le_reg_r in H; [| exact He].
    apply le_IZR in H. lia.
  - intros H. apply Rmult_le_compat_r; [lra | apply IZR_le; lia].
Qed.

Lemma SFleb_pos m1 e1 m2 e2 :
  valid (S754_finite false m1 e1) -> valid (S754_finite false m2 e2) ->
  SFleb (S754_finite false m1 e1) (S754_finite false m2 e2) = true
  <-> (IZR (Zpos m1) * bpow e1 <= IZR (Zpos m2) * bpow e2)%R.
Proof.
  intros V1 V2.
  apply valid_finite_inv in V1 as [H1 _]. apply valid_finite_inv in V2 as [H2 _].
  unfold SFleb, SFcompare.
  destruct (Z.compare_spec e1 e2) as [-> | Hlt | Hgt].
  - rewrite same_exponent_le.
    change (Pos.compare_cont Eq m1 m2) with (Pos.compare m1 m2).
    destruct (Pos.compare_spec m1 m2); split; intros; try reflexivity;
      try discriminate; lia.
  - pose proof (canonical_lt m1 e1 m2 e2 H1 H2 Hlt). split; [lra | reflexivity].
  - pose proof (canonical_lt m2 e2 m1 e1 H2 H1 Hgt). split; [discriminate | lra].
Qed.

Lemma SFleb_neg m1 e1 m2 e2 :
  valid (S754_finite true m1 e1) -> valid (S754_finite true m2 e2) ->
  SFleb (S754_finite true m1 e1) (S754_finite true m2 e2) = true
  <-> (IZR (Zpos m2) * bpow e2 <= IZR (Zpos m1) * bpow e1)%R.
Proof.
  intros V1 V2.
  apply valid_finite_inv in V1 as [H1 _]. apply valid_finite_inv in V2 as [H2 _].
  unfold SFleb, SFcompare.
  destruct (Z.compare_spec e1 e2) as [-> | Hlt | Hgt].
  - rewrite same_exponent_le.
    change (Pos.compare_cont Eq m1 m2) with (Pos.compare m1 m2).
    destruct (Pos.compare_spec m1 m2); cbn [CompOpp]; split; intros;
      try reflexivity; try discriminate; lia.
  - pose proof (canonical_lt m1 e1 m2 e2 H1 H2 Hlt). split; [discriminate | lra].
  - pose proof (canonical_lt m2 e2 m1 e1 H2 H1 Hgt). split; [lra | reflexivity].
Qed.

(** On the numbers of the format, Python's [<=] is the order of the
    values. *)
Lemma fle_vle x y : valid x -> valid y -> fle x y = true <-> vle x y.
Proof.
  intros Vx Vy. unfold fle.
  destruct x as [sx | [] | | [] mx ex], y as [sy | [] | | [] my ey];
    cbn [vle]; rewrite ?F2R_pos, ?F2R_neg; cbn [F2R];
    try (cbn; split; intros; (reflexivity || discriminate || lra
                              || exact I || contradiction)).
  all: try (pose proof (value_pos my ey)); try (pose proof (value_pos mx ex)).
  all: try (cbn; split; intros; (reflexivity || discriminate || lra)).
  - rewrite SFleb_neg by assumption. split; lra.
  - apply SFleb_pos; assumption.
Qed.

Lemma nonneg_fle x : valid x -> fle (S754_zero false) x = true <-> nonneg x.
Proof. intros V. now apply fle_vle. Qed.

(** *** Rounding an inexact mantissa, division and subtraction keep
    the format *)

Lemma shr_record_of_loc_m m l : shr_m (shr_record_of_loc m l) = m.
Proof. destruct l as [| []]; reflexivity. Qed.

Lemma binary_round_aux_shape s m e l :
  0 <= m ->
  let c := fexp (Zdigits2 m + e) in
  let q := m / 2 ^ (c - e) in
  e <= c ->
  exists a,
    0 <= q /\ q <= a <= q + 1 /\ fexp (Zdigits2 q + c) = c /\
    binary_round_aux prec emax s m e l = encode s a c.
Proof.
  intros Hm c q Hc. unfold binary_round_aux.
  unfold shr_fexp at 1. fold c.
  rewrite shr_nat by lia. replace (e + (c - e)) with c by lia.
  set (mrs := Nat.iter (Z.to_nat (c - e)) shr_1 (shr_record_of_loc m l)).
  assert (Eq : shr_m mrs = q).
  { unfold mrs. rewrite shr_m_iter by (rewrite shr_record_of_loc_m; exact Hm).
    rewrite shr_record_of_loc_m, Z2Nat.id by lia. reflexivity. }
  assert (Hq : 0 <= q).
  { apply Z.div_pos; [lia | apply Z.pow_pos_nonneg; lia]. }
  pose proof (round_nearest_even_range (shr_m mrs) (loc_of_shr_record mrs))
    as Hrange.
  exists (round_nearest_even (shr_m mrs) (loc_of_shr_record mrs)).
  rewrite <- Eq. split; [rewrite Eq; exact Hq |]. split; [exact Hrange |].
  assert (HE : fexp (Zdigits2 (shr_m mrs) + c) = c).
  { rewrite Eq. apply fexp_shifted; assumption. }
  split; [exact HE |].
  apply second_shift with (q := shr_m mrs);
    [rewrite Eq; exact Hq | exact Hrange | exact HE].
Qed.

Lemma round_class_loc s m e l :
  0 <= m -> e <= fexp (Zdigits2 m + e) ->
  let r := binary_round_aux prec emax s m e l in
  r = S754_zero s
  \/ (exists m' e', r = S754_finite s m' e' /\ valid r)
  \/ r = S754_infinity s.
Proof.
  intros Hm Hc r.
  destruct (binary_round_aux_shape s m e l Hm Hc) as (a & Hq & Ha & HE & E).
  fold r in E.
  destruct (encode_class s a _ _ Hq Ha HE)
    as [[_ E'] | [(m' & e' & E' & V & _) | [E' _]]]; rewrite E' in E.
  - now left.
  - right; left. exists m', e'. split; [exact E |]. rewrite E. exact V.
  - now right; right.
Qed.

(** The quotient the division hands to the rounding step is long
    enough. *)
Lemma SFdiv_core_binary_shape mx ex my ey :
  let '(mz, ez, _) := SFdiv_core_binary prec emax (Zpos mx) ex (Zpos my) ey in
  0 <= mz /\ ez <= fexp (Zdigits2 mz + ez).
Proof.
  unfold SFdiv_core_binary.
  set (d1 := Zdigits2 (Zpos mx)). set (d2 := Zdigits2 (Zpos my)).
  set (e' := Z.min (fexp (d1 + ex - (d2 + ey))) (ex - ey)).
  set (s := ex - ey - e').
  assert (Hs : 0 <= s) by (unfold s, e'; lia).
  set (m' := match s with
             | Z0 => Zpos mx
             | Zpos _ => Z.shiftl (Zpos mx) s
             | Zneg _ => 0
             end).
  assert (Em : m' = Zpos mx * 2 ^ s).
  { unfold m'. destruct s as [| p | p]; [rewrite Z.pow_0_r; lia | | lia].
    apply Z.shiftl_mul_pow2. lia. }
  clearbody m'.
  pose proof (Z_div_mod m' (Zpos my) ltac:(lia)) as Hdiv.
  destruct (Z.div_eucl m' (Z.pos my)) as [q r] eqn:Ediv.
  destruct Hdiv as [Hqr Hr].
  assert (HP : 0 < 2 ^ s) by (apply Z.pow_pos_nonneg; lia).
  assert (Hq0 : 0 <= q) by nia.
  split; [exact Hq0 |].
  destruct (Z.le_gt_cases e' (-1074)) as [Hle | Hgt];
    [rewrite fexp_eq; lia |].
  (* a normal result: the quotient has at least 53 bits *)
  destruct (Zdigits2_bounds (Zpos mx) ltac:(lia)) as [Hx1 _].
  destruct (Zdigits2_bounds (Zpos my) ltac:(lia)) as [_ Hy2].
  fold d1 in Hx1. fold d2 in Hy2.
  pose proof (Zdigits2_pos (Zpos mx) ltac:(lia)) as Hd1. fold d1 in Hd1.
  pose proof (Zdigits2_pos (Zpos my) ltac:(lia)) as Hd2. fold d2 in Hd2.
  assert (Hk : 53 <= d1 + s - d2).
  { unfold s, e', SpecFloat.fexp, emin, prec, emax in *. lia. }
  assert (Hq : 2 ^ (d1 + s - d2 - 1) <= q).
  { assert (Hlow : Zpos my * 2 ^ (d1 + s - d2 - 1) <= m').
    { rewrite Em.
      apply Z.le_trans with (2 ^ d2 * 2 ^ (d1 + s - d2 - 1)).
      - apply Z.mul_le_mono_nonneg_r; [apply Z.pow_nonneg |]; lia.
      - rewrite <- Z.pow_add_r by lia.
        replace (d2 + (d1 + s - d2 - 1)) with ((d1 - 1) + s) by lia.
        rewrite Z.pow_add_r by lia.
        apply Z.mul_le_mono_nonneg_r; lia. }
    assert (0 < 2 ^ (d1 + s - d2 - 1)) by (apply Z.pow_pos_nonneg; lia).
    nia. }
  assert (Hdq : d1 + s - d2 <= Zdigits2 q).
  { assert (0 < 2 ^ (d1 + s - d2 - 1)) by (apply Z.pow_pos_nonneg; lia).
    pose proof (Zdigits2_lt q Hq0) as Hhi.
    pose proof (Zdigits2_nonneg q).
    assert (d1 + s - d2 - 1 < Zdigits2 q); [| lia].
    apply (Z.pow_lt_mono_r_iff 2); lia. }
  clearbody d1 d2. unfold s, e', SpecFloat.fexp, emin, prec, emax in *. lia.
Qed.

Lemma fdiv_finite_class sx mx ex sy my ey :
  let r := fdiv (S754_finite sx mx ex) (S754_finite sy my ey) in
  r = S754_zero (xorb sx sy)
  \/ (exists m e, r = S754_finite (xorb sx sy) m e /\ valid r)
  \/ r = S754_infinity (xorb sx sy).
Proof.
  unfold fdiv. cbn [SFdiv].
  pose proof (SFdiv_core_binary_shape mx ex my ey) as H.
  destruct (SFdiv_core_binary prec emax (Z.pos mx) ex (Z.pos my) ey)
    as [[mz ez] lz].
  destruct H as [Hm Hc]. now apply round_class_loc.
Qed.

Lemma fdiv_valid x y : valid (fdiv x y).
Proof.
  destruct x as [sx | sx | | sx mx ex], y as [sy | sy | | sy my ey];
    try reflexivity.
  destruct (fdiv_finite_class sx mx ex sy my ey)
    as [-> | [(m & e & E & V) | ->]]; [reflexivity | exact V | reflexivity].
Qed.

Lemma Pos_iter_xO m d : Zpos (Pos.iter xO m d) = Zpos m * 2 ^ Zpos d.
Proof.
  induction d as [| d IH] using Pos.peano_ind.
  - cbn [Pos.iter]. rewrite Z.pow_1_r. lia.
  - rewrite Pos.iter_succ, Pos2Z.inj_succ, Z.pow_succ_r by lia.
    change (Z.pos (Pos.iter xO m d)~0) with (2 * Z.pos (Pos.iter xO m d)).
    rewrite IH. ring.
Qed.

Lemma shl_align_spec m e e' :
  let '(mz, ez) := shl_align m e e' in
  ez = Z.min e e' /\ Zpos mz = Zpos m * 2 ^ (e - ez).
Proof.
  unfold shl_align. destruct (e' - e) as [| d | d] eqn:E.
  - split; [lia |]. rewrite Z.sub_diag, Z.pow_0_r. lia.
  - split; [lia |]. rewrite Z.sub_diag, Z.pow_0_r. lia.
  - split; [lia |]. rewrite Pos_iter_xO. f_equal. f_equal. lia.
Qed.

Lemma Zdigits2_shl m k :
  0 < m -> 0 <= k -> Zdigits2 (m * 2 ^ k) = Zdigits2 m + k.
Proof.
  intros Hm Hk. destruct (Zdigits2_bounds m Hm) as [Hlo Hhi].
  pose proof (Zdigits2_pos m Hm) as Hd.
  assert (HP : 0 < 2 ^ k) by (apply Z.pow_pos_nonneg; lia).
  apply Zdigits2_unique; [| nia].
  replace (Zdigits2 m + k - 1) with (Zdigits2 m - 1 + k) by lia.
  rewrite !Z.pow_add_r by lia. split; nia.
Qed.

Lemma value_shl m e k :
  0 <= k -> (IZR (m * 2 ^ k) * bpow (e - k) = IZR m * bpow e)%R.
Proof.
  intros Hk. rewrite mult_IZR, IZR_pow2 by exact Hk.
  rewrite Rmult_assoc, <- bpow_add. do 2 f_equal. lia.
Qed.

(** [binary_round]: the mantissa is first shifted left as far as the
    format wants, so the rounding step finds it exact or too long. *)
Lemma binary_round_spec s m e :
  exists mz ez,
    binary_round prec emax s m e
    = binary_round_aux prec emax s (Zpos mz) ez loc_Exact /\
    ez <= fexp (Zdigits2 (Zpos mz) + ez) /\
    (IZR (Zpos mz) * bpow ez = IZR (Zpos m) * bpow e)%R.
Proof.
  unfold binary_round.
  pose proof (shl_align_spec m e (fexp (Z.pos (digits2_pos m) + e))) as H.
  destruct (shl_align m e (fexp (Z.pos (digits2_pos m) + e))) as [mz ez].
  destruct H as [Ez Em]. exists mz, ez. split; [reflexivity |].
  change (Z.pos (digits2_pos m)) with (Zdigits2 (Zpos m)) in Ez.
  assert (Hk : 0 <= e - ez) by lia.
  split.
  - rewrite Em, Zdigits2_shl by lia.
    replace (Zdigits2 (Z.pos m) + (e - ez) + ez) with (Zdigits2 (Z.pos m) + e)
      by lia.
    lia.
  - rewrite Em. replace ez with (e - (e - ez)) at 2 by lia.
    now apply value_shl.
Qed.

Lemma binary_round_class s m e :
  let r := binary_round prec emax s m e in
  r = S754_zero s
  \/ (exists m' e', r = S754_finite s m' e' /\ valid r)
  \/ r = S754_infinity s.
Proof.
  destruct (binary_round_spec s m e) as (mz & ez & E & Hc & _).
  cbn zeta. rewrite E. apply round_class; [lia | exact Hc].
Qed.

Lemma binary_normalize_valid z e :
  valid (binary_normalize prec emax z e false).
Proof.
  destruct z as [| m | m]; cbn [binary_normalize]; [reflexivity | |].
  - destruct (binary_round_class false m e)
      as [-> | [(m' & e' & E & V) | ->]]; [reflexivity | exact V | reflexivity].
  - destruct (binary_round_class true m e)
      as [-> | [(m' & e' & E & V) | ->]]; [reflexivity | exact V | reflexivity].
Qed.

Lemma fopp_valid x : valid x -> valid (fopp x).
Proof. now destruct x. Qed.

Lemma fsub_valid x y : valid x -> valid y -> valid (fsub x y).
Proof.
  intros Vx Vy.
  destruct x as [sx | sx | | sx mx ex], y as [sy | sy | | sy my ey];
    try reflexivity; try exact Vx; try exact Vy;
    try (destruct sx, sy; reflexivity).
  unfold fsub. cbn [SFsub]. apply binary_normalize_valid.
Qed.

(** *** Subtraction *)

(** From exponent -1074 upwards nothing rounds to zero. *)
Lemma round_nonzero s m e :
  0 < m -> -1074 <= e -> e <= fexp (Zdigits2 m + e) ->
  let r := binary_round_aux prec emax s m e loc_Exact in
  (exists m' e', r = S754_finite s m' e' /\ valid r) \/ r = S754_infinity s.
Proof.
  intros Hm He Hc r.
  destruct (round_spec s m e ltac:(lia) Hc) as (a & Hq & Ha & HE & _ & E).
  fold r in E.
  assert (Hq1 : 0 < m / 2 ^ (fexp (Zdigits2 m + e) - e)).
  { destruct (Z.eq_dec (fexp (Zdigits2 m + e) - e) 0) as [-> | Hne].
    - rewrite Z.pow_0_r, Z.div_1_r. exact Hm.
    - pose proof (Zdigits2_pos m Hm) as Hd.
      assert (Hk : fexp (Zdigits2 m + e) - e = Zdigits2 m - 53).
      { rewrite fexp_eq in *. lia. }
      rewrite Hk in *.
      pose proof (Zdigits2_shift m (Zdigits2 m - 53) Hm ltac:(lia)) as Hdq.
      destruct (Z.eq_dec (m / 2 ^ (Zdigits2 m - 53)) 0) as [E0 | Hne0].
      + rewrite E0 in Hdq. cbn in Hdq. lia.
      + lia. }
  destruct (encode_class s a _ _ Hq Ha HE)
    as [[E0 _] | [(m' & e' & E' & V & _) | [E' _]]].
  - lia.
  - left. exists m', e'. rewrite E, E'. split; [reflexivity | exact V].
  - right. now rewrite E.
Qed.

Lemma binary_round_spec_min s m e :
  -1074 <= e ->
  exists mz ez,
    binary_round prec emax s m e
    = binary_round_aux prec emax s (Zpos mz) ez loc_Exact /\
    -1074 <= ez /\
    ez <= fexp (Zdigits2 (Zpos mz) + ez) /\
    (IZR (Zpos mz) * bpow ez = IZR (Zpos m) * bpow e)%R.
Proof.
  intros He. unfold binary_round.
  pose proof (shl_align_spec m e (fexp (Z.pos (digits2_pos m) + e))) as H.
  destruct (shl_align m e (fexp (Z.pos (digits2_pos m) + e))) as [mz ez].
  destruct H as [Ez Em]. exists mz, ez. split; [reflexivity |].
  change (Z.pos (digits2_pos m)) with (Zdigits2 (Zpos m)) in Ez.
  assert (Hk : 0 <= e - ez) by lia.
  split; [rewrite fexp_eq in Ez; lia |]. split.
  - rewrite Em, Zdigits2_shl by lia.
    replace (Zdigits2 (Z.pos m) + (e - ez) + ez) with (Zdigits2 (Z.pos m) + e)
      by lia.
    lia.
  - rewrite Em. replace ez with (e - (e - ez)) at 2 by lia.
    now apply value_shl.
Qed.

Lemma binary_round_nonzero s m e :
  -1074 <= e ->
  let r := binary_round prec emax s m e in
  (exists m' e', r = S754_finite s m' e' /\ valid r) \/ r = S754_infinity s.
Proof.
  intros He.
  destruct (binary_round_spec_min s m e He) as (mz & ez & E & Hez & Hc & _).
  cbn zeta. rewrite E. apply round_nonzero; [lia | exact Hez | exact Hc].
Qed.

(** Normalising an exact integer mantissa is monotone in its value. *)
Lemma binary_normalize_mono z1 e1 z2 e2 :
  -1074 <= e1 -> -1074 <= e2 ->
  nonneg (binary_normalize prec emax z1 e1 false) ->
  (IZR z1 * bpow e1 <= IZR z2 * bpow e2)%R ->
  vle (binary_normalize prec emax z1 e1 false)
      (binary_normalize prec emax z2 e2 false).
Proof.
  intros He1 He2 Hnn Hle.
  pose proof (bpow_pos e1) as Hb1. pose proof (bpow_pos e2) as Hb2.
  destruct z1 as [| m1 | m1]; cbn [binary_normalize] in *.
  - (* the difference is zero *)
    rewrite Rmult_0_l in Hle.
    destruct z2 as [| m2 | m2]; cbn [binary_normalize].
    + cbn. lra.
    + destruct (binary_round_nonzero false m2 e2 He2)
        as [(m' & e' & -> & _) | ->]; cbn [vle]; [| exact I].
      rewrite F2R_pos. cbn [F2R]. pose proof (value_pos m' e'). lra.
    + exfalso. assert (IZR (Z.neg m2) < 0)%R by (apply IZR_lt; lia). nra.
  - (* a positive difference *)
    pose proof (value_pos m1 e1) as Hp1.
    destruct z2 as [| m2 | m2]; cbn [binary_normalize].
    + exfalso. rewrite Rmult_0_l in Hle. lra.
    + destruct (binary_round_spec_min false m1 e1 He1)
        as (mz1 & ez1 & -> & _ & Hc1 & EV1).
      destruct (binary_round_spec_min false m2 e2 He2)
        as (mz2 & ez2 & -> & _ & Hc2 & EV2).
      apply round_mono; try lia; try assumption. lra.
    + exfalso. assert (IZR (Z.neg m2) < 0)%R by (apply IZR_lt; lia). nra.
  - (* a negative difference is not non-negative *)
    exfalso.
    destruct (binary_round_nonzero true m1 e1 He1)
      as [(m' & e' & E & _) | E]; rewrite E in Hnn;
      unfold nonneg in Hnn; cbn [vle] in Hnn; [| exact Hnn].
    rewrite F2R_neg in Hnn. cbn [F2R] in Hnn.
    pose proof (value_pos m' e'). lra.
Qed.

Lemma shl_align_min m e ez :
  ez <= e -> Zpos (fst (shl_align m e ez)) = Zpos m * 2 ^ (e - ez).
Proof.
  intros H. pose proof (shl_align_spec m e ez) as Hs.
  destruct (shl_align m e ez) as [mz ez']. cbn [fst].
  destruct Hs as [-> ->]. do 2 f_equal. lia.
Qed.

(** The difference of two positive numbers of the format, before it is
    rounded. *)
Lemma fsub_pos_spec mx ex my ey :
  exists z,
    fsub (S754_finite false mx ex) (S754_finite false my ey)
    = binary_normalize prec emax z (Z.min ex ey) false /\
    (IZR z * bpow (Z.min ex ey)
     = IZR (Zpos mx) * bpow ex - IZR (Zpos my) * bpow ey)%R.
Proof.
  eexists. split; [reflexivity |].
  cbn [cond_Zopp]. rewrite !shl_align_min by lia.
  rewrite minus_IZR, Rmult_minus_distr_r.
  f_equal.
  - replace (Z.min ex ey) with (ex - (ex - Z.min ex ey)) at 2 by lia.
    apply value_shl. lia.
  - replace (Z.min ex ey) with (ey - (ey - Z.min ex ey)) at 2 by lia.
    apply value_shl. lia.
Qed.

Lemma valid_exponent s m e : valid (S754_finite s m e) -> -1074 <= e.
Proof.
  intros V. apply valid_finite_inv in V as [H _]. rewrite fexp_eq in H. lia.
Qed.

(** Subtracting the same non-negative float is monotone, as long as
    the smaller difference is not negative. *)
Lemma fsub_mono_l x1 x2 y :
  valid x1 -> valid x2 -> valid y ->
  nonneg x1 -> nonneg y -> vle x1 x2 ->
  nonneg (fsub x1 y) ->
  vle (fsub x1 y) (fsub x2 y).
Proof.
  intros V1 V2 Vy N1 Ny Hx.
  pose proof (nonneg_vle _ _ N1 Hx) as N2.
  destruct (nonneg_inv _ N1) as [[s1 ->] | [(m1 & e1 & ->) | ->]];
  destruct (nonneg_inv _ N2) as [[s2 ->] | [(m2 & e2 & ->) | ->]];
  destruct (nonneg_inv _ Ny) as [[sy ->] | [(my & ey & ->) | ->]];
  clear N1 N2 Ny; cbn [vle] in Hx; try contradiction;
  rewrite ?F2R_pos in Hx; cbn [F2R] in Hx;
  try (match goal with
       | H : (IZR (Z.pos ?m) * bpow ?e <= 0)%R |- _ =>
           pose proof (value_pos m e); exfalso; lra
       end).
  all: try (unfold fsub, nonneg; cbn [SFsub negb vle];
            rewrite ?F2R_pos, ?F2R_neg; cbn [F2R]; intros Hn;
            try contradiction; try exact I; try lra;
            try (destruct s1, s2, sy; cbn [vle F2R]; lra);
            try (destruct s1, sy; cbn [vle F2R]; (exact I || lra));
            try (destruct s1, sy; cbn [vle F2R] in *; rewrite ?F2R_pos;
                 cbn [F2R];
                 match goal with
                 | |- (0 <= IZR (Z.pos ?m) * bpow ?e)%R =>
                     pose proof (value_pos m e); lra
                 end);
            try (match goal with
                 | H : (0 <= - (IZR (Z.pos ?m) * bpow ?e))%R |- _ =>
                     pose proof (value_pos m e); exfalso; lra
                 end); fail).
  - (* two positive numbers minus a positive one *)
    intros Hn.
    destruct (fsub_pos_spec m1 e1 my ey) as (z1 & E1 & EV1).
    destruct (fsub_pos_spec m2 e2 my ey) as (z2 & E2 & EV2).
    rewrite E1 in *. rewrite E2.
    pose proof (valid_exponent _ _ _ V1). pose proof (valid_exponent _ _ _ V2).
    pose proof (valid_exponent _ _ _ Vy).
    apply binary_normalize_mono; try lia; [exact Hn | lra].
  - intros Hn. change (fsub (S754_infinity false) (S754_finite false my ey))
      with (S754_infinity false).
    now apply vle_inf.
Qed.

(** *** A quotient by 2 or more stays below the dividend *)

Lemma nonneg_const m e : nonneg (S754_finite false m e).
Proof.
  unfold nonneg. cbn [vle]. rewrite F2R_pos. cbn [F2R].
  pose proof (value_pos m e). lra.
Qed.

Lemma SFdiv_core_binary_value mx ex my ey :
  let '(mz, ez, _) := SFdiv_core_binary prec emax (Zpos mx) ex (Zpos my) ey in
  (IZR mz * bpow ez * (IZR (Zpos my) * bpow ey) <= IZR (Zpos mx) * bpow ex)%R.
Proof.
  unfold SFdiv_core_binary.
  set (d1 := Zdigits2 (Zpos mx)). set (d2 := Zdigits2 (Zpos my)).
  set (e' := Z.min (fexp (d1 + ex - (d2 + ey))) (ex - ey)).
  set (s := ex - ey - e').
  assert (Hs : 0 <= s) by (unfold s, e'; lia).
  set (m' := match s with
             | Z0 => Zpos mx
             | Zpos _ => Z.shiftl (Zpos mx) s
             | Zneg _ => 0
             end).
  assert (Em : m' = Zpos mx * 2 ^ s).
  { unfold m'. destruct s as [| p | p]; [rewrite Z.pow_0_r; lia | | lia].
    apply Z.shiftl_mul_pow2. lia. }
  clearbody m'.
  pose proof (Z_div_mod m' (Zpos my) ltac:(lia)) as Hdiv.
  destruct (Z.div_eucl m' (Z.pos my)) as [q r] eqn:Ediv.
  destruct Hdiv as [Hqr Hr].
  assert (Hle : q * Z.pos my <= Z.pos mx * 2 ^ s) by lia.
  replace (IZR q * bpow e' * (IZR (Z.pos my) * bpow ey))%R
    with (IZR (q * Z.pos my) * bpow (e' + ey))%R
    by (rewrite mult_IZR, bpow_add; ring).
  replace (e' + ey) with (ex - s) by (unfold s; lia).
  rewrite <- (value_shl (Z.pos mx) ex s Hs).
  apply Rmult_le_compat_r; [left; apply bpow_pos | now apply IZR_le].
Qed.

Lemma fdiv_le mx ex my ey :
  valid (S754_finite false mx ex) ->
  (2 <= IZR (Zpos my) * bpow ey)%R ->
  let q := fdiv (S754_finite false mx ex) (S754_finite false my ey) in
  nonneg q /\ vle q (S754_finite false mx ex) /\ valid q.
Proof.
  intros Vx Hy q. split; [| split; [| apply fdiv_valid]].
  - destruct (fdiv_finite_class false mx ex false my ey)
      as [E | [(m & e & E & _) | E]]; fold q in E; rewrite E; cbn [xorb].
    + cbn. lra.
    + unfold nonneg. cbn [vle]. rewrite F2R_pos. cbn [F2R].
      pose proof (value_pos m e). lra.
    + exact I.
  - unfold q, fdiv. cbn [SFdiv xorb].
    pose proof (SFdiv_core_binary_shape mx ex my ey) as Hshape.
    pose proof (SFdiv_core_binary_value mx ex my ey) as Hval.
    destruct (SFdiv_core_binary prec emax (Z.pos mx) ex (Z.pos my) ey)
      as [[mz ez] lz].
    destruct Hshape as [Hmz Hc].
    destruct (binary_round_aux_shape false mz ez lz Hmz Hc)
      as (a & Hq & Ha & HE & ->).
    set (c := fexp (Zdigits2 mz + ez)) in *.
    set (q0 := mz / 2 ^ (c - ez)) in *.
    pose proof (value_pos mx ex) as HX. pose proof (value_pos my ey) as HY.
    pose proof (bpow_pos c) as Hbc. pose proof (bpow_pos ez) as Hbe.
    (* the shifted quotient is still below the exact one *)
    assert (HP : 0 < 2 ^ (c - ez)) by (apply Z.pow_pos_nonneg; lia).
    assert (Hq0 : q0 * 2 ^ (c - ez) <= mz).
    { unfold q0. rewrite Z.mul_comm. apply Z.mul_div_le. exact HP. }
    assert (HV0 : (IZR q0 * bpow c <= IZR mz * bpow ez)%R).
    { replace c with ((c - ez) + ez) at 1 by lia.
      rewrite bpow_add, <- IZR_pow2, <- Rmult_assoc, <- mult_IZR by lia.
      apply Rmult_le_compat_r; [lra | now apply IZR_le]. }
    assert (Hhalf : (2 * (IZR q0 * bpow c) <= IZR (Z.pos mx) * bpow ex)%R).
    { assert (0 <= IZR q0 * bpow c)%R
        by (apply Rmult_le_pos; [apply IZR_le; lia | lra]).
      assert (0 <= IZR mz * bpow ez)%R
        by (apply Rmult_le_pos; [apply IZR_le; lia | lra]).
      nra. }
    assert (HV : (IZR a * bpow c <= IZR (Z.pos mx) * bpow ex)%R).
    { destruct (Z.eq_dec q0 0) as [E0 | Hne].
      - (* the quotient vanished: at most the least positive float *)
        rewrite E0 in HE, Ha. change (Zdigits2 0) with 0 in HE.
        assert (Ec : c = -1074) by (rewrite fexp_eq in HE; lia).
        pose proof (valid_exponent _ _ _ Vx) as Hex.
        apply Rle_trans with (1 * bpow c)%R.
        + apply Rmult_le_compat_r; [lra | apply IZR_le; lia].
        + rewrite Rmult_1_l, Ec.
          apply Rle_trans with (1 * bpow ex)%R.
          * rewrite Rmult_1_l. now apply bpow_le.
          * apply Rmult_le_compat_r; [left; apply bpow_pos |].
            apply IZR_le. lia.
      - apply Rle_trans with (2 * (IZR q0 * bpow c))%R; [| exact Hhalf].
        rewrite <- Rmult_assoc, <- mult_IZR.
        apply Rmult_le_compat_r; [lra | apply IZR_le; lia]. }
    destruct (encode_class false a c q0 Hq Ha HE)
      as [[_ ->] | [(m & e & -> & _ & EV & _) | [_ Hinf]]]; cbn [vle].
    + rewrite F2R_pos. cbn [F2R]. lra.
    + rewrite !F2R_pos. lra.
    + exfalso. pose proof (valid_value_lt _ _ _ Vx) as Hlt.
      apply valid_finite_inv in Vx as [_ Hex].
      assert (bpow (53 + ex) <= bpow 1024)%R by (apply bpow_le; lia). lra.
Qed.

(** What is left of a non-negative float after a smaller one is taken
    away is not negative. *)
Lemma fsub_nonneg x y :
  valid x -> valid y -> nonneg y -> vle y x ->
  is_finite y = true -> nonneg (fsub x y).
Proof.
  intros Vx Vy Ny H Fy. pose proof (nonneg_vle _ _ Ny H) as Nx.
  destruct (nonneg_inv _ Nx) as [[sx ->] | [(mx & ex & ->) | ->]];
  destruct (nonneg_inv _ Ny) as [[sy ->] | [(my & ey & ->) | ->]];
    try discriminate; cbn [vle] in H;
    rewrite ?F2R_pos in H; cbn [F2R] in H.
  - unfold nonneg. destruct sx, sy; cbn; lra.
  - pose proof (value_pos my ey). lra.
  - apply nonneg_const.
  - destruct (fsub_pos_spec mx ex my ey) as (z & -> & EV).
    pose proof (bpow_pos (Z.min ex ey)) as Hb.
    destruct z as [| m | m]; cbn [binary_normalize].
    + unfold nonneg. cbn. lra.
    + destruct (binary_round_class false m (Z.min ex ey))
        as [-> | [(m' & e' & -> & _) | ->]];
        [unfold nonneg; cbn; lra | apply nonneg_const | exact I].
    + exfalso. assert (IZR (Z.neg m) < 0)%R by (apply IZR_lt; lia). nra.
  - exact I.
  - exact I.
Qed.

(** *** Multiplication commutes and 1.0 is neutral *)

Lemma fmul_comm x y : fmul x y = fmul y x.
Proof.
  destruct x as [sx | sx | | sx mx ex], y as [sy | sy | | sy my ey];
    unfold fmul; cbn [SFmul]; rewrite ?(xorb_comm sx sy); try reflexivity.
  now rewrite (Pos.mul_comm mx my), (Z.add_comm ex ey).
Qed.

Lemma fmul_one_r x :
  valid x -> fmul x (S754_finite false 4503599627370496 (-52)) = x.
Proof.
  intros V. destruct x as [s | s | | s m e]; try (now destruct s);
    [reflexivity |].
  pose proof V as V'. apply valid_finite_inv in V' as [Hcan He].
  unfold fmul. cbn [SFmul]. rewrite xorb_false_r.
  rewrite Pos2Z.inj_mul. change (Z.pos 4503599627370496) with (2 ^ 52).
  assert (Hd : Zdigits2 (Z.pos m * 2 ^ 52) = Zdigits2 (Z.pos m) + 52)
    by (apply Zdigits2_shl; lia).
  assert (Ec : fexp (Zdigits2 (Z.pos m * 2 ^ 52) + (e + -52)) = e).
  { rewrite Hd. replace (Zdigits2 (Z.pos m) + 52 + (e + -52))
      with (Zdigits2 (Z.pos m) + e) by lia. exact Hcan. }
  destruct (round_spec s (Z.pos m * 2 ^ 52) (e + -52) ltac:(lia))
    as (a & _ & Ha & _ & [Hn _] & ->); [lia |].
  rewrite Ec in *. replace (e - (e + -52)) with 52 in * by lia.
  rewrite Z.div_mul in Ha by lia.
  assert (a = Z.pos m) as -> by lia.
  destruct (Zdigits2_bounds (Z.pos m) ltac:(lia)) as [_ Hhi].
  assert (Hm : Z.pos m < 2 ^ 53).
  { eapply Z.lt_le_trans; [exact Hhi |]. apply Z.pow_le_mono_r; [lia |].
    rewrite fexp_eq in Hcan. lia. }
  unfold encode, fin_or_inf.
  replace (Z.pos m =? 2 ^ 53) with false by (symmetry; apply Z.eqb_neq; lia).
  replace (e <=? 971) with true by (symmetry; apply Z.leb_le; lia).
  reflexivity.
Qed.

End Binary64Facts.

(** ** [b_value] as it runs *)

Module Signals64Facts.
Import Binary64Facts.
Import Binary64 Signals64.

(** *** Signs *)

Lemma binary_round_aux_negb (s : bool) (m e : Z) (l : location) :
  binary_round_aux prec emax (negb s) m e l
  = SFopp (binary_round_aux prec emax s m e l).
Proof.
  unfold binary_round_aux.
  destruct (shr_fexp prec emax m e l) as [mrs' e'].
  destruct (shr_fexp prec emax _ e' loc_Exact) as [mrs'' e''].
  destruct (shr_m mrs''); [reflexivity | | reflexivity].
  now destruct (e'' <=? emax - prec)%Z.
Qed.

Lemma fmul_fopp_l (x y : float) : fmul (fopp x) y = fopp (fmul x y).
Proof.
  destruct x as [sx | sx | | sx mx ex], y as [sy | sy | | sy my ey];
    cbn [fmul fopp SFmul SFopp]; try reflexivity;
    try (now destruct sx, sy).
  rewrite <- binary_round_aux_negb. now destruct sx, sy.
Qed.

Lemma fmul_fopp_r (x y : float) : fmul x (fopp y) = fopp (fmul x y).
Proof.
  destruct x as [sx | sx | | sx mx ex], y as [sy | sy | | sy my ey];
    cbn [fmul fopp SFmul SFopp]; try reflexivity;
    try (now destruct sx, sy).
  rewrite <- binary_round_aux_negb. now destruct sx, sy.
Qed.

Lemma fopp_involutive (x : float) : fopp (fopp x) = x.
Proof. destruct x as [s | s | | s m e]; cbn; now rewrite ?negb_involutive. Qed.

Lemma fmul_fopp_fopp (x y : float) : fmul (fopp x) (fopp y) = fmul x y.
Proof. now rewrite fmul_fopp_l, fmul_fopp_r, fopp_involutive. Qed.

Lemma pow2_fopp (x : float) : pow2 (fopp x) = pow2 x.
Proof.
  destruct x as [s | s | | s m e]; try reflexivity.
  change (fopp (S754_finite s m e)) with (S754_finite (negb s) m e).
  unfold pow2.
  change (S754_finite (negb s) m e) with (fopp (S754_finite s m e)).
  now rewrite fmul_fopp_fopp.
Qed.

(** *** Squares *)

Lemma sq_abs (x : float) : fmul x x = fmul (SFabs x) (SFabs x).
Proof. destruct x as [[] | [] | | [] m e]; reflexivity. Qed.

Lemma SFabs_valid x : valid x -> valid (SFabs x).
Proof. now destruct x. Qed.

Lemma SFabs_nonneg x : is_nan x = false -> nonneg (SFabs x).
Proof.
  destruct x as [s | s | | s m e]; cbn; intros; try lra; try exact I;
    try discriminate.
  pose proof (value_pos m e). unfold bpow in *. lra.
Qed.

Lemma sq_not_nan x : valid x -> is_nan x = false -> is_nan (fmul x x) = false.
Proof.
  intros V N. destruct x as [s | s | | s m e]; try reflexivity;
    try discriminate.
  apply fmul_finite_class; (exact V || reflexivity).
Qed.

Lemma sq_nonneg x : valid x -> is_nan x = false -> nonneg (fmul x x).
Proof.
  intros V N. pose proof (sq_not_nan x V N) as Hn. rewrite sq_abs in *.
  apply fmul_nonneg; auto using SFabs_valid, SFabs_nonneg.
Qed.

Lemma sq_mono x1 x2 :
  valid x1 -> valid x2 -> nonneg x1 -> vle x1 x2 ->
  vle (fmul x1 x1) (fmul x2 x2).
Proof.
  intros V1 V2 N1 H.
  assert (is_nan x1 = false) by (destruct x1; [| | contradiction |]; easy).
  assert (is_nan x2 = false).
  { destruct x2; try reflexivity. destruct x1 as [| [] | |]; contradiction. }
  apply fmul_mono; auto using sq_not_nan.
Qed.

Lemma nonneg_finite_le x1 x2 :
  nonneg x1 -> vle x1 x2 -> is_finite x2 = true -> is_finite x1 = true.
Proof.
  intros N H F.
  destruct x1 as [| [] | |]; try reflexivity; try contradiction.
  destruct x2 as [| [] | |]; try discriminate; contradiction.
Qed.

(** If the square of the larger number is in range, so is the square of
    the smaller one: [**] raises for the smaller only if it raises for
    the larger. *)
Lemma pow2_overflows_mono x1 x2 :
  valid x1 -> valid x2 -> nonneg x1 -> vle x1 x2 -> is_finite x2 = true ->
  pow2_overflows x2 = false -> pow2_overflows x1 = false.
Proof.
  intros V1 V2 N1 H F2 O2.
  pose proof (sq_mono x1 x2 V1 V2 N1 H) as Hsq.
  destruct (pow2_overflows x1) eqn:O1; [exfalso | reflexivity].
  unfold pow2_overflows in O1, O2.
  destruct x1 as [| | | s1 m1 e1]; try discriminate.
  destruct (fmul (S754_finite s1 m1 e1) (S754_finite s1 m1 e1))
    as [| s | |] eqn:E1; try discriminate.
  destruct x2 as [| | | s2 m2 e2]; try discriminate.
  - (* the larger one is zero *)
    destruct s1; cbn [vle] in H; rewrite ?F2R_pos, ?F2R_neg in H;
      cbn [F2R] in *; unfold nonneg in N1; cbn [vle] in N1;
      rewrite ?F2R_pos, ?F2R_neg in N1; cbn [F2R] in N1;
      pose proof (value_pos m1 e1); lra.
  - destruct (fmul (S754_finite s2 m2 e2) (S754_finite s2 m2 e2))
      as [| s' | |] eqn:E2; try discriminate; destruct s; cbn [vle] in Hsq;
      try contradiction.
    + pose proof (sq_nonneg _ V1 eq_refl) as Hn. rewrite E1 in Hn.
      exact Hn.
    + pose proof (sq_nonneg _ V1 eq_refl) as Hn. rewrite E1 in Hn.
      exact Hn.
Qed.

(** *** The gradient, the ratio and the time factor *)

Lemma valid_consts :
  valid f_1e_3 /\ valid f_1e_6 /\ valid f_1e6 /\ valid f_pi /\ valid f_2
  /\ valid f_3 /\ valid f_1000.
Proof. repeat split. Qed.

Lemma G_of_valid g : valid g -> valid (G_of g).
Proof. intros V. unfold G_of. repeat apply fmul_valid; (exact V || reflexivity). Qed.

Lemma G_of_finite g : valid g -> is_finite g = true -> is_finite (G_of g) = true.
Proof.
  intros V F. unfold G_of.
  apply fmul_small_finite; [apply fmul_valid; (exact V || reflexivity)
                           | reflexivity | | cbn; lia].
  apply fmul_small_finite; [exact V | reflexivity | exact F | cbn; lia].
Qed.

Lemma finite_not_nan x : is_finite x = true -> is_nan x = false.
Proof. now destruct x. Qed.


Lemma G_of_mono g1 g2 :
  valid g1 -> valid g2 -> is_finite g2 = true -> nonneg g1 -> vle g1 g2 ->
  nonneg (G_of g1) /\ vle (G_of g1) (G_of g2).
Proof.
  intros V1 V2 F2 N1 H.
  pose proof (nonneg_finite_le _ _ N1 H F2) as F1.
  pose proof (nonneg_vle _ _ N1 H) as N2.
  assert (Va : forall g, valid g -> valid (fmul g f_1e_3)).
  { intros g V. apply fmul_valid; (exact V || reflexivity). }
  assert (Fa : forall g, valid g -> is_finite g = true ->
                         is_finite (fmul g f_1e_3) = true).
  { intros g V F. apply fmul_small_finite;
      [exact V | reflexivity | exact F | cbn; lia]. }
  assert (Na : nonneg (fmul g1 f_1e_3)).
  { apply fmul_nonneg; try assumption; try reflexivity;
      [apply nonneg_const | apply finite_not_nan; auto]. }
  assert (Ha : vle (fmul g1 f_1e_3) (fmul g2 f_1e_3)).
  { apply fmul_mono; try assumption; try reflexivity;
      try apply nonneg_const; try (apply finite_not_nan; auto).
    apply vle_refl. reflexivity. }
  unfold G_of. split.
  - apply fmul_nonneg; auto; try reflexivity; try apply nonneg_const.
    apply finite_not_nan. apply (G_of_finite g1 V1 F1).
  - apply fmul_mono; auto; try reflexivity; try apply nonneg_const.
    + apply vle_refl. reflexivity.
    + apply finite_not_nan. apply (G_of_finite g1 V1 F1).
    + apply finite_not_nan. apply (G_of_finite g2 V2 F2).
Qed.

Lemma time_factor_valid delta Delta :
  valid Delta -> valid (time_factor delta Delta).
Proof. intros V. apply fsub_valid; [exact V | apply fdiv_valid]. Qed.

Lemma fdiv_3_nonneg delta : nonneg delta -> nonneg (fdiv delta f_3).
Proof.
  intros N.
  destruct (nonneg_inv _ N) as [[s ->] | [(m & e & ->) | ->]];
    [destruct s; cbn; lra | | exact I].
  destruct (fdiv_finite_class false m e false 6755399441055744 (-51))
    as [E | [(m' & e' & E & _) | E]]; unfold f_3; rewrite E; cbn [xorb].
  - cbn. lra.
  - apply nonneg_const.
  - exact I.
Qed.

Lemma time_factor_mono delta Delta1 Delta2 :
  valid Delta1 -> valid Delta2 ->
  nonneg delta -> nonneg Delta1 -> vle Delta1 Delta2 ->
  nonneg (time_factor delta Delta1) ->
  vle (time_factor delta Delta1) (time_factor delta Delta2).
Proof.
  intros V1 V2 Nd N1 H Ht. unfold time_factor in *.
  apply fsub_mono_l; auto using fdiv_valid, fdiv_3_nonneg.
Qed.

(** On the domain of the formula, [0 <= delta <= Delta], the time
    factor is computed as a non-negative float. *)
Lemma time_factor_nonneg delta Delta :
  valid delta -> valid Delta -> nonneg delta -> is_finite delta = true ->
  vle delta Delta -> nonneg (time_factor delta Delta).
Proof.
  intros Vd VD Nd Fd H. unfold time_factor.
  assert (Hq : nonneg (fdiv delta f_3) /\ vle (fdiv delta f_3) delta
               /\ is_finite (fdiv delta f_3) = true).
  { destruct (nonneg_inv _ Nd) as [[s ->] | [(m & e & ->) | ->]];
      try discriminate.
    - change (fdiv (S754_zero s) f_3) with (S754_zero (xorb s false)).
      unfold nonneg. cbn [vle F2R is_finite]. repeat split; lra.
    - destruct (fdiv_le m e 6755399441055744 (-51) Vd) as (N & L & _).
      { pose proof (bpow_add (-51) 51) as E.
        rewrite <- (IZR_pow2 51) in E by lia.
        change (bpow (-51 + 51)) with 1%R in E.
        change (2 ^ 51)%Z with 2251799813685248%Z in E. lra. }
      split; [exact N |]. split; [exact L |].
      fold f_3 in N, L |- *.
      destruct (fdiv (S754_finite false m e) f_3) as [| [] | |];
        try reflexivity; unfold nonneg in N; cbn [vle] in N, L; tauto. }
  destruct Hq as (Nq & Lq & Fq).
  apply fsub_nonneg; auto using fdiv_valid.
  (* delta / 3 <= delta <= Delta *)
  destruct (nonneg_inv _ Nq) as [[sq Eq] | [(mq & eq & Eq) | Eq]];
    rewrite Eq in *; try discriminate;
  destruct (nonneg_inv _ Nd) as [[sd ->] | [(md & ed & ->) | ->]];
    try discriminate;
  destruct Delta as [sD | [] | | [] mD eD]; cbn [vle] in *; try tauto;
    rewrite ?F2R_pos, ?F2R_neg in *; cbn [F2R] in *; try lra.
Qed.

(** *** The formula is monotone *)

Lemma stejskal_tanner_64_eq g delta Delta gamma :
  stejskal_tanner_64 g delta Delta gamma
  = st_product (gamma_of gamma) (G_of g) delta (time_factor delta Delta).
Proof. reflexivity. Qed.

Lemma st_product_mono gr G1 G2 delta t1 t2 :
  valid gr -> valid G1 -> valid G2 -> valid delta -> valid t1 -> valid t2 ->
  nonneg G1 -> vle G1 G2 -> nonneg t1 -> vle t1 t2 ->
  is_nan (st_product gr G1 delta t1) = false ->
  is_nan (st_product gr G2 delta t2) = false ->
  nonneg (st_product gr G1 delta t1) /\
  vle (st_product gr G1 delta t1) (st_product gr G2 delta t2).
Proof.
  intros Vgr VG1 VG2 Vd Vt1 Vt2 NG HG Nt Ht N1 N2. unfold st_product in *.
  (* nothing on the way is nan *)
  apply fmul_nan_inv in N1 as H1. destruct H1 as [_ N1a].
  apply fmul_nan_inv in N1a as H1. destruct H1 as [N1b N1t].
  apply fmul_nan_inv in N1b as H1. destruct H1 as [N1c N1d].
  apply fmul_nan_inv in N1c as H1. destruct H1 as [N1g N1G].
  apply fmul_nan_inv in N2 as H2. destruct H2 as [_ N2a].
  apply fmul_nan_inv in N2a as H2. destruct H2 as [N2b N2t].
  apply fmul_nan_inv in N2b as H2. destruct H2 as [N2c N2d].
  apply fmul_nan_inv in N2c as H2. destruct H2 as [_ N2G].
  assert (Ngr : is_nan gr = false).
  { destruct gr; try reflexivity. discriminate N1g. }
  assert (Nde : is_nan delta = false).
  { destruct delta; try reflexivity. discriminate N1d. }
  pose proof (sq_nonneg gr Vgr Ngr) as Pgr.
  pose proof (sq_nonneg delta Vd Nde) as Pde.
  pose proof (nonneg_vle _ _ NG HG) as NG2.
  assert (NG1n : is_nan G1 = false) by (destruct G1; easy).
  pose proof (sq_nonneg G1 VG1 NG1n) as PG1.
  pose proof (sq_mono G1 G2 VG1 VG2 NG HG) as HGG.
  assert (Vsq : forall x, valid x -> valid (fmul x x))
    by (intros; now apply fmul_valid).
  (* gamma^2 * G^2 *)
  assert (P1 : nonneg (fmul (fmul gr gr) (fmul G1 G1)))
    by (apply fmul_nonneg; auto).
  assert (M1 : vle (fmul (fmul gr gr) (fmul G1 G1))
                   (fmul (fmul gr gr) (fmul G2 G2))).
  { apply fmul_mono; auto. now apply vle_refl. }
  (* ... * delta^2 *)
  assert (P2 : nonneg (fmul (fmul (fmul gr gr) (fmul G1 G1))
                            (fmul delta delta))).
  { apply fmul_nonneg; auto; repeat apply fmul_valid; auto. }
  assert (M2 : vle (fmul (fmul (fmul gr gr) (fmul G1 G1)) (fmul delta delta))
                   (fmul (fmul (fmul gr gr) (fmul G2 G2)) (fmul delta delta))).
  { apply fmul_mono; auto; repeat apply fmul_valid; auto.
    now apply vle_refl. }
  (* ... * (Delta - delta / 3) *)
  assert (P3 : nonneg (fmul (fmul (fmul (fmul gr gr) (fmul G1 G1))
                                  (fmul delta delta)) t1)).
  { apply fmul_nonneg; auto; repeat apply fmul_valid; auto. }
  assert (M3 : vle (fmul (fmul (fmul (fmul gr gr) (fmul G1 G1))
                               (fmul delta delta)) t1)
                   (fmul (fmul (fmul (fmul gr gr) (fmul G2 G2))
                               (fmul delta delta)) t2)).
  { apply fmul_mono; auto; repeat apply fmul_valid; auto. }
  (* 1000 * ... *)
  split.
  - apply fmul_nonneg; auto; try reflexivity; try apply nonneg_const.
    repeat apply fmul_valid; auto.
  - apply fmul_mono; auto; try reflexivity; try apply nonneg_const;
      repeat apply fmul_valid; auto.
    now apply vle_refl.
Qed.

(** A negative time factor turns the whole product over. *)
Lemma st_product_fopp gr G delta t :
  st_product gr G delta (fopp t) = fopp (st_product gr G delta t).
Proof. unfold st_product. now rewrite !fmul_fopp_r. Qed.

Lemma vle_fopp x y : vle (fopp x) (fopp y) <-> vle y x.
Proof.
  destruct x as [sx | [] | | [] mx ex], y as [sy | [] | | [] my ey];
    cbn [fopp SFopp negb vle]; rewrite ?F2R_pos, ?F2R_neg; cbn [F2R];
    try tauto; split; intros; lra.
Qed.

Lemma is_nan_fopp x : is_nan (fopp x) = is_nan x.
Proof. now destruct x. Qed.

Lemma gamma_of_valid gamma : valid gamma -> valid (gamma_of gamma).
Proof.
  intros V. unfold gamma_of. repeat apply fmul_valid; (exact V || reflexivity).
Qed.

(** *** What the function returns *)

Lemma pow2_eval (x : float) :
  pow2 x = if pow2_overflows x then Raise OverflowError
           else Return (fmul x x).
Proof.
  destruct x as [s | s | | s m e].
  - now destruct s.
  - now destruct s.
  - reflexivity.
  - unfold pow2, pow2_overflows.
    now destruct (fmul (S754_finite s m e) (S754_finite s m e)).
Qed.

Lemma truediv_3 (x : float) : truediv x f_3 = Return (fdiv x f_3).
Proof. reflexivity. Qed.

Lemma pow2_overflows_fopp x : pow2_overflows (fopp x) = pow2_overflows x.
Proof.
  destruct x as [s | s | | s m e]; try reflexivity.
  change (pow2_overflows (fopp (S754_finite s m e)))
    with (match fmul (fopp (S754_finite s m e)) (fopp (S754_finite s m e))
          with S754_infinity _ => true | _ => false end).
  now rewrite fmul_fopp_fopp.
Qed.

Lemma b_value_eval64 (g delta Delta gamma : float) :
  b_value g delta Delta gamma =
  if pow2_overflows
       (fmul (fmul (fmul (fmul f_2 f_pi) gamma) f_1e6) f_1e_3)
     || pow2_overflows (fmul (fmul g f_1e_3) f_1e_6)
     || pow2_overflows delta
  then Raise OverflowError
  else Return (stejskal_tanner_64 g delta Delta gamma).
Proof.
  unfold b_value, stejskal_tanner_64. rewrite !pow2_eval, truediv_3.
  destruct (pow2_overflows (fmul (fmul (fmul (fmul f_2 f_pi) gamma) f_1e6)
                                 f_1e_3)); [reflexivity |].
  destruct (pow2_overflows (fmul (fmul g f_1e_3) f_1e_6)); [reflexivity |].
  now destruct (pow2_overflows delta).
Qed.



(** Four calls, bit for bit as Python returns them:
    [b_value(40, 13, 60)] is 1077.1876233717496,
    [b_value(40, -13, 60)] is 1244.8934809026805,
    [b_value(40, 40, 10)] is -610.672216771711 and
    [b_value(300, 40, 300)] is 2954126.848633151. *)
Example b_value_example64 :
  b_value f_40 f_13 f_60 f_42_576
  = Return (S754_finite false 4737521268774533 (-42)) /\
  b_value f_40 (fopp f_13) f_60 f_42_576
  = Return (S754_finite false 5475099430380148 (-42)) /\
  b_value f_40 f_40 f_10 f_42_576
  = Return (S754_finite true 5371529624801938 (-43)) /\
  b_value f_300 f_40 f_300 f_42_576
  = Return (S754_finite false 6343939101557463 (-31)).
Proof. repeat split; vm_compute; reflexivity. Qed.


(** C10, as the code has it: [b_value] has the same outcome for [-g] as
    for [g], the same float or the same [OverflowError]; the sign of [g]
    is never looked at. *)
Theorem b_value_even_in_g64 (g delta Delta gamma : float) :
  b_value (fopp g) delta Delta gamma = b_value g delta Delta gamma.
Proof.
  unfold b_value. rewrite !fmul_fopp_l, pow2_fopp. reflexivity.
Qed.

(** C10 as stated fails: g = -1e200 is not accepted without error. *)
Lemma b_value_negative_g_overflows :
  b_value (fopp f_1e200) f_13 f_60 f_42_576 = Raise OverflowError.
Proof. vm_compute. reflexivity. Qed.

(** With g so small that [G ** 2] underflows the result is 0.0, at
    1e-160 and at 2e-160 alike. *)
Example b_value_underflow_tie :
  b_value f_1e_160 f_13 f_60 f_42_576 = Return (S754_zero false) /\
  b_value f_2e_160 f_13 f_60 f_42_576 = Return (S754_zero false).
Proof. split; vm_compute; reflexivity. Qed.

(** *** Monotonicity of [b_value] *)

Lemma st_product_valid gr G delta t :
  valid gr -> valid G -> valid delta -> valid t ->
  valid (st_product gr G delta t).
Proof.
  intros. unfold st_product. repeat apply fmul_valid; auto; reflexivity.
Qed.

Lemma stejskal_tanner_64_valid g delta Delta gamma :
  valid g -> valid delta -> valid Delta -> valid gamma ->
  valid (stejskal_tanner_64 g delta Delta gamma).
Proof.
  intros. rewrite stejskal_tanner_64_eq.
  apply st_product_valid;
    auto using gamma_of_valid, G_of_valid, time_factor_valid.
Qed.

Lemma orb3_false a b c : a || b || c = false -> a = false /\ b = false /\ c = false.
Proof. destruct a, b, c; cbn; intuition congruence. Qed.

(** A call with a smaller gradient returns whenever the call with the
    larger one does. *)
Lemma b_value_returns_mono g1 g2 delta Delta1 Delta2 gamma b2 :
  valid g1 -> valid g2 -> is_finite g2 = true -> nonneg g1 -> vle g1 g2 ->
  b_value g2 delta Delta2 gamma = Return b2 ->
  b2 = stejskal_tanner_64 g2 delta Delta2 gamma /\
  b_value g1 delta Delta1 gamma
  = Return (stejskal_tanner_64 g1 delta Delta1 gamma).
Proof.
  intros V1 V2 F2 N1 H. rewrite !b_value_eval64.
  destruct (_ || _ || pow2_overflows delta) eqn:O2; [discriminate |].
  intros [= <-]. split; [reflexivity |].
  apply orb3_false in O2 as (Og & OG & Od). rewrite Og, Od.
  fold (G_of g1). fold (G_of g2) in OG.
  destruct (G_of_mono g1 g2 V1 V2 F2 N1 H) as [NG HG].
  rewrite (pow2_overflows_mono (G_of g1) (G_of g2));
    auto using G_of_valid, G_of_finite.
Qed.






(** *** The Stejskal-Tanner signal *)

Section Exp.

Variable exp64 : float -> float.
Hypothesis exp64_valid : forall x, valid x -> valid (exp64 x).
Hypothesis exp64_mono :
  forall x y, valid x -> valid y -> vle x y -> vle (exp64 x) (exp64 y).
Hypothesis exp64_range :
  forall x, valid x -> vle x (S754_zero false) ->
            nonneg (exp64 x) /\ is_finite (exp64 x) = true.


End Exp.

Lemma exp_coarse_valid x : valid x -> valid (exp_coarse x).
Proof. now destruct x as [s | [] | | [] m e]. Qed.

Lemma exp_coarse_mono x y :
  valid x -> valid y -> vle x y -> vle (exp_coarse x) (exp_coarse y).
Proof.
  intros _ _.
  destruct x as [sx | [] | | [] mx ex], y as [sy | [] | | [] my ey];
    cbn [vle exp_coarse]; rewrite ?F2R_pos, ?F2R_neg; cbn [F2R];
    try tauto; try lra;
    try (pose proof (value_pos mx ex)); try (pose proof (value_pos my ey));
    try (pose proof (value_pos 4503599627370496 (-52))); intros; lra.
Qed.

Lemma exp_coarse_range x :
  valid x -> vle x (S754_zero false) ->
  nonneg (exp_coarse x) /\ is_finite (exp_coarse x) = true.
Proof.
  intros _. unfold nonneg.
  destruct x as [sx | [] | | [] mx ex]; cbn [vle exp_coarse is_finite];
    rewrite ?F2R_pos, ?F2R_neg; cbn [F2R]; try tauto;
    try (pose proof (value_pos mx ex));
    try (pose proof (value_pos 4503599627370496 (-52)));
    intros; split; try reflexivity; lra.
Qed.


Section ExpZero.

Variable exp64 : float -> float.
Hypothesis exp64_zero : forall s, exp64 (S754_zero s) = f_1.

(** In [ST_equation] the weighting [b] and the diffusivity [D] can be
    exchanged, whatever the exponential is; and when the exponential of
    a zero is 1.0, a [b] or a [D] that is zero leaves the signal at
    [S0], bit for bit. *)
Theorem ST_equation_exchange_zero (b D S0 : float) :
  ST_equation exp64 b D S0 = ST_equation exp64 D b S0 /\
  (valid S0 -> is_finite D = true ->
   forall s, ST_equation exp64 (S754_zero s) D S0 = S0) /\
  (valid S0 -> is_finite b = true ->
   forall s, ST_equation exp64 b (S754_zero s) S0 = S0).
Proof.
  unfold ST_equation. split; [| split].
  - now rewrite !fmul_fopp_l, (fmul_comm b D).
  - intros V F s.
    assert (E : exists s', fmul (fopp (S754_zero s)) D = S754_zero s').
    { destruct D as [sd | | | sd md ed]; try discriminate; cbn; eauto. }
    destruct E as [s' ->]. rewrite exp64_zero. now apply fmul_one_r.
  - intros V F s.
    assert (E : exists s', fmul (fopp b) (S754_zero s) = S754_zero s').
    { destruct b as [sb | | | sb mb eb]; try discriminate; cbn; eauto. }
    destruct E as [s' ->]. rewrite exp64_zero. now apply fmul_one_r.
Qed.

End ExpZero.

Lemma ST_equation_exchange_zero_witness :
  ST_equation exp_coarse f_3 f_40 f_13 = ST_equation exp_coarse f_40 f_3 f_13 /\
  (valid f_13 -> is_finite f_40 = true ->
   forall s, ST_equation exp_coarse (S754_zero s) f_40 f_13 = f_13) /\
  (valid f_13 -> is_finite f_3 = true ->
   forall s, ST_equation exp_coarse f_3 (S754_zero s) f_13 = f_13).
Proof.
  apply (ST_equation_exchange_zero exp_coarse). intros s. reflexivity.
Defined.

End Signals64Facts.
